(** * drizzle-duckdb: connection pool, streaming executor, transactions

    A shallow embedding of the three stateful mechanisms of the driver:

    - [Pool]   : [createDuckDBConnectionPool] of [src/pool.ts];
    - [Stream] : [executeInBatches] / [executeInBatchesRaw] of
                 [src/client.ts], as a generator driven by the consumer;
    - [Tx]     : [DuckDBSession.transaction], [DuckDBTransaction.transaction]
                 and the configuration check of the session module.

    The properties proved of them are in [StreamFacts], [PoolFacts] and
    [TxFacts].

    JavaScript promises are modelled by explicit state passing: every
    operation takes the state it runs in and returns the new state together
    with the list of observable effects it performed, in program order. *)

From Stdlib Require Import ZArith Lia Bool Ascii.
From stdpp Require Import base list gmap strings pretty.

Local Open Scope Z_scope.

(** ** The connection pool ([src/pool.ts]) *)

Module Pool.

(** A connection is an object identity; the pool never looks inside. *)
Definition conn := nat.

(** Whatever an external call ([DuckDBConnection.create], the [setup] hook,
    [closeClientConnection]) throws. *)
Definition ext_error := nat.

(** Entry of the [metadata] side table. *)
Record meta := Meta { createdAt : Z; lastUsedAt : Z }.

(** [PooledConnection]: an entry of the [idle] array. *)
Record PooledConnection := Pooled {
  connection : conn;
  pc_createdAt : Z;
  pc_lastUsedAt : Z
}.

(** An entry of the [waiting] array.  The [resolve]/[reject] closures of
    the promise are identified by the client they settle; [timeoutId] is the
    handle returned by [setTimeout]. *)
Record waiter := Waiter { w_client : nat; timeoutId : nat }.

(** [DuckDBConnectionPoolOptions]; [None] is an absent field. *)
Record options := Options {
  opt_size : option Z;
  opt_acquireTimeout : option Z;
  opt_maxWaitingRequests : option Z;
  opt_maxLifetimeMs : option Z;
  opt_idleTimeoutMs : option Z;
  opt_setup : bool
}.

(** [options.size && options.size > 0 ? options.size : 4] *)
Definition size (o : options) : Z :=
  match opt_size o with
  | Some s => if 0 <? s then s else 4
  | None => 4
  end.

(** [options.acquireTimeout ?? 30_000] *)
Definition acquireTimeout (o : options) : Z :=
  default 30000 (opt_acquireTimeout o).

(** [options.maxWaitingRequests ?? 100] *)
Definition maxWaitingRequests (o : options) : Z :=
  default 100 (opt_maxWaitingRequests o).

Definition maxLifetimeMs (o : options) : option Z := opt_maxLifetimeMs o.
Definition idleTimeoutMs (o : options) : option Z := opt_idleTimeoutMs o.

Inductive pool_error :=
| ErrClosed                    (* 'DuckDB connection pool is closed' *)
| ErrQueueFull (max : Z)       (* '... queue is full (max ${max} ...)' *)
| ErrTimeout (ms : Z)          (* '... acquire timeout after ${ms}ms' *)
| ErrExternal (e : ext_error). (* thrown by create / setup / close *)

(** The closure state of [createDuckDBConnectionPool].  [idle] is kept
    top-first: [idle.push x] is [x :: idle] and [idle.pop()] takes the head.
    [waiting] is in array order: [push] appends, [shift] takes the head.
    [creating] lists the clients whose [acquire] is suspended in
    [await DuckDBConnection.create(instance)]. *)
Record pool := MkPool {
  idle : list PooledConnection;
  waiting : list waiter;
  total : Z;
  closed : bool;
  pendingAcquires : Z;
  metadata : gmap conn meta;
  creating : list nat
}.

Definition init : pool :=
  MkPool [] [] 0 false 0 ∅ [].

(** What the pool does to the outside world. *)
Inductive effect :=
| Destroyed (c : conn)                  (* closeClientConnection(c) returned *)
| DestroyFailed (c : conn) (e : ext_error)  (* ... threw e *)
| CreateStarted (client : nat)          (* DuckDBConnection.create(instance) *)
| TimerSet (tid : nat) (client : nat)   (* setTimeout(..., acquireTimeout) *)
| TimerCleared (tid : nat)              (* clearTimeout *)
| Resolved (client : nat) (c : conn)    (* the client's promise is fulfilled *)
| Rejected (client : nat) (e : pool_error).

Section WithConfig.

Variable o : options.

(** Outcome of [closeClientConnection c]: [None] when it returns, [Some e]
    when it throws [e]. *)
Variable closeClientConnection : conn -> option ext_error.

(** [shouldRecycle] *)
Definition shouldRecycle (p : PooledConnection) (now : Z) : bool :=
  match maxLifetimeMs o with
  | Some m => if m <=? now - pc_createdAt p then true
              else match idleTimeoutMs o with
                   | Some i => i <=? now - pc_lastUsedAt p
                   | None => false
                   end
  | None => match idleTimeoutMs o with
            | Some i => i <=? now - pc_lastUsedAt p
            | None => false
            end
  end.

(** [maxLifetimeMs !== undefined && now - createdAt >= maxLifetimeMs] *)
Definition lifetime_expired (created now : Z) : bool :=
  match maxLifetimeMs o with
  | Some m => m <=? now - created
  | None => false
  end.

(** The [while (idle.length > 0)] loop of [acquire]. *)
Inductive scan_result :=
| ScanGot (p : PooledConnection)    (* return pooled.connection *)
| ScanRaised (e : ext_error)        (* closeClientConnection threw *)
| ScanNone.                         (* the loop ran out of idle entries *)

Fixpoint scan_idle (now : Z) (l : list PooledConnection) (tot : Z)
    (md : gmap conn meta) (acc : list effect)
  : scan_result * list PooledConnection * Z * gmap conn meta * list effect :=
  match l with
  | [] => (ScanNone, [], tot, md, acc)
  | p :: rest =>
      if shouldRecycle p now then
        match closeClientConnection (connection p) with
        | Some e =>
            (ScanRaised e, rest, tot, md,
             acc ++ [DestroyFailed (connection p) e])
        | None =>
            scan_idle now rest (Z.max 0 (tot - 1))
              (delete (connection p) md)
              (acc ++ [Destroyed (connection p)])
        end
      else
        (ScanGot p, rest, tot,
         <[connection p := Meta (pc_createdAt p) now]> md, acc)
  end.

(** What the loop found, and [total] when it ended. *)
Definition usable_idle (now : Z) (st : pool) : scan_result :=
  (scan_idle now (idle st) (total st) (metadata st) []).1.1.1.1.

Definition total_after_scan (now : Z) (st : pool) : Z :=
  (scan_idle now (idle st) (total st) (metadata st) []).1.1.2.

(** [acquire], up to its first suspension in [DuckDBConnection.create] or in
    the waiter promise.  [client] names the promise being settled and [tid]
    is the timer handle [setTimeout] would return. *)
Definition acquire (client tid : nat) (now : Z) (st : pool)
  : pool * list effect :=
  if closed st then (st, [Rejected client ErrClosed])
  else
    match scan_idle now (idle st) (total st) (metadata st) [] with
    | (ScanGot p, rest, tot, md, effs) =>
        (MkPool rest (waiting st) tot (closed st) (pendingAcquires st) md
           (creating st),
         effs ++ [Resolved client (connection p)])
    | (ScanRaised e, rest, tot, md, effs) =>
        (MkPool rest (waiting st) tot (closed st) (pendingAcquires st) md
           (creating st),
         effs ++ [Rejected client (ErrExternal e)])
    | (ScanNone, rest, tot, md, effs) =>
        if tot <? size o then
          (MkPool rest (waiting st) (tot + 1) (closed st)
             (pendingAcquires st + 1) md (creating st ++ [client]),
           effs ++ [CreateStarted client])
        else if maxWaitingRequests o <=? Z.of_nat (length (waiting st)) then
          (MkPool rest (waiting st) tot (closed st) (pendingAcquires st) md
             (creating st),
           effs ++ [Rejected client (ErrQueueFull (maxWaitingRequests o))])
        else
          (MkPool rest (waiting st ++ [Waiter client tid]) tot (closed st)
             (pendingAcquires st) md (creating st),
           effs ++ [TimerSet tid client])
    end.

(** How [await DuckDBConnection.create(instance)] and the [setup] hook end. *)
Inductive create_result :=
| CreateFailed (e : ext_error)
| Created (c : conn) (setup_error : option ext_error).

Definition remove_first (x : nat) (l : list nat) : list nat :=
  match list_find (fun y => y = x) l with
  | Some (i, _) => take i l ++ drop (S i) l
  | None => l
  end.

(** [acquire] resumed after [DuckDBConnection.create]: the rest of the
    [try], its [catch] and its [finally].  Only a client whose creation is
    in flight can be resumed; for any other the event does nothing. *)
Definition acquire_created (client : nat) (r : create_result) (now : Z)
    (st : pool) : pool * list effect :=
  if negb (bool_decide (client ∈ creating st)) then (st, [])
  else
    let fin tot md :=
      MkPool (idle st) (waiting st) tot (closed st) (pendingAcquires st - 1)
        md (remove_first client (creating st)) in
    match r with
    | CreateFailed e =>
        (fin (total st - 1) (metadata st), [Rejected client (ErrExternal e)])
    | Created c su =>
        match (if opt_setup o then su else None) with
        | Some e =>
            match closeClientConnection c with
            | Some e' =>
                (fin (total st - 1) (metadata st),
                 [DestroyFailed c e'; Rejected client (ErrExternal e')])
            | None =>
                (fin (total st - 1) (metadata st),
                 [Destroyed c; Rejected client (ErrExternal e)])
            end
        | None =>
            if closed st then
              match closeClientConnection c with
              | Some e' =>
                  (fin (total st - 1) (metadata st),
                   [DestroyFailed c e'; Rejected client (ErrExternal e')])
              | None =>
                  (* total -= 1 in the branch, and again in the catch *)
                  (fin (total st - 1 - 1) (metadata st),
                   [Destroyed c; Rejected client ErrClosed])
              end
            else
              (fin (total st) (<[c := Meta now now]> (metadata st)),
               [Resolved client c])
        end
    end.

(** The [setTimeout] callback of a waiter.  A timer that was cleared does
    not fire, and a waiter's timer is cleared when the waiter leaves the
    queue by another way, so a timer that fires finds its waiter. *)
Definition acquire_timeout (tid : nat) (st : pool) : pool * list effect :=
  match list_find (fun w => timeoutId w = tid) (waiting st) with
  | Some (i, w) =>
      (MkPool (idle st) (take i (waiting st) ++ drop (S i) (waiting st))
         (total st) (closed st) (pendingAcquires st) (metadata st)
         (creating st),
       [Rejected (w_client w) (ErrTimeout (acquireTimeout o))])
  | None => (st, [])
  end.

(** [release].  The third component is [Some e] when the promise returned
    by [release] itself is rejected with [e].  [tid] is the timer handle
    used if the nested [acquire()] has to queue. *)
Definition release (c : conn) (tid : nat) (now : Z) (st : pool)
  : pool * list effect * option ext_error :=
  match waiting st with
  | w :: ws =>
      let st1 := MkPool (idle st) ws (total st) (closed st)
                   (pendingAcquires st) (metadata st) (creating st) in
      let m := default (Meta now now) (metadata st !! c) in
      let expired := lifetime_expired (createdAt m) now in
      if closed st then
        match closeClientConnection c with
        | Some e =>
            (st1, [TimerCleared (timeoutId w); DestroyFailed c e], Some e)
        | None =>
            (MkPool (idle st) ws (Z.max 0 (total st - 1)) (closed st)
               (pendingAcquires st) (delete c (metadata st)) (creating st),
             [TimerCleared (timeoutId w); Destroyed c;
              Rejected (w_client w) ErrClosed], None)
        end
      else if expired then
        match closeClientConnection c with
        | Some e =>
            (st1, [TimerCleared (timeoutId w); DestroyFailed c e], Some e)
        | None =>
            let st2 := MkPool (idle st) ws (Z.max 0 (total st - 1))
                         (closed st) (pendingAcquires st)
                         (delete c (metadata st)) (creating st) in
            let '(st3, effs) := acquire (w_client w) tid now st2 in
            (st3, [TimerCleared (timeoutId w); Destroyed c] ++ effs, None)
        end
      else
        (MkPool (idle st) ws (total st) (closed st) (pendingAcquires st)
           (<[c := Meta (createdAt m) now]> (metadata st)) (creating st),
         [TimerCleared (timeoutId w); Resolved (w_client w) c], None)
  | [] =>
      if closed st then
        match closeClientConnection c with
        | Some e => (st, [DestroyFailed c e], Some e)
        | None =>
            (MkPool (idle st) [] (Z.max 0 (total st - 1)) (closed st)
               (pendingAcquires st) (delete c (metadata st)) (creating st),
             [Destroyed c], None)
        end
      else
        let m := default (Meta now now) (metadata st !! c) in
        let md := <[c := Meta (createdAt m) now]> (metadata st) in
        if lifetime_expired (createdAt m) now then
          match closeClientConnection c with
          | Some e =>
              (MkPool (idle st) [] (total st) (closed st)
                 (pendingAcquires st) md (creating st),
               [DestroyFailed c e], Some e)
          | None =>
              (MkPool (idle st) [] (total st - 1) (closed st)
                 (pendingAcquires st) (delete c md) (creating st),
               [Destroyed c], None)
          end
        else
          (MkPool (Pooled c (createdAt m) now :: idle st) [] (total st)
             (closed st) (pendingAcquires st) md (creating st),
           [], None)
  end.

(** [close], up to the loop that waits for [pendingAcquires].
    [toClose = idle.splice(0, idle.length)] is the idle array from its
    first element, the connection released longest ago, to its last: the
    reverse of [idle st], which is kept top-first.  [toClose.map] calls
    [closeClientConnection] in that order. *)
Definition close (st : pool) : pool * list effect :=
  let toClose := rev (idle st) in
  (MkPool [] [] (Z.max 0 (total st - Z.of_nat (length toClose))) true
     (pendingAcquires st)
     (foldl (fun md p => delete (connection p) md) (metadata st) toClose)
     (creating st),
   flat_map (fun w => [TimerCleared (timeoutId w);
                       Rejected (w_client w) ErrClosed]) (waiting st)
   ++ map (fun p => match closeClientConnection (connection p) with
                    | Some e => DestroyFailed (connection p) e
                    | None => Destroyed (connection p)
                    end) toClose).

(** The pool as a transition system.  Between two suspension points the
    event loop runs one of these to completion; [closeClientConnection] is
    awaited without any other pool operation being interleaved. *)
Inductive event :=
| EvAcquire (client tid : nat) (now : Z)
| EvCreated (client : nat) (r : create_result) (now : Z)
| EvTimeout (tid : nat)
| EvRelease (c : conn) (tid : nat) (now : Z)
| EvClose.

Definition step (st : pool) (ev : event) : pool * list effect :=
  match ev with
  | EvAcquire client tid now => acquire client tid now st
  | EvCreated client r now => acquire_created client r now st
  | EvTimeout tid => acquire_timeout tid st
  | EvRelease c tid now => (release c tid now st).1
  | EvClose => close st
  end.

Fixpoint run (st : pool) (evs : list event) : pool * list effect :=
  match evs with
  | [] => (st, [])
  | ev :: rest =>
      let '(st1, e1) := step st ev in
      let '(st2, e2) := run st1 rest in
      (st2, e1 ++ e2)
  end.

(** [n] callers acquire in turn, each creation succeeding without a setup
    failure; caller [k] gets connection [k]. *)
Fixpoint acquire_n (n : nat) (now : Z) : list event :=
  match n with
  | O => []
  | S k => acquire_n k now
           ++ [EvAcquire k k now; EvCreated k (Created k None) now]
  end.

(** The side table after callers [0 .. n-1] were each given a new
    connection at time [now]. *)
Fixpoint warm_metadata (n : nat) (now : Z) : gmap conn meta :=
  match n with
  | O => ∅
  | S k => <[k := Meta now now]> (warm_metadata k now)
  end.

(** The pool with [n] connections checked out and nothing else going on. *)
Definition warm (n : nat) (now : Z) : pool :=
  MkPool [] [] (Z.of_nat n) false 0 (warm_metadata n now) [].

(** The connections handed to callers by a list of effects. *)
Definition handed_out (effs : list effect) : list conn :=
  omap (fun e => match e with Resolved _ c => Some c | _ => None end) effs.


End WithConfig.

End Pool.

(** ** The streaming executor ([src/client.ts]) *)

Module Stream.

(** Whatever the engine, the pool or the consumer throws. *)
Definition error := nat.

(** [deduplicateColumns]: the first loop looks for a repeated name; only
    when there is one are the names rewritten. *)
Fixpoint has_duplicates (counts : gmap string nat) (columns : list string)
  : bool :=
  match columns with
  | [] => false
  | column :: rest =>
      let next := (default 0 (counts !! column) + 1)%nat in
      if (1 <? next)%nat then true
      else has_duplicates (<[column := next]> counts) rest
  end.

Fixpoint rename_columns (counts : gmap string nat) (columns : list string)
  : list string :=
  match columns with
  | [] => []
  | column :: rest =>
      let count := default 0%nat (counts !! column) in
      (if (count =? 0)%nat then column
       else (column +:+ "_" +:+ pretty count)%string)
      :: rename_columns (<[column := (count + 1)%nat]> counts) rest
  end.

Definition deduplicateColumns (columns : list string) : list string :=
  if has_duplicates ∅ columns then rename_columns ∅ columns else columns.

Section WithValue.

(** A JavaScript value of a result row ([unknown]). *)
Variable value : Type.

(** [unknown[]]: one row as the engine delivers it. *)
Definition row := list value.

(** [RowData = Record<string, unknown>]: the own fields of a row object;
    a missing index reads [undefined], here [None].  The prototype of the
    object is not part of the model. *)
Definition RowData := gmap string (option value).

(** [obj[col] = v] on the object literal [{}].  The assignment creates or
    overwrites an own field, except for the name [__proto__]: that name is
    answered by the setter the object inherits from [Object.prototype],
    which creates no own field (it replaces the prototype when [v] is an
    object or [null], and does nothing otherwise).  What assignments do
    once the prototype has been replaced depends on the value that was
    installed and is outside the model. *)
Definition assign (obj : RowData) (col : string) (v : option value)
  : RowData :=
  if decide (col = "__proto__"%string) then obj else <[col := v]> obj.

(** [mapRowsToObjects]: [columns.forEach((col, idx) => obj[col] = vals[idx])] *)
Definition row_to_object (columns : list string) (vals : row) : RowData :=
  foldl (fun obj '(idx, col) => assign obj col (vals !! idx)) ∅
        (imap (fun idx col => (idx, col)) columns).

Definition mapRowsToObjects (columns : list string) (rows : list row)
  : list RowData :=
  map (row_to_object columns) rows.

(** [StreamResultLike].  [yieldRowsJs()] delivers [sr_chunks] in order and
    then either ends or throws [sr_fail].  [columnNames()] returns the
    names or throws; [sr_deduplicatedColumnNames] is [None] when the
    cursor has no such method, and otherwise what calling it gives.
    [sr_close] and [sr_cancel] are [None] when the method is absent, and
    otherwise say whether calling it throws. *)
Record StreamResultLike := {
  sr_chunks : list (list row);
  sr_fail : option error;
  sr_columnNames : error + list string;
  sr_deduplicatedColumnNames : option (error + list string);
  sr_close : option (option error);
  sr_cancel : option (option error)
}.

(** A connection, as far as streaming goes: how [client.stream(query,
    values)] ends, the conversion of the parameters just before it
    included. *)
Record DuckDBConnection := {
  stream : error + StreamResultLike
}.

(** [DuckDBClientLike]: a connection, or a pool with the outcome of its
    [acquire()] and whether its [release] throws. *)
Inductive DuckDBClientLike :=
| Conn (c : DuckDBConnection)
| PoolOf (acquire : error + DuckDBConnection) (release : option error).

(** [ExecuteInBatchesOptions] *)
Record ExecuteInBatchesOptions := { rowsPerChunk : option Z }.

(** [options.rowsPerChunk && options.rowsPerChunk > 0 ? ... : 100_000] *)
Definition rows_per_chunk (options : ExecuteInBatchesOptions) : Z :=
  match rowsPerChunk options with
  | Some p => if 0 <? p then p else 100000
  | None => 100000
  end.

(** [ExecuteBatchesRawChunk] *)
Record ExecuteBatchesRawChunk := {
  columns : list string;
  rows : list row
}.

(** The calls a run of the generator makes on its collaborators. *)
Inductive call :=
| CAcquire (ok : bool)   (* client.acquire(), and whether it returned *)
| CStream (ok : bool)    (* client.stream(query, values) *)
| CClose                 (* result.close() *)
| CCancel                (* result.cancel() *)
| CRelease.              (* client.release(connection) *)

(** [closeStreamResult]: errors of the cleanup call are swallowed. *)
Definition closeStreamResult (result : StreamResultLike) : list call :=
  match sr_close result with
  | Some _ => [CClose]
  | None => match sr_cancel result with
            | Some _ => [CCancel]
            | None => []
            end
  end.

(** The columns, computed once between [client.stream] and the [try]
    block: [result.deduplicatedColumnNames()] when the cursor has that
    method, [deduplicateColumns(result.columnNames())] otherwise; [inl]
    when the accessor throws. *)
Definition read_columns (result : StreamResultLike) : error + list string :=
  match sr_deduplicatedColumnNames result with
  | Some names => names
  | None =>
      match sr_columnNames result with
      | inl e => inl e
      | inr rawColumns => inr (deduplicateColumns rawColumns)
      end
  end.

(** [columns], once it has been computed. *)
Definition stream_columns (result : StreamResultLike) : list string :=
  match read_columns result with
  | inr columns => columns
  | inl _ => []
  end.

Section Generator.

(** The element pushed on [buffer]: a [RowData] object for
    [executeInBatches], the raw row for [executeInBatchesRaw]. *)
Context {A : Type}.

(** What the body does to one engine chunk before its inner loop. *)
Variable conv : list string -> list row -> list A.

(** Where the generator is suspended. *)
Inductive gen :=
| GInit                     (* created, body not entered yet *)
| GYielded (result : StreamResultLike) (cur : list A)
    (rest : list (list row))
      (* at the [yield] inside the row loop: [result] is the open cursor,
         [cur] what is left of the current engine chunk, [rest] the chunks
         not fetched yet *)
| GTail (result : StreamResultLike)   (* at the [yield] after the loop *)
| GDone.

(** What a call of [next], [return] or [throw] gives the consumer. *)
Inductive outcome :=
| Yield (chunk : list A)
| Done                      (* { done: true } *)
| Throw (e : error).        (* the promise is rejected *)

(** The inner [for (const row of ...)] loop: push rows until the buffer
    reaches [P]. *)
Fixpoint fill (P : Z) (buffer cur : list A) : (list A * list A) + list A :=
  match cur with
  | [] => inr buffer
  | r :: cur' =>
      let buffer' := buffer ++ [r] in
      if P <=? Z.of_nat (length buffer') then inl (buffer', cur')
      else fill P buffer' cur'
  end.

(** The [for await (const chunk of result.yieldRowsJs())] loop, run until
    its next [yield] or its end. *)
Fixpoint pump (cols : list string) (P : Z) (buffer cur : list A)
    (rest : list (list row)) : (list A * list A * list (list row)) + list A :=
  match fill P buffer cur with
  | inl (chunk, cur') => inl (chunk, cur', rest)
  | inr buffer' =>
      match rest with
      | [] => inr buffer'
      | c :: rest' => pump cols P buffer' (conv cols c) rest'
      end
  end.

Variable client : DuckDBClientLike.
Variable options : ExecuteInBatchesOptions.

(** The connection the body streams from, when there is one. *)
Definition the_connection : option DuckDBConnection :=
  match client with
  | Conn c => Some c
  | PoolOf (inr c) _ => Some c
  | PoolOf (inl _) _ => None
  end.

(** The cursor [client.stream] returns, when it returns one. *)
Definition the_cursor : option StreamResultLike :=
  match the_connection with
  | Some c => match stream c with inr r => Some r | inl _ => None end
  | None => None
  end.

(** The cursor the loops read from: the one [client.stream] returned,
    when its column names could be read, so that the [try] block is
    entered. *)
Definition the_result : option StreamResultLike :=
  match the_cursor with
  | Some r => match read_columns r with inr _ => Some r | inl _ => None end
  | None => None
  end.

(** The outer [finally]: for a pool, [client.release(connection)]. *)
Definition pool_release : list call :=
  match client with PoolOf _ _ => [CRelease] | Conn _ => [] end.

(** An error thrown by [client.release] in the outer [finally] replaces
    whatever the generator was about to deliver. *)
Definition after_release (res : outcome) : outcome :=
  match client with
  | PoolOf _ (Some e) => Throw e
  | _ => res
  end.

(** Resume the loops with an empty buffer from [cur] and [rest]. *)
Definition resume (r : StreamResultLike) (cur : list A)
    (rest : list (list row)) : gen * list call * outcome :=
  match pump (stream_columns r) (rows_per_chunk options) [] cur rest with
  | inl (chunk, cur', rest') => (GYielded r cur' rest', [], Yield chunk)
  | inr buffer =>
      match sr_fail r with
      | Some e =>
          (GDone, closeStreamResult r ++ pool_release,
           after_release (Throw e))
      | None =>
          if (0 <? length buffer)%nat then (GTail r, [], Yield buffer)
          else (GDone, closeStreamResult r ++ pool_release,
                after_release Done)
      end
  end.

(** Entering the body: acquire when the client is a pool, open the
    cursor, read the column names, then enter the [try] block and run to
    the first [yield].  The names are read before the [try]: when the
    accessor throws, the [finally] that closes the cursor is not in
    force, and only the outer [finally] of the pool case runs. *)
Definition start : gen * list call * outcome :=
  match client with
  | PoolOf (inl e) _ => (GDone, [CAcquire false], Throw e)
  | _ =>
      let acq := match client with PoolOf _ _ => [CAcquire true]
                                 | Conn _ => [] end in
      match the_connection with
      | None => (GDone, acq, Done)
      | Some c =>
          match stream c with
          | inl e =>
              (GDone, acq ++ [CStream false] ++ pool_release,
               after_release (Throw e))
          | inr r =>
              match read_columns r with
              | inl e =>
                  (GDone, acq ++ [CStream true] ++ pool_release,
                   after_release (Throw e))
              | inr _ =>
                  let '(g, calls, res) := resume r [] (sr_chunks r) in
                  (g, acq ++ [CStream true] ++ calls, res)
              end
          end
      end
  end.

(** [gen.next()] *)
Definition next (g : gen) : gen * list call * outcome :=
  match g with
  | GInit => start
  | GYielded r cur rest => resume r cur rest
  | GTail r =>
      (GDone, closeStreamResult r ++ pool_release, after_release Done)
  | GDone => (GDone, [], Done)
  end.

(** [gen.return()]: what [break] in a [for await] loop calls. *)
Definition gen_return (g : gen) : gen * list call * outcome :=
  match g with
  | GInit | GDone => (GDone, [], Done)
  | GYielded r _ _ | GTail r =>
      (GDone, closeStreamResult r ++ pool_release, after_release Done)
  end.

(** [gen.throw(e)] *)
Definition gen_throw (e : error) (g : gen) : gen * list call * outcome :=
  match g with
  | GInit | GDone => (GDone, [], Throw e)
  | GYielded r _ _ | GTail r =>
      (GDone, closeStreamResult r ++ pool_release,
       after_release (Throw e))
  end.

(** What a consumer can do with the generator. *)
Inductive op := Next | Return | ThrowIn (e : error).

Definition apply_op (g : gen) (x : op) : gen * list call * outcome :=
  match x with
  | Next => next g
  | Return => gen_return g
  | ThrowIn e => gen_throw e g
  end.

Fixpoint drive (g : gen) (ops : list op)
  : gen * list call * list outcome :=
  match ops with
  | [] => (g, [], [])
  | x :: ops' =>
      let '(g1, c1, r1) := apply_op g x in
      let '(g2, c2, r2) := drive g1 ops' in
      (g2, c1 ++ c2, r1 :: r2)
  end.

(** The chunks among the outcomes. *)
Definition chunks_of (outs : list outcome) : list (list A) :=
  omap (fun r => match r with Yield c => Some c | _ => None end) outs.

(** The two loops as one pass over all the rows of the result set: the
    chunks an undisturbed run yields when it starts with [buffer]. *)
Fixpoint batches (P : Z) (buffer rows : list A) : list (list A) :=
  match rows with
  | [] => if (0 <? length buffer)%nat then [buffer] else []
  | r :: rows' =>
      let buffer' := buffer ++ [r] in
      if P <=? Z.of_nat (length buffer') then buffer' :: batches P [] rows'
      else batches P buffer' rows'
  end.

(** All the rows still to come, as the buffer will see them. *)
Definition pending_rows (cols : list string) (cur : list A)
    (rest : list (list row)) : list A :=
  cur ++ concat (map (conv cols) rest).

End Generator.

(** [executeInBatches]: the buffer holds row objects. *)
Definition executeInBatches :=
  @drive RowData mapRowsToObjects.

(** [executeInBatchesRaw]: the buffer holds the rows as delivered; each
    chunk is wrapped as [{ columns, rows: buffer }]. *)
Definition executeInBatchesRaw :=
  @drive row (fun _ c => c).

Definition raw_chunk (client : DuckDBClientLike) (buffer : list row)
  : ExecuteBatchesRawChunk :=
  {| columns := match the_result client with
                | Some r => stream_columns r
                | None => []
                end;
     rows := buffer |}.

(** Counting calls in a trace. *)
Definition is_cursor_cleanup (c : call) : bool :=
  match c with CClose | CCancel => true | _ => false end.
Definition is_release (c : call) : bool :=
  match c with CRelease => true | _ => false end.
Definition is_acquired (c : call) : bool :=
  match c with CAcquire true => true | _ => false end.
Definition is_opened (c : call) : bool :=
  match c with CStream true => true | _ => false end.
Definition is_cancel (c : call) : bool :=
  match c with CCancel => true | _ => false end.

Definition count (p : call -> bool) (tr : list call) : nat :=
  length (filter (fun c => p c = true) tr).

(** Whether the cursor has a [close] or a [cancel] method at all. *)
Definition has_cleanup (r : StreamResultLike) : bool :=
  match sr_close r, sr_cancel r with
  | None, None => false
  | _, _ => true
  end.

End WithValue.

Arguments GInit {value A}.
Arguments GYielded {value A} result cur rest.
Arguments GTail {value A} result.
Arguments GDone {value A}.
Arguments Yield {A} chunk.
Arguments Done {A}.
Arguments Throw {A} e.
Arguments Conn {value} c.
Arguments PoolOf {value} acquire release.
Arguments executeInBatches {value} client options g ops.
Arguments executeInBatchesRaw {value} client options g ops.
Arguments raw_chunk {value} client buffer.
Arguments chunks_of {A} outs.
Arguments has_cleanup {value} r.
Arguments the_result {value} client.
Arguments the_cursor {value} client.
Arguments read_columns {value} result.
Arguments the_connection {value} client.
Arguments stream_columns {value} result.
Arguments sr_chunks {value} s.
Arguments sr_fail {value} s.
Arguments sr_close {value} s.
Arguments sr_cancel {value} s.
Arguments stream {value} d.
Arguments rows {value} e.
Arguments columns {value} e.
Arguments closeStreamResult {value} result.
Arguments mapRowsToObjects {value} columns rows.
Arguments pump {value A} conv cols P buffer cur rest.
Arguments pending_rows {value A} conv cols cur rest.
Arguments pool_release {value} client.
Arguments after_release {value A} client res.
Arguments resume {value A} conv client options r cur rest.
Arguments start {value A} conv client options.
Arguments next {value A} conv client options g.
Arguments gen_return {value A} client g.
Arguments gen_throw {value A} client e g.
Arguments apply_op {value A} conv client options g x.
Arguments drive {value A} conv client options g ops.

Section Balance.

Context {value A : Type}.
Variable client : DuckDBClientLike value.

(** The connections a run that enters the body pins: one when the client
    is a pool whose [acquire()] returns. *)
Definition connections_pinned : nat :=
  match client with PoolOf (inr _) _ => 1 | _ => 0 end.

(** The cursors such a run opens: one when [client.stream] returns. *)
Definition cursors_opened : nat :=
  match the_cursor client with Some _ => 1 | None => 0 end.

(** The cleanup calls such a run has made on the cursor when it is
    finished: one when the [try] block was entered and the cursor has a
    [close] or a [cancel] method, none otherwise. *)
Definition cleanups_due : nat :=
  match the_result client with
  | Some r => if has_cleanup r then 1 else 0
  | None => 0
  end.

(** [cancel] is the call made only when the cursor has no [close]. *)
Definition cancels_due : nat :=
  match the_result client with
  | Some r => match sr_close r, sr_cancel r with
              | None, Some _ => 1
              | _, _ => 0
              end
  | None => 0
  end.

(** The calls of a generator suspended at a [yield] on the cursor [r]. *)
Definition suspended (r : StreamResultLike value) (tr : list call) : Prop :=
  the_result client = Some r
  /\ count is_acquired tr = connections_pinned
  /\ count is_opened tr = cursors_opened
  /\ count is_release tr = 0%nat
  /\ count is_cursor_cleanup tr = 0%nat.

(** What the calls made so far must look like for a generator whose body
    has been entered to be in state [g]: the connection pinned and the
    cursor open while suspended at a [yield], nothing released or closed
    yet; once finished, the pinned connection released and the cleanup
    calls that are due made. *)
Definition settled (g : @gen value A) (tr : list call) : Prop :=
  count is_acquired tr = connections_pinned
  /\ count is_opened tr = cursors_opened
  /\ match g with
     | GInit => False
     | GYielded r _ _ | GTail r =>
         the_result client = Some r
         /\ count is_release tr = 0%nat
         /\ count is_cursor_cleanup tr = 0%nat
     | GDone =>
         count is_release tr = connections_pinned
         /\ count is_cursor_cleanup tr = cleanups_due
         /\ count is_cancel tr = cancels_due
     end.

Variable conv : list string -> list (row value) -> list A.

(** A bound on the number of [next()] calls a generator in state [g] can
    still answer before it is finished. *)
Definition rank (g : @gen value A) : nat :=
  match g with
  | GDone => 0
  | GTail _ => 1
  | GYielded r cur rest =>
      2 + length (pending_rows conv (stream_columns r) cur rest)
  | GInit =>
      3 + match the_result client with
          | Some r =>
              length (pending_rows conv (stream_columns r) [] (sr_chunks r))
          | None => 0
          end
  end.

(** The chunks still to be yielded from state [g] by a run that is left
    to finish, when the engine does not fail. *)
Definition chunks_ahead (P : Z) (g : @gen value A) : list (list A) :=
  match g with
  | GDone | GTail _ => []
  | GYielded r cur rest =>
      batches P [] (pending_rows conv (stream_columns r) cur rest)
  | GInit =>
      match the_result client with
      | Some r =>
          batches P [] (pending_rows conv (stream_columns r) [] (sr_chunks r))
      | None => []
      end
  end.

(** The cursor a generator in state [g] reads from does not fail. *)
Definition unfailing (g : @gen value A) : Prop :=
  match g with
  | GYielded r _ _ | GTail r => sr_fail r = None
  | GInit => forall r, the_result client = Some r -> sr_fail r = None
  | GDone => True
  end.

End Balance.

Arguments batches {A} P buffer rows.
Arguments fill {A} P buffer cur.

(** What "cleaned up exactly once" says of a generator [run], started
    from [GInit] and driven by any consumer.  When the consumer begins
    with [next()], so that the body is entered: the connection is pinned
    once when the client is a pool whose [acquire()] returns, the cursor
    is opened once when [client.stream] returns; nothing is released or
    closed while the generator is suspended; once it is finished the
    pinned connection has been released once, and the cursor has had its
    cleanup method called once when the [try] block was entered and it
    has one ([cancel] only for want of [close]), and not at all
    otherwise.  A generator that is finished before its first [next()]
    calls nothing.  A consumer that stops ([return()], or [throw()]) after
    any calls finishes the generator, and so do enough [next()] calls. *)
Definition cleans_up_exactly_once {value A : Type}
    (client : DuckDBClientLike value)
    (run : @gen value A -> list op
           -> @gen value A * list call * list (@outcome A)) : Prop :=
  (forall ops,
     let '(g, tr, _) := run GInit (Next :: ops) in
     count is_acquired tr = connections_pinned client
     /\ count is_opened tr = cursors_opened client
     /\ match g with
        | GDone =>
            count is_release tr = connections_pinned client
            /\ count is_cursor_cleanup tr = cleanups_due client
            /\ count is_cancel tr = cancels_due client
        | _ =>
            count is_release tr = 0%nat
            /\ count is_cursor_cleanup tr = 0%nat
        end)
  /\ (forall x ops, x <> Next -> (run GInit (x :: ops)).1.2 = [])
  /\ (forall ops, (run GInit (ops ++ [Return])).1.1 = GDone)
  /\ (forall ops e, (run GInit (ops ++ [ThrowIn e])).1.1 = GDone)
  /\ (exists n, forall k, (run GInit (replicate (n + k) Next)).1.1 = GDone).

(** [sizes] are the sizes of the chunks of [M] rows cut every [P] rows:
    [ceil(M/P)] chunks, summing to [M], all but the last of [P] rows, the
    last of [M mod P] rows, or [P] when [P] divides [M]. *)
Definition chunked_by (P : Z) (M : nat) (sizes : list nat) : Prop :=
  Z.of_nat (length sizes) = (Z.of_nat M + P - 1) / P
  /\ sum_list sizes = M
  /\ (forall i s, sizes !! i = Some s -> (S i < length sizes)%nat ->
        Z.of_nat s = P)
  /\ (forall s, last sizes = Some s ->
        Z.of_nat s = if Z.of_nat M mod P =? 0 then P
                     else Z.of_nat M mod P).

(** A cursor over five one-column rows, delivered as chunks of three
    and two. *)
Definition sample_cursor : StreamResultLike nat :=
  {| sr_chunks := [[[1%nat]; [2%nat]; [3%nat]]; [[4%nat]; [5%nat]]];
     sr_fail := None;
     sr_columnNames := inr ["id"%string];
     sr_deduplicatedColumnNames := None;
     sr_close := Some None;
     sr_cancel := None |}.

(** A cursor that has a [close] method and whose [columnNames()] throws,
    and one that has neither [close] nor [cancel]. *)
Definition nameless_cursor : StreamResultLike nat :=
  {| sr_chunks := [[[1%nat]]];
     sr_fail := None;
     sr_columnNames := inl 13%nat;
     sr_deduplicatedColumnNames := None;
     sr_close := Some None;
     sr_cancel := Some None |}.

Definition bare_cursor : StreamResultLike nat :=
  {| sr_chunks := [[[1%nat]]];
     sr_fail := None;
     sr_columnNames := inr ["id"%string];
     sr_deduplicatedColumnNames := None;
     sr_close := None;
     sr_cancel := None |}.

End Stream.

(** ** Sessions and transactions (the session module) *)

Module Tx.

Local Open Scope string_scope.

(** *** Strings as the code uses them *)

Definition lower_unit (c : ascii) : ascii :=
  let n := nat_of_ascii c in
  if ((65 <=? n) && (n <=? 90)
      || (192 <=? n) && (n <=? 222) && negb (n =? 215))%nat
  then ascii_of_nat (n + 32) else c.

(** [String.prototype.toLowerCase].  A string of the model is a sequence
    of code units below 256; among those the letters with a lower-case
    form are [A]-[Z] and U+00C0-U+00DE without the multiplication sign
    U+00D7, each 32 below its lower-case form. *)
Fixpoint toLowerCase (s : string) : string :=
  match s with
  | EmptyString => EmptyString
  | String c s' => String (lower_unit c) (toLowerCase s')
  end.

(** [haystack.includes(needle)] *)
Fixpoint includes (needle haystack : string) : bool :=
  if String.prefix needle haystack then true
  else match haystack with
       | EmptyString => false
       | String _ h => includes needle h
       end.

(** [parts.join(sep)] *)
Fixpoint join (sep : string) (parts : list string) : string :=
  match parts with
  | [] => ""
  | [p] => p
  | p :: rest => p +:+ sep +:+ join sep rest
  end.

Definition dquote : string := String (ascii_of_nat 34) EmptyString.

(** *** Thrown values and SQL *)

(** What a [throw] can carry. *)
Inductive thrown :=
| JsError (message : string)      (* an [Error] with this message *)
| TransactionRollbackError        (* drizzle's error class, message 'Rollback' *)
| NonError (tag : nat).           (* a thrown value that is not an [Error] *)

Definition error_message (e : thrown) : option string :=
  match e with
  | JsError m => Some m
  | TransactionRollbackError => Some "Rollback"
  | NonError _ => None
  end.

(** [isSavepointSyntaxError] *)
Definition isSavepointSyntaxError (error : thrown) : bool :=
  match error_message error with
  | None => false
  | Some "" => false
  | Some m =>
      includes "savepoint" (toLowerCase m)
      && includes "syntax error" (toLowerCase m)
  end.

(** The statements the session sends to the engine. *)
Inductive sql_stmt :=
| Begin                          (* BEGIN TRANSACTION; *)
| SetTransaction (cfg : string)  (* set transaction <cfg> *)
| Commit                         (* commit *)
| Rollback                       (* rollback *)
| Savepoint (n : nat)            (* savepoint drizzle_savepoint_<n> *)
| ReleaseSavepoint (n : nat)     (* release savepoint drizzle_savepoint_<n> *)
| RollbackTo (n : nat)           (* rollback to savepoint drizzle_savepoint_<n> *)
| Query (text : string).         (* a statement of the user callback *)

(** The engine: given the statements it has received so far and the next
    one, whether it raises. *)
Definition engine := list sql_stmt -> sql_stmt -> option thrown.

(** *** Transaction configuration *)

Definition VALID_TRANSACTION_ISOLATION_LEVELS : list string :=
  ["read uncommitted"; "read committed"; "repeatable read"; "serializable"].

Definition VALID_TRANSACTION_ACCESS_MODES : list string :=
  ["read only"; "read write"].

(** The value found in [config.deferrable] when it is not [undefined]:
    a boolean, or anything else with its [String(...)] rendering. *)
Inductive js_value :=
| VBool (b : bool)
| VOther (rendering : string).

(** [PgTransactionConfig] as it arrives at run time; [None] is
    [undefined]. *)
Record PgTransactionConfig := {
  isolationLevel : option string;
  accessMode : option string;
  deferrable : option js_value
}.

Definition has (set : list string) (x : string) : bool :=
  bool_decide (x ∈ set).

(** JavaScript truthiness of an optional string: [undefined] and [''] are
    falsy. *)
Definition truthy (s : option string) : option string :=
  match s with
  | Some "" => None
  | other => other
  end.

Definition invalid_isolation_message (level : string) : string :=
  "Invalid transaction isolation level " +:+ dquote +:+ level +:+ dquote
  +:+ ". Expected one of: "
  +:+ join ", " VALID_TRANSACTION_ISOLATION_LEVELS +:+ ".".

Definition invalid_access_message (mode : string) : string :=
  "Invalid transaction access mode " +:+ dquote +:+ mode +:+ dquote
  +:+ ". Expected one of: "
  +:+ join ", " VALID_TRANSACTION_ACCESS_MODES +:+ ".".

Definition invalid_deferrable_message (rendering : string) : string :=
  "Invalid transaction deferrable flag " +:+ dquote +:+ rendering
  +:+ dquote +:+ ". Expected a boolean.".

(** The three guards at the head of [getTransactionConfigSQL]. *)
Definition check_isolation (config : PgTransactionConfig) : option thrown :=
  match truthy (isolationLevel config) with
  | Some level =>
      if negb (has VALID_TRANSACTION_ISOLATION_LEVELS level)
      then Some (JsError (invalid_isolation_message level)) else None
  | None => None
  end.

Definition check_access (config : PgTransactionConfig) : option thrown :=
  match truthy (accessMode config) with
  | Some mode =>
      if negb (has VALID_TRANSACTION_ACCESS_MODES mode)
      then Some (JsError (invalid_access_message mode)) else None
  | None => None
  end.

Definition check_deferrable (config : PgTransactionConfig) : option thrown :=
  match deferrable config with
  | Some (VOther r) => Some (JsError (invalid_deferrable_message r))
  | _ => None
  end.

(** The [chunks] pushed after the guards. *)
Definition config_chunks (config : PgTransactionConfig) : list string :=
  match truthy (isolationLevel config) with
  | Some level => ["isolation level " +:+ level]
  | None => []
  end
  ++ match truthy (accessMode config) with
     | Some mode => [mode]
     | None => []
     end
  ++ match deferrable config with
     | Some (VBool true) => ["deferrable"]
     | Some (VBool false) => ["not deferrable"]
     | _ => []
     end.

(** [getTransactionConfigSQL]: the text spliced after [set transaction],
    or the error thrown. *)
Definition getTransactionConfigSQL (config : PgTransactionConfig)
  : thrown + string :=
  match check_isolation config with
  | Some e => inl e
  | None =>
      match check_access config with
      | Some e => inl e
      | None =>
          match check_deferrable config with
          | Some e => inl e
          | None => inr (join " " (config_chunks config))
          end
      end
  end.

(** *** The dialect's savepoint capability *)

(** Modelled from the spec: the dialect module is not among the sources;
    only its three calls [areSavepointsUnsupported],
    [markSavepointsSupported] and [markSavepointsUnsupported] are.  The
    spec describes a per-dialect-instance tri-state flag
    {unknown, supported, unsupported}. *)
Inductive savepoint_support := SpUnknown | SpSupported | SpUnsupported.

(** Modelled from the spec: the test on the dialect's flag. *)
Definition areSavepointsUnsupported (d : savepoint_support) : bool :=
  match d with SpUnsupported => true | _ => false end.

(** Modelled from the spec: the one-time upgrade to supported. *)
Definition markSavepointsSupported (d : savepoint_support)
  : savepoint_support := SpSupported.

(** Modelled from the spec: the permanent downgrade. *)
Definition markSavepointsUnsupported (d : savepoint_support)
  : savepoint_support := SpUnsupported.

(** *** Session state *)

(** What the engine has been sent, with its answers, oldest first; the
    session's [rollbackOnly] field; the flag of the shared dialect. *)
Record state := MkState {
  sent : list (sql_stmt * option thrown);
  rollbackOnly : bool;
  dialect : savepoint_support
}.

Definition statements (st : state) : list sql_stmt := (sent st).*1.

Section WithEngine.

Variable eng : engine.

(** [session.execute(sql)]: send one statement. *)
Definition execute (s : sql_stmt) (st : state) : state * option thrown :=
  let r := eng (statements st) s in
  (MkState (sent st ++ [(s, r)]) (rollbackOnly st) (dialect st), r).

Definition markRollbackOnly (st : state) : state :=
  MkState (sent st) true (dialect st).

Definition set_dialect (d : savepoint_support) (st : state) : state :=
  MkState (sent st) (rollbackOnly st) d.

(** [runNestedWithoutSavepoint] *)
Definition runNestedWithoutSavepoint
    (transaction : state -> state * option thrown) (st : state)
  : state * option thrown :=
  match transaction st with
  | (st1, Some error) => (markRollbackOnly st1, Some error)
  | (st1, None) => (st1, None)
  end.

(** The probe of [DuckDBTransaction.transaction] has two halves, with
    an [await] between them.  The first half runs when [transaction] is
    called on a transaction whose [nestedIndex] is [nestedIndex]: it
    tests the flag of the dialect and, unless the flag says unsupported,
    sends [SAVEPOINT].  [Awaiting answer] is the suspension in
    [await internals.session.execute(savepointSql)], [answer] being what
    the engine makes of the statement. *)
Inductive probe :=
| Direct                          (* areSavepointsUnsupported(): no probe *)
| Awaiting (answer : option thrown).

Definition enter_nested (nestedIndex : nat) (st : state) : state * probe :=
  let savepoint := S nestedIndex in
  if areSavepointsUnsupported (dialect st) then (st, Direct)
  else
    match execute (Savepoint savepoint) st with
    | (st1, answer) => (st1, Awaiting answer)
    end.

(** The second half runs when the [await] settles, on the state the
    session and the dialect are in by then: it writes the flag. *)
Inductive probed :=
| WithSavepoint                  (* createdSavepoint = true *)
| WithoutSavepoint               (* falls back to runNestedWithoutSavepoint *)
| ProbeThrew (error : thrown).   (* throw error *)

Definition settle_probe (answer : option thrown) (st : state)
  : state * probed :=
  match answer with
  | Some error =>
      if negb (isSavepointSyntaxError error) then (st, ProbeThrew error)
      else (set_dialect (markSavepointsUnsupported (dialect st)) st,
            WithoutSavepoint)
  | None =>
      (set_dialect (markSavepointsSupported (dialect st)) st, WithSavepoint)
  end.

(** [DuckDBTransaction.transaction] on a transaction whose [nestedIndex]
    is [nestedIndex], when nothing else runs while it is suspended in its
    probe: the two halves one after the other, then the nested callback
    [transaction]. *)
Definition nested_transaction (nestedIndex : nat)
    (transaction : state -> state * option thrown) (st : state)
  : state * option thrown :=
  let savepoint := S nestedIndex in
  match enter_nested nestedIndex st with
  | (st0, Direct) => runNestedWithoutSavepoint transaction st0
  | (st0, Awaiting answer) =>
      match settle_probe answer st0 with
      | (st1, ProbeThrew error) => (st1, Some error)
      | (st1, WithoutSavepoint) =>
          runNestedWithoutSavepoint transaction st1
      | (st2, WithSavepoint) =>
          match transaction st2 with
          | (st3, None) =>
              match execute (ReleaseSavepoint savepoint) st3 with
              | (st4, None) => (st4, None)
              | (st4, Some error) =>
                  match execute (RollbackTo savepoint) st4 with
                  | (st5, Some error') => (st5, Some error')
                  | (st5, None) => (markRollbackOnly st5, Some error)
                  end
              end
          | (st3, Some error) =>
              match execute (RollbackTo savepoint) st3 with
              | (st4, Some error') => (st4, Some error')
              | (st4, None) => (markRollbackOnly st4, Some error)
              end
          end
      end
  end.

(** Nested transactions that share a dialect instance, several of them
    possibly in flight at once: started together on one transaction
    ([Promise.all]), or on transactions that run on different pooled
    connections.  [Enter i n] is the call of attempt [i], on a
    transaction whose [nestedIndex] is [n]; [Settle i] is the moment the
    [SAVEPOINT] attempt [i] awaits settles; [Other s] is any other
    statement that reaches the engine meanwhile.  [SAVEPOINT] itself is
    sent by attempts only. *)
Inductive probe_event :=
| Enter (i n : nat)
| Settle (i : nat)
| Other (s : sql_stmt).

(** The shared state, and the attempts suspended in their probe with
    the answer each is waiting for. *)
Definition probing : Type := state * gmap nat (option thrown).

Definition probe_step (w : probing) (ev : probe_event) : probing :=
  match ev with
  | Enter i n =>
      match enter_nested n w.1 with
      | (st, Direct) => (st, w.2)
      | (st, Awaiting answer) => (st, <[i := answer]> w.2)
      end
  | Settle i =>
      match w.2 !! i with
      | Some answer => ((settle_probe answer w.1).1, delete i w.2)
      | None => w
      end
  | Other s =>
      match s with
      | Savepoint _ => w
      | _ => ((execute s w.1).1, w.2)
      end
  end.

Definition probe_run (w : probing) (evs : list probe_event) : probing :=
  foldl probe_step w evs.

(** No attempt is called while another is suspended in its probe. *)
Fixpoint probes_apart (w : probing) (evs : list probe_event) : Prop :=
  match evs with
  | [] => True
  | ev :: rest =>
      match ev with Enter _ _ => w.2 = ∅ | _ => True end
      /\ probes_apart (probe_step w ev) rest
  end.

(** Two session states that agree on what the engine was sent and on
    the flag of the dialect. *)
Definition same_history (st st' : state) : Prop :=
  sent st = sent st' /\ dialect st = dialect st'.

(** [evs] is a history of attempts that do not overlap, it leaves no
    attempt suspended, and from [st] it sends what was sent in [st'] and
    leaves the flag as it is in [st']. *)
Definition history_of (st : state) (evs : list probe_event) (st' : state)
  : Prop :=
  probes_apart (st, ∅) evs
  /\ (probe_run (st, ∅) evs).2 = ∅
  /\ same_history (probe_run (st, ∅) evs).1 st'.

(** A computation on the session is such a history. *)
Definition apart_history {R : Type} (f : state -> state * R) : Prop :=
  forall st, exists evs, history_of st evs (f st).1.

(** What a transaction callback does with its [tx] handle. *)
#[local] Unset Elimination Schemes.
Inductive action :=
| AExec (text : string)         (* await tx.execute(sql) *)
| AThrow (e : thrown)           (* throw e *)
| ARollback                     (* tx.rollback() *)
| ANested (body : list action)  (* await tx.transaction(async tx => body) *)
| ATry (body : list action).    (* try { body } catch { } *)
#[local] Set Elimination Schemes.

(** Run one step of a callback whose handle has [nestedIndex]. *)
Fixpoint run_action (nestedIndex : nat) (a : action) (st : state)
  : state * option thrown :=
  let run_body := fix run_body (n : nat) (body : list action) (st : state)
      : state * option thrown :=
      match body with
      | [] => (st, None)
      | a :: rest =>
          match run_action n a st with
          | (st1, Some e) => (st1, Some e)
          | (st1, None) => run_body n rest st1
          end
      end in
  match a with
  | AExec text => execute (Query text) st
  | AThrow e => (st, Some e)
  | ARollback => (st, Some TransactionRollbackError)
  | ANested body =>
      nested_transaction nestedIndex (run_body (S nestedIndex) body) st
  | ATry body =>
      match run_body nestedIndex body st with
      | (st1, _) => (st1, None)
      end
  end.

(** Run a callback body. *)
Fixpoint run_actions (nestedIndex : nat) (body : list action) (st : state)
  : state * option thrown :=
  match body with
  | [] => (st, None)
  | a :: rest =>
      match run_action nestedIndex a st with
      | (st1, Some e) => (st1, Some e)
      | (st1, None) => run_actions nestedIndex rest st1
      end
  end.

(** [tx.setTransaction(config)] *)
Definition setTransaction (config : PgTransactionConfig) (st : state)
  : state * option thrown :=
  match getTransactionConfigSQL config with
  | inl e => (st, Some e)
  | inr text => execute (SetTransaction text) st
  end.

(** The session's client: a connection, or a pool with the outcome of the
    [acquire()] that pins a connection and of the [release()] in the
    [finally]; [None] when the call returns. *)
Inductive client :=
| Connection
| PoolClient (acquire_error release_error : option thrown).

Definition acquire_error_of (c : client) : option thrown :=
  match c with PoolClient e _ => e | Connection => None end.

Definition release_error_of (c : client) : option thrown :=
  match c with PoolClient _ e => e | Connection => None end.

(** The [finally] of [DuckDBSession.transaction]: when
    [pool.release(pinnedConnection)] throws, its error replaces whatever
    the [try] block was about to return or throw. *)
Definition finally_release {T : Type} (c : client) (outcome : thrown + T)
  : thrown + T :=
  match release_error_of c with
  | Some e => inl e
  | None => outcome
  end.

(** What the session does with the pool around a transaction. *)
Inductive pool_call := PoolAcquire | PoolRelease.

(** The [try] block of [DuckDBSession.transaction], run on the new
    session: [BEGIN], the optional [set transaction], the callback, then
    [commit] or [rollback]. *)
Definition transaction_try {T : Type} (body : list action) (result : T)
    (config : option PgTransactionConfig) (st0 : state)
  : state * (thrown + T) :=
  match execute Begin st0 with
  | (st1, Some e) => (st1, inl e)
  | (st1, None) =>
      match
        match config with
        | Some cfg => setTransaction cfg st1
        | None => (st1, None)
        end
      with
      | (st2, Some e) => (st2, inl e)
      | (st2, None) =>
          let catch (st : state) (error : thrown) :=
            match execute Rollback st with
            | (st', Some e') => (st', inl e')
            | (st', None) => (st', inl error)
            end in
          match run_actions 0 body st2 with
          | (st3, Some error) => catch st3 error
          | (st3, None) =>
              if rollbackOnly st3 then
                match execute Rollback st3 with
                | (st4, Some e) => catch st4 e
                | (st4, None) => catch st4 TransactionRollbackError
                end
              else
                match execute Commit st3 with
                | (st4, Some e) => catch st4 e
                | (st4, None) => (st4, inr result)
                end
          end
      end
  end.

(** [DuckDBSession.transaction].  [st] carries what the engine has seen and
    the shared dialect; the transaction runs on a new session, whose
    [rollbackOnly] starts [false].  The callback returns [result] when it
    completes.  For a pool, a connection is pinned first and released in
    the [finally]. *)
Definition transaction {T : Type} (c : client) (body : list action)
    (result : T) (config : option PgTransactionConfig) (st : state)
  : state * list pool_call * (thrown + T) :=
  match c with
  | PoolClient (Some e) _ => (st, [PoolAcquire], inl e)
  | _ =>
      let r := transaction_try body result config
                 (MkState (sent st) false (dialect st)) in
      (MkState (sent r.1) (rollbackOnly st) (dialect r.1),
       match c with
       | PoolClient _ _ => [PoolAcquire; PoolRelease]
       | Connection => []
       end,
       finally_release c r.2)
  end.

(** [DuckDBDatabase.transaction] ([src/driver.ts]): the override takes
    the callback only and calls [session.transaction(transaction)], so a
    configuration given as second argument never reaches the session. *)
Definition database_transaction {T : Type} (c : client) (body : list action)
    (result : T) (config : option PgTransactionConfig) (st : state)
  : state * list pool_call * (thrown + T) :=
  transaction c body result None st.

End WithEngine.

(** An engine that answers like the one the driver targets: [SAVEPOINT]
    and its companions are a syntax error, and [COMMIT] or [ROLLBACK]
    outside a transaction is refused. *)
Fixpoint in_transaction (active : bool) (history : list sql_stmt) : bool :=
  match history with
  | [] => active
  | Begin :: rest => in_transaction true rest
  | Commit :: rest | Rollback :: rest => in_transaction false rest
  | _ :: rest => in_transaction active rest
  end.

Definition strict_engine : engine := fun history s =>
  match s with
  | Savepoint _ | ReleaseSavepoint _ | RollbackTo _ =>
      Some (JsError "Parser Error: syntax error at or near SAVEPOINT")
  | Commit =>
      if in_transaction false history then None
      else Some (JsError
        "TransactionContext Error: cannot commit - no transaction is active")
  | Rollback =>
      if in_transaction false history then None
      else Some (JsError
        "TransactionContext Error: cannot rollback - no transaction is active")
  | Begin =>
      if in_transaction false history
      then Some (JsError
        "TransactionContext Error: cannot start a transaction within a transaction")
      else None
  | _ => None
  end.

(** An engine that accepts everything. *)
Definition lenient_engine : engine := fun _ _ => None.

(** An engine whose first [SAVEPOINT] fails for a reason that is not a
    syntax error, and whose later ones are syntax errors. *)
Definition is_savepoint (s : sql_stmt) : bool :=
  match s with Savepoint _ => true | _ => false end.

Definition flaky_engine : engine := fun history s =>
  match s with
  | Savepoint _ =>
      if existsb is_savepoint history
      then Some (JsError "Parser Error: syntax error at or near SAVEPOINT")
      else Some (JsError "IO Error: connection lost")
  | _ => None
  end.

(** An engine that accepts its first [SAVEPOINT] and answers every later
    one with a syntax error. *)
Definition fickle_engine : engine := fun history s =>
  match s with
  | Savepoint _ =>
      if existsb is_savepoint history
      then Some (JsError "Parser Error: syntax error at or near SAVEPOINT")
      else None
  | _ => None
  end.

(** *** Vocabulary of the statements about transactions *)

(** A configuration the guards of [getTransactionConfigSQL] refuse: a
    non-empty isolation level or access mode outside its allow-list, or a
    [deferrable] that is not a boolean. *)
Definition invalid_config (config : PgTransactionConfig) : Prop :=
  (exists level, isolationLevel config = Some level /\ level <> ""
                 /\ level ∉ VALID_TRANSACTION_ISOLATION_LEVELS)
  \/ (exists mode, accessMode config = Some mode /\ mode <> ""
                   /\ mode ∉ VALID_TRANSACTION_ACCESS_MODES)
  \/ (exists r, deferrable config = Some (VOther r)).

(** One of the three messages of [getTransactionConfigSQL]. *)
Definition is_config_error (e : thrown) : Prop :=
  exists x, e = JsError (invalid_isolation_message x)
            \/ e = JsError (invalid_access_message x)
            \/ e = JsError (invalid_deferrable_message x).

(** A statement that carries text of the caller: the configuration or a
    statement of the callback. *)
Definition carries_text (s : sql_stmt) : bool :=
  match s with SetTransaction _ | Query _ => true | _ => false end.

(** A statement of the savepoint protocol. *)
Definition is_savepoint_protocol (s : sql_stmt) : bool :=
  match s with
  | Savepoint _ | ReleaseSavepoint _ | RollbackTo _ => true
  | _ => false
  end.

(** A probe that failed: a [SAVEPOINT] answered with the signature
    [isSavepointSyntaxError] recognises. *)
Definition is_failed_probe (x : sql_stmt * option thrown) : bool :=
  match x with
  | (Savepoint _, Some e) => isSavepointSyntaxError e
  | _ => false
  end.

Definition failed_probes (l : list (sql_stmt * option thrown)) : nat :=
  length (filter (fun x => is_failed_probe x = true) l).

(** [st1] extends [st] when it only adds to what was sent, at most one
    of the added statements is a failed probe and then the flag is left
    [unsupported], and, if the flag was [unsupported] in [st], it still is
    and nothing of the savepoint protocol was added. *)
Definition extends (st st1 : state) : Prop :=
  exists new,
    sent st1 = (sent st ++ new)%list
    /\ (failed_probes new <= 1)%nat
    /\ (failed_probes new = 1%nat -> dialect st1 = SpUnsupported)
    /\ (dialect st = SpUnsupported ->
        dialect st1 = SpUnsupported
        /\ Forall (fun x => is_savepoint_protocol x.1 = false) new).

(** A computation on the session state is tame when its final state
    extends the one it started in. *)
Definition tame {R : Type} (f : state -> state * R) : Prop :=
  forall st, extends st (f st).1.

(** What ties the flag to the history of a dialect instance: at most one
    probe has failed, and if one has the flag is [unsupported]. *)
Definition probe_inv (st : state) : Prop :=
  (failed_probes (sent st) <= 1)%nat
  /\ (failed_probes (sent st) = 1%nat -> dialect st = SpUnsupported).

(** What a failed probe did to the count: one more when the answer has
    the savepoint-syntax signature. *)
Definition answer_fails (answer : option thrown) : nat :=
  match answer with
  | Some e => if isSavepointSyntaxError e then 1 else 0
  | None => 0
  end.

(** What holds of attempts that do not overlap: either nothing is in
    flight and the flag is tied to the history, or one attempt is, which
    found the flag not [unsupported], and its [SAVEPOINT] is the only one
    that can have failed. *)
Definition apart_inv (w : probing) : Prop :=
  (w.2 = ∅ /\ probe_inv w.1)
  \/ (exists i answer,
        w.2 = {[i := answer]}
        /\ dialect w.1 <> SpUnsupported
        /\ failed_probes (sent w.1) = answer_fails answer).

(** A configuration whose isolation level carries a second statement. *)
Definition injected_config : PgTransactionConfig :=
  {| isolationLevel := Some "serializable; drop table users";
     accessMode := None;
     deferrable := None |}.

End Tx.

(** ** Pool presets and pool-wide observations ([src/pool.ts]) *)

Module PoolConfig.

(** [PoolPreset] *)
Inductive PoolPreset :=
| pulse | standard | jumbo | mega | giga | local | memory.

(** [POOL_PRESETS] *)
Definition POOL_PRESETS (p : PoolPreset) : Z :=
  match p with
  | pulse => 4
  | standard => 6
  | jumbo => 8
  | mega => 12
  | giga => 16
  | local => 8
  | memory => 4
  end.

(** The argument of [resolvePoolSize]:
    [DuckDBPoolConfig | PoolPreset | false | undefined]. *)
Inductive pool_setting :=
| PoolDisabled                        (* false *)
| PoolUnset                           (* undefined *)
| PoolPresetNamed (p : PoolPreset)    (* a preset name *)
| PoolSized (size : option Z).        (* { size?: number } *)

(** [resolvePoolSize]; [None] is the result [false]. *)
Definition resolvePoolSize (pool : pool_setting) : option Z :=
  match pool with
  | PoolDisabled => None
  | PoolUnset => Some 4
  | PoolPresetNamed p => Some (POOL_PRESETS p)
  | PoolSized size => Some (default 4 size)
  end.

(** The options [createFromConnectionString] builds the pool with:
    [{ size: poolSize, setup }]. *)
Definition options_of_size (poolSize : Z) (setup : bool) : Pool.options :=
  Pool.Options (Some poolSize) None None None None setup.

(** Who was given which connection, in the order it happened. *)
Definition resolutions (effs : list Pool.effect) : list (nat * Pool.conn) :=
  omap (fun e => match e with
                 | Pool.Resolved client c => Some (client, c)
                 | _ => None
                 end) effs.

(** Callers whose [acquire()] promise was rejected because the pool is
    closed, in the order of the rejections. *)
Definition rejected_closed (effs : list Pool.effect) : list nat :=
  omap (fun e => match e with
                 | Pool.Rejected cl Pool.ErrClosed => Some cl
                 | _ => None
                 end) effs.

(** The connections handed to [closeClientConnection], in call order. *)
Definition destroy_attempts (effs : list Pool.effect) : list Pool.conn :=
  omap (fun e => match e with
                 | Pool.Destroyed c | Pool.DestroyFailed c _ => Some c
                 | _ => None
                 end) effs.

(** One [release] per connection of [cs], in order, at time [now]. *)
Definition releases (cs : list Pool.conn) (tid : nat) (now : Z)
  : list Pool.event :=
  map (fun c => Pool.EvRelease c tid now) cs.

(** [maxLifetimeMs] has not run out at [now] for the connection [c], by
    the side table [md]; a connection the table does not know counts as
    created at [now], as in [release]. *)
Definition unexpired (o : Pool.options) (md : gmap Pool.conn Pool.meta)
    (now : Z) (c : Pool.conn) : Prop :=
  Pool.lifetime_expired o
    (Pool.createdAt (default (Pool.Meta now now) (md !! c))) now = false.

Definition sample_options : Pool.options :=
  Pool.Options (Some 2) None None (Some 1000) (Some 100) false.

Definition sample_queue : Pool.pool :=
  Pool.MkPool [] [Pool.Waiter 7 70; Pool.Waiter 8 80; Pool.Waiter 9 90] 2
    false 0 (<[0%nat := Pool.Meta 0 0]> (<[1%nat := Pool.Meta 5 5]> ∅)) [].

(** No caller is queued while an idle connection is there to be taken. *)
Definition no_wait_while_idle (st : Pool.pool) : Prop :=
  Pool.waiting st <> [] -> Pool.idle st = [].

(** [pendingAcquires] counts the creations in flight. *)
Definition pending_counted (st : Pool.pool) : Prop :=
  Pool.pendingAcquires st = Z.of_nat (length (Pool.creating st)).

End PoolConfig.

(** ** Parameters, result columns and the statement cache ([src/client.ts]) *)

Module Client.

(** *** Strings as the code uses them *)

(** [s.startsWith(searchString)] and [s.endsWith(searchString)] *)
Definition startsWith (searchString s : string) : bool :=
  String.prefix searchString s.

Definition endsWith (searchString s : string) : bool :=
  String.prefix (String.rev searchString) (String.rev s).

(** The white space and line terminators [String.prototype.trim] strips,
    among the code units below 256 that a string of the model is made
    of: TAB, LF, VT, FF, CR, SP and the no-break space U+00A0.  (The
    others, U+1680, U+2000 to U+200A, U+2028, U+2029, U+202F, U+205F,
    U+3000 and U+FEFF, lie above 255.) *)
Definition is_white_space (c : ascii) : bool :=
  let n := nat_of_ascii c in
  ((9 <=? n) && (n <=? 13) || (n =? 32) || (n =? 160))%nat.

Fixpoint trimStart (s : string) : string :=
  match s with
  | EmptyString => EmptyString
  | String c s' => if is_white_space c then trimStart s' else s
  end.

Fixpoint trimEnd (s : string) : string :=
  match s with
  | EmptyString => EmptyString
  | String c s' =>
      match trimEnd s' with
      | EmptyString => if is_white_space c then EmptyString
                       else String c EmptyString
      | t => String c t
      end
  end.

(** [s.trim()] *)
Definition trim (s : string) : string := trimEnd (trimStart s).

(** [s.replace(/from/g, to)] for one-character patterns. *)
Fixpoint replace_char (from to : ascii) (s : string) : string :=
  match s with
  | EmptyString => EmptyString
  | String c s' =>
      String (if Ascii.eqb c from then to else c) (replace_char from to s')
  end.

(** *** Result columns *)

(** How often [c] occurs in [l]. *)
Definition occurrences (c : string) (l : list string) : nat :=
  length (filter (fun x => x = c) l).

(** The name [deduplicateColumns] gives a column that has [k] namesakes to
    its left. *)
Definition numbered (c : string) (k : nat) : string :=
  match k with
  | O => c
  | S _ => (c +:+ "_" +:+ pretty k)%string
  end.

(** The index of the last occurrence of [col] in [columns], counted from
    [k]. *)
Fixpoint last_index_from (k : nat) (col : string) (columns : list string)
  : option nat :=
  match columns with
  | [] => None
  | c :: rest =>
      match last_index_from (S k) col rest with
      | Some i => Some i
      | None => if decide (c = col) then Some k else None
      end
  end.

(** *** [prepareParams] *)

Section Params.

(** A JavaScript value that is not a string. *)
Variable value : Type.

(** [JSON.parse]; [None] when it throws. *)
Variable JSON_parse : string -> option value.

Inductive param :=
| PString (s : string)
| PValue (v : value).

(** [PrepareParamsOptions]; the callback is known by its presence. *)
Record PrepareParamsOptions := {
  rejectStringArrayLiterals : bool;
  has_warnOnStringArrayLiteral : bool
}.

(** [isPgArrayLiteral] *)
Definition isPgArrayLiteral (value : string) : bool :=
  startsWith "{" value && endsWith "}" value.

(** [parsePgArrayLiteral] *)
Definition parsePgArrayLiteral (value : string) : param :=
  let json := replace_char "}" "]" (replace_char "{" "[" value) in
  match JSON_parse json with
  | Some v => PValue v
  | None => PString value
  end.

(** The callback of [params.map]: how often it called
    [options.warnOnStringArrayLiteral], and the element it returns, [None]
    when it throws. *)
Definition prepare_param (options : PrepareParamsOptions) (p : param)
  : nat * option param :=
  match p with
  | PString (String firstChar _ as s) =>
      let opens := (Ascii.eqb firstChar "{" || Ascii.eqb firstChar "[")%char in
      let maybeArrayLiteral :=
        (opens || Ascii.eqb firstChar " " || Ascii.eqb firstChar "009")%char in
      if maybeArrayLiteral then
        let trimmed := if opens then s else trim s in
        if negb (String.eqb trimmed "") && isPgArrayLiteral trimmed then
          if rejectStringArrayLiterals options then (O, None)
          else
            ((if has_warnOnStringArrayLiteral options then 1 else 0)%nat,
             Some (parsePgArrayLiteral trimmed))
        else (O, Some p)
      else (O, Some p)
  | _ => (O, Some p)
  end.

(** [prepareParams]: [map] runs left to right and a throw ends it. *)
Fixpoint prepareParams (params : list param) (options : PrepareParamsOptions)
  : nat * option (list param) :=
  match params with
  | [] => (O, Some [])
  | p :: rest =>
      match prepare_param options p with
      | (w, None) => (w, None)
      | (w, Some p') =>
          let '(w', r) := prepareParams rest options in
          ((w + w')%nat, option_map (cons p') r)
      end
  end.

(** The session's [hasWarnedArrayLiteral] and what it sent to the logger:
    the queries it warned about. *)
Record warn_state := {
  hasWarnedArrayLiteral : bool;
  logged : list string
}.

(** [DuckDBSession.warnOnStringArrayLiteral] *)
Definition warnOnStringArrayLiteral (query : string) (s : warn_state)
  : warn_state :=
  if hasWarnedArrayLiteral s then s
  else {| hasWarnedArrayLiteral := true; logged := logged s ++ [query] |}.

(** The call of [prepareParams] the session makes for a query: the
    callback is passed unless string literals are rejected. *)
Definition session_prepareParams (reject : bool) (query : string)
    (params : list param) (s : warn_state)
  : warn_state * option (list param) :=
  let '(calls, r) :=
    prepareParams params
      {| rejectStringArrayLiterals := reject;
         has_warnOnStringArrayLiteral := negb reject |} in
  (Nat.iter calls (warnOnStringArrayLiteral query) s, r).

(** A session prepares the parameters of one query after the other. *)
Fixpoint session_queries (reject : bool)
    (queries : list (string * list param)) (s : warn_state) : warn_state :=
  match queries with
  | [] => s
  | (query, params) :: rest =>
      session_queries reject rest
        (session_prepareParams reject query params s).1
  end.

End Params.

Arguments PString {value} s.
Arguments PValue {value} v.
Arguments parsePgArrayLiteral {value} JSON_parse _.
Arguments prepare_param {value} JSON_parse _ _.
Arguments prepareParams {value} JSON_parse _ _.
Arguments session_prepareParams {value} JSON_parse _ _ _ _.
Arguments session_queries {value} JSON_parse _ _ _.

(** *** The prepared-statement cache *)

(** A [DuckDBPreparedStatement], known by the order of its creation. *)
Definition statement := nat.

(** [Map<string, PreparedCacheEntry>] is the list of its entries in
    insertion order. *)
Fixpoint map_get (key : string) (m : list (string * statement))
  : option statement :=
  match m with
  | [] => None
  | (k, v) :: rest => if decide (k = key) then Some v else map_get key rest
  end.

Definition map_delete (key : string) (m : list (string * statement))
  : list (string * statement) :=
  filter (fun e => e.1 <> key) m.

(** [Map.prototype.set]: a key already present keeps its place. *)
Fixpoint map_set (key : string) (v : statement)
    (m : list (string * statement)) : list (string * statement) :=
  match m with
  | [] => [(key, v)]
  | (k, v') :: rest =>
      if decide (k = key) then (key, v) :: rest
      else (k, v') :: map_set key v rest
  end.

(** [PreparedStatementCache] *)
Record PreparedStatementCache := {
  cache_size : Z;
  entries : list (string * statement)
}.

(** A connection: the cache stored under [PREPARED_CACHE], if any, and the
    number of statements it has prepared so far. *)
Record connection := {
  store : option PreparedStatementCache;
  prepared : nat
}.

(** Whether each closing method exists and, if so, whether it throws. *)
Record closers := {
  cl_close : option (option nat);
  cl_closeSync : option (option nat);
  cl_disconnectSync : option (option nat)
}.

(** The calls made on the connection and its statements. *)
Inductive call :=
| Prepare (query : string) (s : option statement)
    (* connection.prepare(query); None when it throws *)
| DestroySync (s : statement)      (* statement.destroySync() *)
| Run (s : statement) (ok : bool)  (* bind and statement.run() *)
| Close                            (* connection.close() *)
| CloseSync                        (* connection.closeSync() *)
| DisconnectSync.                  (* connection.disconnectSync() *)

(** [destroyPreparedStatement]: whatever [destroySync] throws is ignored. *)
Definition destroyPreparedStatement (entry : option statement) : list call :=
  match entry with
  | Some s => [DestroySync s]
  | None => []
  end.

(** [getPreparedCache]: the cache, which is also what the connection
    stores from then on. *)
Definition getPreparedCache (c : connection) (size : Z)
  : PreparedStatementCache :=
  match store c with
  | Some existing => {| cache_size := size; entries := entries existing |}
  | None => {| cache_size := size; entries := [] |}
  end.

(** [evictOldest] *)
Definition evictOldest (cache : PreparedStatementCache)
  : PreparedStatementCache * list call :=
  match entries cache with
  | [] => (cache, [])
  | (key, _) :: _ =>
      let entry := map_get key (entries cache) in
      ({| cache_size := cache_size cache;
          entries := map_delete key (entries cache) |},
       destroyPreparedStatement entry)
  end.

(** [evictCacheEntry] *)
Definition evictCacheEntry (cache : PreparedStatementCache) (key : string)
  : PreparedStatementCache * list call :=
  let entry := map_get key (entries cache) in
  ({| cache_size := cache_size cache;
      entries := map_delete key (entries cache) |},
   destroyPreparedStatement entry).

(** [while (cache.entries.size > cache.size) evictOldest(cache)], for at
    most [fuel] rounds; [None] when the rounds do not suffice. *)
Fixpoint evict_while (fuel : nat) (cache : PreparedStatementCache)
  : option (PreparedStatementCache * list call) :=
  if cache_size cache <? Z.of_nat (length (entries cache)) then
    match fuel with
    | O => None
    | S fuel' =>
        let '(cache1, calls1) := evictOldest cache in
        match evict_while fuel' cache1 with
        | Some (cache2, calls2) => Some (cache2, calls1 ++ calls2)
        | None => None
        end
    end
  else Some (cache, []).

(** [getOrPrepareStatement].  [prepare_ok] says whether
    [connection.prepare] returns.  The result is [None] when the eviction
    loop does not end: every round on a map that is not empty removes an
    entry, so the loop is given as many rounds as the map has entries;
    only the empty map with a negative [size] asks for more. *)
Definition getOrPrepareStatement (c : connection) (query : string)
    (size : Z) (prepare_ok : bool)
  : option (connection * list call * option statement) :=
  let cache := getPreparedCache c size in
  match map_get query (entries cache) with
  | Some cached =>
      Some ({| store :=
                 Some {| cache_size := size;
                         entries := map_set query cached
                                      (map_delete query (entries cache)) |};
               prepared := prepared c |},
            [], Some cached)
  | None =>
      if prepare_ok then
        let s := prepared c in
        let cache1 := {| cache_size := size;
                         entries := map_set query s (entries cache) |} in
        match evict_while (length (entries cache1)) cache1 with
        | Some (cache2, calls) =>
            Some ({| store := Some cache2; prepared := S (prepared c) |},
                  Prepare query (Some s) :: calls, Some s)
        | None => None
        end
      else
        Some ({| store := Some cache; prepared := prepared c |},
              [Prepare query None], None)
  end.

(** How the statement fares once it has been obtained. *)
Inductive run_outcome :=
| RunThrows    (* bind or statement.run() throws *)
| RowsThrow    (* run returns, reading the rows throws *)
| RunOk.

(** The branch of [materializeRows] that uses the cache, on a connection.
    The boolean says whether the promise is fulfilled. *)
Definition materializeRows (c : connection) (query : string) (size : Z)
    (prepare_ok : bool) (out : run_outcome)
  : option (connection * list call * bool) :=
  match getOrPrepareStatement c query size prepare_ok with
  | None => None
  | Some (c1, calls1, None) =>
      let cache := getPreparedCache c1 size in
      let '(cache', calls2) := evictCacheEntry cache query in
      Some ({| store := Some cache'; prepared := prepared c1 |},
            calls1 ++ calls2, false)
  | Some (c1, calls1, Some s) =>
      let cache := getPreparedCache c1 size in
      match out with
      | RunThrows =>
          let '(cache', calls2) := evictCacheEntry cache query in
          Some ({| store := Some cache'; prepared := prepared c1 |},
                calls1 ++ [Run s false] ++ calls2, false)
      | RowsThrow =>
          let cache1 := {| cache_size := size;
                           entries := map_set query s
                                        (map_delete query (entries cache)) |} in
          let '(cache', calls2) := evictCacheEntry cache1 query in
          Some ({| store := Some cache'; prepared := prepared c1 |},
                calls1 ++ [Run s true] ++ calls2, false)
      | RunOk =>
          Some ({| store :=
                     Some {| cache_size := size;
                             entries := map_set query s
                                          (map_delete query (entries cache)) |};
                   prepared := prepared c1 |},
                calls1 ++ [Run s true], true)
      end
  end.

(** One use of the connection by [materializeRows]. *)
Record request := {
  rq_query : string;
  rq_prepare_ok : bool;
  rq_outcome : run_outcome
}.

(** A connection serves requests one after the other, all with the
    configured cache size. *)
Fixpoint serve (size : Z) (rqs : list request) (c : connection)
  : option (connection * list call) :=
  match rqs with
  | [] => Some (c, [])
  | rq :: rest =>
      match materializeRows c (rq_query rq) size (rq_prepare_ok rq)
              (rq_outcome rq) with
      | None => None
      | Some (c1, calls1, _) =>
          match serve size rest c1 with
          | None => None
          | Some (c2, calls2) => Some (c2, calls1 ++ calls2)
          end
      end
  end.

(** [clearPreparedCache] *)
Definition clearPreparedCache (c : connection) : connection * list call :=
  match store c with
  | None => (c, [])
  | Some cache =>
      ({| store := Some {| cache_size := cache_size cache; entries := [] |};
          prepared := prepared c |},
       flat_map (fun e => destroyPreparedStatement (Some e.2))
                (entries cache))
  end.

(** [closeClientConnection]: the error it throws, if any. *)
Definition closeClientConnection (how : closers) (c : connection)
  : connection * list call * option nat :=
  let '(c1, calls) := clearPreparedCache c in
  match cl_close how with
  | Some r => (c1, calls ++ [Close], r)
  | None =>
      match cl_closeSync how with
      | Some r => (c1, calls ++ [CloseSync], r)
      | None =>
          match cl_disconnectSync how with
          | Some r => (c1, calls ++ [DisconnectSync], r)
          | None => (c1, calls, None)
          end
      end
  end.

(** A connection as [DuckDBInstance.connect] returns it. *)
Definition new_connection : connection :=
  {| store := None; prepared := 0 |}.

(** The statements a connection's cache holds. *)
Definition cached (c : connection) : list statement :=
  match store c with
  | Some cache => (entries cache).*2
  | None => []
  end.

Definition cached_queries (c : connection) : list string :=
  match store c with
  | Some cache => (entries cache).*1
  | None => []
  end.

(** The statements destroyed, and the statements prepared, by a list of
    calls. *)
Definition destroyed (calls : list call) : list statement :=
  omap (fun x => match x with DestroySync s => Some s | _ => None end) calls.

Definition prepared_by (calls : list call) : list statement :=
  omap (fun x => match x with Prepare _ (Some s) => Some s | _ => None end)
       calls.

Definition is_closing (x : call) : bool :=
  match x with
  | Close | CloseSync | DisconnectSync => true
  | _ => false
  end.

Definition closing_calls (calls : list call) : list call :=
  filter (fun x => is_closing x = true) calls.

(** Every statement that is run has not been destroyed before; [dead]
    holds the statements destroyed so far. *)
Fixpoint runs_live (dead : list statement) (calls : list call) : Prop :=
  match calls with
  | [] => True
  | DestroySync s :: rest => runs_live (s :: dead) rest
  | Run s _ :: rest => (s ∉ dead) /\ runs_live dead rest
  | _ :: rest => runs_live dead rest
  end.

(** The cache of [c] is a map (no query twice) of at most [size]
    entries. *)
Definition cache_ok (size : Z) (c : connection) : Prop :=
  NoDup (cached_queries c) /\ Z.of_nat (length (cached c)) <= size.

(** What holds of a connection [c] and the calls [calls] made on it so
    far: the statements prepared are numbered in order, and each of them
    is in the cache or has been destroyed, never both and never twice. *)
Definition accounted (c : connection) (calls : list call) : Prop :=
  prepared_by calls = seq 0 (prepared c)
  /\ (cached c ++ destroyed calls) ≡ₚ seq 0 (prepared c).

(** The closing method [closeClientConnection] picks. *)
Definition closing_method (how : closers) : list call :=
  match cl_close how, cl_closeSync how, cl_disconnectSync how with
  | Some _, _, _ => [Close]
  | None, Some _, _ => [CloseSync]
  | None, None, Some _ => [DisconnectSync]
  | None, None, None => []
  end.

Definition sample_requests : list request :=
  [{| rq_query := "select 1"; rq_prepare_ok := true; rq_outcome := RunOk |};
   {| rq_query := "select 2"; rq_prepare_ok := true; rq_outcome := RunOk |};
   {| rq_query := "select 1"; rq_prepare_ok := true; rq_outcome := RunOk |};
   {| rq_query := "select 3"; rq_prepare_ok := true;
      rq_outcome := RunThrows |};
   {| rq_query := "select 4"; rq_prepare_ok := true; rq_outcome := RunOk |}].

Definition sample_cache : connection :=
  {| store := Some {| cache_size := 2;
                      entries := [("select 1"%string, 0%nat);
                                  ("select 2"%string, 1%nat)] |};
     prepared := 2 |}.

End Client.

(** ** DuckLake attachment and pool sizing (the ducklake module, [src/driver.ts]) *)

Module DuckLake.

Local Open Scope string_scope.

(** *** Quoting *)

(** [s.replace(/c/g, by)] for a one-character pattern. *)
Fixpoint replace_with (c : ascii) (by_ : string) (s : string) : string :=
  match s with
  | EmptyString => EmptyString
  | String x s' =>
      (if Ascii.eqb x c then by_ else String x EmptyString)
      +:+ replace_with c by_ s'
  end.

Definition escapeSqlString (value : string) : string :=
  replace_with "'" "''" value.

Definition quoteString (value : string) : string :=
  "'" +:+ escapeSqlString value +:+ "'".

Definition quoteIdentifier (value : string) : string :=
  Tx.dquote +:+ replace_with (ascii_of_nat 34) (Tx.dquote +:+ Tx.dquote) value
  +:+ Tx.dquote.

(** How SQL reads a quoted token: after the opening quote [q], a doubled
    [q] stands for one [q] and a single [q] ends the token.  The result
    is the text read and what follows the token; [None] when the token is
    not closed. *)
Fixpoint read_body (q : ascii) (s : string) : option (string * string) :=
  match s with
  | EmptyString => None
  | String c s' =>
      if Ascii.eqb c q then
        match s' with
        | String c' s'' =>
            if Ascii.eqb c' q then
              match read_body q s'' with
              | Some (text, rest) => Some (String q text, rest)
              | None => None
              end
            else Some (EmptyString, s')
        | EmptyString => Some (EmptyString, EmptyString)
        end
      else
        match read_body q s' with
        | Some (text, rest) => Some (String c text, rest)
        | None => None
        end
  end.

Definition read_quoted (q : ascii) (s : string) : option (string * string) :=
  match s with
  | String c s' => if Ascii.eqb c q then read_body q s' else None
  | EmptyString => None
  end.

(** *** Configuration *)

(** A JavaScript number as far as [optionValueToSql] looks at it: finite,
    with its [String(...)] rendering, or not. *)
Inductive number :=
| Finite (rendering : string)
| NotFinite.

Record DuckLakeAttachOptions := {
  createIfNotExists : option bool;
  dataInliningRowLimit : option number;
  dataPath : option string;
  encrypted : option bool;
  metaParameterName : option string;
  metadataCatalog : option string;
  overrideDataPath : option bool;
  readOnly : option bool
}.

Record DuckLakeConfig := {
  catalog : string;
  alias : option string;
  use : option bool;
  install : option bool;
  load : option bool;
  attachOptions : option DuckLakeAttachOptions
}.

Record NormalizedDuckLakeConfig := {
  n_catalog : string;
  n_alias : string;
  n_use : bool;
  n_install : bool;
  n_load : bool;
  n_attachOptions : option DuckLakeAttachOptions
}.

(** A normalized configuration passed where a [DuckLakeConfig] is
    expected. *)
Definition as_config (n : NormalizedDuckLakeConfig) : DuckLakeConfig :=
  {| catalog := n_catalog n;
     alias := Some (n_alias n);
     use := Some (n_use n);
     install := Some (n_install n);
     load := Some (n_load n);
     attachOptions := n_attachOptions n |}.

Definition DEFAULT_ALIAS : string := "ducklake".

Definition isDuckLakeUri (catalog : string) : bool :=
  Client.startsWith "ducklake:" catalog.

(** [normalizeDuckLakeConfig] *)
Definition normalizeDuckLakeConfig (config : DuckLakeConfig)
  : Tx.thrown + NormalizedDuckLakeConfig :=
  if String.eqb (catalog config) "" then
    inl (Tx.JsError "DuckLake config requires a catalog")
  else
    inr {| n_catalog := if isDuckLakeUri (catalog config) then catalog config
                        else "ducklake:" +:+ catalog config;
           n_alias := match alias config with
                      | Some a => if String.eqb (Client.trim a) ""
                                  then DEFAULT_ALIAS else Client.trim a
                      | None => DEFAULT_ALIAS
                      end;
           n_use := default true (use config);
           n_install := default false (install config);
           n_load := default false (load config);
           n_attachOptions := attachOptions config |}.

(** The argument of [optionValueToSql]. *)
Inductive option_value :=
| OBool (b : bool)
| ONumber (n : number)
| OString (s : string).

Definition optionValueToSql (value : option_value) : string :=
  match value with
  | OBool b => if b then "true" else "false"
  | ONumber (Finite rendering) => rendering
  | ONumber NotFinite => "0"
  | OString s => quoteString s
  end.

(** One [if] of [buildDuckLakeAttachSql]: tested against [undefined]. *)
Definition defined_option {A : Type} (name : string) (wrap : A -> option_value)
    (v : option A) : list string :=
  match v with
  | Some x => [name +:+ "=" +:+ optionValueToSql (wrap x)]
  | None => []
  end.

(** One [if] of [buildDuckLakeAttachSql]: tested for truthiness. *)
Definition truthy_option (name : string) (v : option string) : list string :=
  match v with
  | Some "" | None => []
  | Some x => [name +:+ "=" +:+ optionValueToSql (OString x)]
  end.

Definition attach_options (o : DuckLakeAttachOptions) : list string :=
  (defined_option "CREATE_IF_NOT_EXISTS" OBool (createIfNotExists o)
   ++ defined_option "DATA_INLINING_ROW_LIMIT" ONumber (dataInliningRowLimit o)
   ++ truthy_option "DATA_PATH" (dataPath o)
   ++ defined_option "ENCRYPTED" OBool (encrypted o)
   ++ truthy_option "META_PARAMETER_NAME" (metaParameterName o)
   ++ truthy_option "METADATA_CATALOG" (metadataCatalog o)
   ++ defined_option "OVERRIDE_DATA_PATH" OBool (overrideDataPath o)
   ++ defined_option "READ_ONLY" OBool (readOnly o))%list.

(** [buildDuckLakeAttachSql] *)
Definition buildDuckLakeAttachSql (config : DuckLakeConfig)
  : Tx.thrown + string :=
  match normalizeDuckLakeConfig config with
  | inl e => inl e
  | inr normalized =>
      let options := match n_attachOptions normalized with
                     | Some o => attach_options o
                     | None => []
                     end in
      let attachSql :=
        ["ATTACH " +:+ quoteString (n_catalog normalized) +:+ " AS "
         +:+ quoteIdentifier (n_alias normalized)] in
      inr (Tx.join " "
             (attachSql
              ++ match options with
                 | [] => []
                 | _ => ["(" +:+ Tx.join ", " options +:+ ")"]
                 end)%list)
  end.

(** [connection.run]: given the statements the connection has run so far
    and the next one, whether it throws. *)
Definition runner := list string -> string -> option Tx.thrown.

(** Run the statements in order until one throws: what was run, with the
    answers, and the error thrown, if any. *)
Fixpoint run_all (run : runner) (history : list string) (sqls : list string)
  : list (string * option Tx.thrown) * option Tx.thrown :=
  match sqls with
  | [] => ([], None)
  | sql :: rest =>
      match run history sql with
      | Some e => ([(sql, Some e)], Some e)
      | None =>
          let '(ran, r) := run_all run (history ++ [sql])%list rest in
          ((sql, None) :: ran, r)
      end
  end.

(** [configureDuckLake] on a connection that has run [history]. *)
Definition configureDuckLake (run : runner) (history : list string)
    (config : DuckLakeConfig)
  : list (string * option Tx.thrown) * option Tx.thrown :=
  match normalizeDuckLakeConfig config with
  | inl e => ([], Some e)
  | inr normalized =>
      match
        run_all run history
          ((if n_install normalized then ["INSTALL ducklake"] else [])
           ++ (if n_load normalized then ["LOAD ducklake"] else []))%list
      with
      | (ran, Some e) => (ran, Some e)
      | (ran, None) =>
          match buildDuckLakeAttachSql (as_config normalized) with
          | inl e => (ran, Some e)
          | inr attachSql =>
              match
                run_all run (history ++ ran.*1)%list
                  (attachSql
                   :: (if n_use normalized
                       then ["USE " +:+ quoteIdentifier (n_alias normalized)]
                       else []))
              with
              | (ran', r) => ((ran ++ ran')%list, r)
              end
          end
      end
  end.

(** The statements a complete configuration consists of, in order; none
    when the configuration is refused. *)
Definition configuration_script (config : DuckLakeConfig) : list string :=
  match normalizeDuckLakeConfig config, buildDuckLakeAttachSql config with
  | inr n, inr attachSql =>
      ((if n_install n then ["INSTALL ducklake"] else [])
       ++ (if n_load n then ["LOAD ducklake"] else [])
       ++ [attachSql]
       ++ (if n_use n then ["USE " +:+ quoteIdentifier (n_alias n)] else []))%list
  | _, _ => []
  end.

(** Each statement run was answered by the connection as [run] says,
    given what the connection had run before. *)
Fixpoint answered_by (run : runner) (history : list string)
    (ran : list (string * option Tx.thrown)) : Prop :=
  match ran with
  | [] => True
  | (sql, r) :: rest =>
      r = run history sql /\ answered_by run (history ++ [sql])%list rest
  end.

(** *** The pool wrapper *)

(** What [wrapDuckLakePool]'s [acquire] does to the pool it wraps and to
    the connections. *)
Inductive wrapper_call :=
| InnerAcquire (r : Tx.thrown + nat)    (* pool.acquire() and its outcome *)
| Ran (c : nat) (sql : string) (r : option Tx.thrown)
                                        (* connection.run(sql) on c *)
| InnerRelease (c : nat).               (* pool.release(c) *)

(** The closure state of [wrapDuckLakePool]: [configuredConnections], and
    the statements each connection has run. *)
Record wrapper := {
  configuredConnections : gset nat;
  history : gmap nat (list string)
}.

Definition new_wrapper : wrapper :=
  {| configuredConnections := ∅; history := ∅ |}.

(** [wrapped.acquire()]; [inner] is the outcome of [pool.acquire()] and
    [run] the behaviour of the connection acquired. *)
Definition wrapped_acquire (config : DuckLakeConfig)
    (inner : Tx.thrown + nat) (run : runner) (w : wrapper)
  : wrapper * list wrapper_call * (Tx.thrown + nat) :=
  match inner with
  | inl e => (w, [InnerAcquire inner], inl e)
  | inr connection =>
      if bool_decide (connection ∈ configuredConnections w) then
        (w, [InnerAcquire inner], inr connection)
      else
        let past := default [] (history w !! connection) in
        let '(ran, r) := configureDuckLake run past config in
        let h := <[connection := (past ++ ran.*1)%list]> (history w) in
        let calls :=
          (InnerAcquire inner
           :: map (fun x => Ran connection x.1 x.2) ran)%list in
        match r with
        | Some e =>
            ({| configuredConnections := configuredConnections w;
                history := h |}, calls, inl e)
        | None =>
            ({| configuredConnections :=
                  {[connection]} ∪ configuredConnections w;
                history := h |}, calls, inr connection)
        end
  end.

(** [wrapped.release(connection)] *)
Definition wrapped_release (connection : nat) (w : wrapper)
  : wrapper * list wrapper_call :=
  (w, [InnerRelease connection]).

(** What callers do with the wrapped pool. *)
Inductive wrapper_op :=
| OpAcquire (inner : Tx.thrown + nat) (run : runner)
| OpRelease (connection : nat).

(** The calls made, and the connections handed to callers, in order. *)
Fixpoint wrapper_run (config : DuckLakeConfig) (ops : list wrapper_op)
    (w : wrapper) : wrapper * list wrapper_call * list nat :=
  match ops with
  | [] => (w, [], [])
  | OpAcquire inner run :: rest =>
      let '(w1, calls1, r) := wrapped_acquire config inner run w in
      let '(w2, calls2, got) := wrapper_run config rest w1 in
      (w2, (calls1 ++ calls2)%list,
       match r with inr c => c :: got | inl _ => got end)
  | OpRelease c :: rest =>
      let '(w1, calls1) := wrapped_release c w in
      let '(w2, calls2, got) := wrapper_run config rest w1 in
      (w2, (calls1 ++ calls2)%list, got)
  end.

(** The connections on which the attach statement of [config] was
    accepted, one entry per time. *)
Definition attached_on (sql : string) (calls : list wrapper_call) : list nat :=
  omap (fun x => match x with
                 | Ran c s None => if String.eqb s sql then Some c else None
                 | _ => None
                 end) calls.

(** *** Local catalogs and the size of the pool *)

Definition is_letter (c : ascii) : bool :=
  let n := nat_of_ascii c in
  ((65 <=? n) && (n <=? 90) || (97 <=? n) && (n <=? 122))%nat.

Definition is_digit (c : ascii) : bool :=
  let n := nat_of_ascii c in ((48 <=? n) && (n <=? 57))%nat.

(** [[a-zA-Z0-9+.-]] *)
Definition is_scheme_char (c : ascii) : bool :=
  is_letter c || is_digit c
  || Ascii.eqb c "+" || Ascii.eqb c "." || Ascii.eqb c "-".

(** [/^[a-zA-Z]:[\\/]/] *)
Definition is_drive_path (s : string) : bool :=
  match s with
  | String a (String b (String c _)) =>
      is_letter a && Ascii.eqb b ":"
      && (Ascii.eqb c (ascii_of_nat 92) || Ascii.eqb c "/")
  | _ => false
  end.

Fixpoint skip_scheme (s : string) : string :=
  match s with
  | EmptyString => EmptyString
  | String c s' => if is_scheme_char c then skip_scheme s' else s
  end.

(** [/^[a-zA-Z][a-zA-Z0-9+.-]*:\/\//]: the colon is no scheme character,
    so the star takes every scheme character there is. *)
Definition is_url (s : string) : bool :=
  match s with
  | EmptyString => false
  | String a s' => is_letter a && Client.startsWith "://" (skip_scheme s')
  end.

(** [/^(postgres|postgresql|mysql|mariadb|sqlite|snowflake|bigquery):/i] *)
Definition is_database_scheme (s : string) : bool :=
  existsb (fun w => Client.startsWith (w +:+ ":") (Tx.toLowerCase s))
    ["postgres"; "postgresql"; "mysql"; "mariadb"; "sqlite"; "snowflake";
     "bigquery"].

(** [s.slice(n)] *)
Fixpoint slice (n : nat) (s : string) : string :=
  match n, s with
  | O, _ => s
  | S n', String _ s' => slice n' s'
  | S _, EmptyString => EmptyString
  end.

(** [isDuckDbFileCatalog], its recursion bounded by [fuel]. *)
Fixpoint isDuckDbFileCatalog_within (fuel : nat) (catalog : string) : bool :=
  let trimmed := Client.trim catalog in
  if String.eqb trimmed "" then false
  else if String.eqb trimmed ":memory:" then true
  else if isDuckLakeUri trimmed then
    match fuel with
    | O => false
    | S fuel' =>
        isDuckDbFileCatalog_within fuel'
          (slice (String.length "ducklake:") trimmed)
    end
  else if is_drive_path trimmed then true
  else if Client.startsWith "md:" trimmed then false
  else if is_url trimmed then false
  else if is_database_scheme trimmed then false
  else
    Client.endsWith ".duckdb" trimmed
    || Client.endsWith ".ddb" trimmed
    || Tx.includes "/" trimmed
    || Tx.includes (String (ascii_of_nat 92) EmptyString) trimmed
    || Client.startsWith "./" trimmed
    || Client.startsWith "../" trimmed
    || Client.startsWith "~" trimmed.

(** [isDuckDbFileCatalog]: every recursive call is on a shorter string,
    so the length of the catalog bounds the recursion. *)
Definition isDuckDbFileCatalog (catalog : string) : bool :=
  isDuckDbFileCatalog_within (String.length catalog) catalog.

(** [DuckLakePoolResolution]; [None] is [false]. *)
Record DuckLakePoolResolution := {
  poolSize : option Z;
  resolvedPoolSize : option Z;
  isLocalCatalog : bool;
  hasPoolSetting : bool
}.

(** [resolveDuckLakePoolSize] *)
Definition resolveDuckLakePoolSize (poolSetting : PoolConfig.pool_setting)
    (ducklakeConfig : option DuckLakeConfig)
  : Tx.thrown + DuckLakePoolResolution :=
  let hasPoolSetting :=
    match poolSetting with PoolConfig.PoolUnset => false | _ => true end in
  let resolvedPoolSize := PoolConfig.resolvePoolSize poolSetting in
  match
    match ducklakeConfig with
    | Some config =>
        match normalizeDuckLakeConfig config with
        | inl e => inl e
        | inr n => inr (isDuckDbFileCatalog (n_catalog n))
        end
    | None => inr false
    end
  with
  | inl e => inl e
  | inr isLocalCatalog =>
      inr {| poolSize := if negb hasPoolSetting && isLocalCatalog
                         then Some 1%Z else resolvedPoolSize;
             resolvedPoolSize := resolvedPoolSize;
             isLocalCatalog := isLocalCatalog;
             hasPoolSetting := hasPoolSetting |}
  end.

(** What [createFromConnectionString] decides before it connects: whether
    it warns about a catalog file shared by several connections, and the
    options of the pool it creates, [None] when it uses one connection. *)
Definition createFromConnectionString (pool : PoolConfig.pool_setting)
    (ducklakeConfig : option DuckLakeConfig)
  : Tx.thrown + (bool * option Pool.options) :=
  match resolveDuckLakePoolSize pool ducklakeConfig with
  | inl e => inl e
  | inr r =>
      let warns :=
        match ducklakeConfig, resolvedPoolSize r with
        | Some _, Some n => (1 <? n)%Z && isLocalCatalog r
        | _, _ => false
        end in
      inr (warns,
           match poolSize r with
           | None => None
           | Some n =>
               Some (PoolConfig.options_of_size n
                       (match ducklakeConfig with
                        | Some _ => true
                        | None => false
                        end))
           end)
  end.

(** The connections the wrapper released to the pool it wraps, and the
    releases its callers asked for. *)
Definition inner_releases (calls : list wrapper_call) : list nat :=
  omap (fun x => match x with InnerRelease c => Some c | _ => None end) calls.

Definition requested_releases (ops : list wrapper_op) : list nat :=
  omap (fun x => match x with OpRelease c => Some c | _ => None end) ops.

(** The statements the wrapper ran on connection [c]. *)
Definition ran_on (c : nat) (calls : list wrapper_call) : list string :=
  omap (fun x => match x with
                 | Ran c' sql _ => if decide (c' = c) then Some sql else None
                 | _ => None
                 end) calls.

Definition sample_config : DuckLakeConfig :=
  {| catalog := "md:meta_db"; alias := Some " lake "; use := None;
     install := Some true; load := None;
     attachOptions :=
       Some {| createIfNotExists := Some true;
               dataInliningRowLimit := None;
               dataPath := Some "./it's data";
               encrypted := None;
               metaParameterName := None;
               metadataCatalog := None;
               overrideDataPath := None;
               readOnly := Some true |} |}.

Definition local_config : DuckLakeConfig :=
  {| catalog := "./ducklake.duckdb"; alias := None; use := None;
     install := None; load := None; attachOptions := None |}.

End DuckLake.

(** ** Streams that fail ([src/client.ts]) *)

Module StreamFailure.

(** The chunks [P] rows long cut from [buffer ++ rows]; what is left at
    the end is not among them. *)
Fixpoint full_batches {A : Type} (P : Z) (buffer rows : list A)
  : list (list A) :=
  match rows with
  | [] => []
  | r :: rows' =>
      let buffer' := buffer ++ [r] in
      if P <=? Z.of_nat (length buffer') then buffer' :: full_batches P [] rows'
      else full_batches P buffer' rows'
  end.

Section Failing.

Context {value A : Type}.
Variable conv : list string -> list (Stream.row value) -> list A.
Variable client : Stream.DuckDBClientLike value.

(** The generator has not finished and reads from a cursor that fails
    with [e] once its chunks are delivered. *)
Definition fails_with (e : Stream.error) (g : @Stream.gen value A) : Prop :=
  match g with
  | Stream.GInit =>
      exists r, Stream.the_result client = Some r
                /\ Stream.sr_fail r = Some e
  | Stream.GYielded r _ _ => Stream.sr_fail r = Some e
  | Stream.GTail _ | Stream.GDone => False
  end.

(** The full chunks still to be yielded from state [g]. *)
Definition full_ahead (P : Z) (g : @Stream.gen value A) : list (list A) :=
  match g with
  | Stream.GDone | Stream.GTail _ => []
  | Stream.GYielded r cur rest =>
      full_batches P []
        (Stream.pending_rows conv (Stream.stream_columns r) cur rest)
  | Stream.GInit =>
      match Stream.the_result client with
      | Some r =>
          full_batches P []
            (Stream.pending_rows conv (Stream.stream_columns r) []
               (Stream.sr_chunks r))
      | None => []
      end
  end.

End Failing.

(** A cursor over five one-column rows that fails after delivering
    them. *)
Definition failing_cursor : Stream.StreamResultLike nat :=
  {| Stream.sr_chunks := [[[1%nat]; [2%nat]; [3%nat]]; [[4%nat]; [5%nat]]];
     Stream.sr_fail := Some 9%nat;
     Stream.sr_columnNames := inr ["id"%string];
     Stream.sr_deduplicatedColumnNames := None;
     Stream.sr_close := Some None;
     Stream.sr_cancel := None |}.

End StreamFailure.

(** ** Commit, savepoints and the text of [SET TRANSACTION] (the session module) *)

Module TxTrace.

(** A savepoint the engine accepted. *)
Definition opens (x : Tx.sql_stmt * option Tx.thrown) : bool :=
  match x with
  | (Tx.Savepoint _, None) => true
  | _ => false
  end.

(** What ends a savepoint: a [RELEASE SAVEPOINT] the engine accepted, or
    a [ROLLBACK TO SAVEPOINT] that was sent. *)
Definition closes (x : Tx.sql_stmt * option Tx.thrown) : bool :=
  match x with
  | (Tx.ReleaseSavepoint _, None) | (Tx.RollbackTo _, _) => true
  | _ => false
  end.

(** A statement a callback can cause: one of its own, or one of the
    savepoint protocol. *)
Definition by_callback (s : Tx.sql_stmt) : bool :=
  match s with
  | Tx.Query _ | Tx.Savepoint _ | Tx.ReleaseSavepoint _ | Tx.RollbackTo _ =>
      true
  | _ => false
  end.

(** The savepoint a statement names, if any, is numbered above [n]. *)
Definition deeper (n : nat) (s : Tx.sql_stmt) : bool :=
  match s with
  | Tx.Savepoint k | Tx.ReleaseSavepoint k | Tx.RollbackTo k => (n <? k)%nat
  | _ => true
  end.

Definition tally {X : Type} (p : X -> bool) (l : list X) : nat :=
  length (filter (fun x => p x = true) l).

(** What a callback whose handle has [nestedIndex = n] may add to the
    statements sent: every savepoint opened is closed, and only
    statements of a callback appear, with savepoints numbered above
    [n]. *)
Definition balanced (n : nat) (new : list (Tx.sql_stmt * option Tx.thrown))
  : Prop :=
  tally opens new = tally closes new
  /\ Forall (fun x => by_callback x.1 = true /\ deeper n x.1 = true) new.

Definition well_nested {R : Type} (n : nat) (f : Tx.state -> Tx.state * R)
  : Prop :=
  forall st, exists new,
    Tx.sent (f st).1 = Tx.sent st ++ new /\ balanced n new.

(** Neither [COMMIT] nor [ROLLBACK]. *)
Definition keeps_open (x : Tx.sql_stmt * option Tx.thrown) : Prop :=
  x.1 <> Tx.Commit /\ x.1 <> Tx.Rollback.

(** What a transaction that reports failure may have added to the
    statements sent: it ends with a [ROLLBACK], or the callback was never
    entered and nothing follows the refused [BEGIN], the refused
    configuration or the refused [SET TRANSACTION]. *)
Definition failed_shape (new : list (Tx.sql_stmt * option Tx.thrown)) : Prop :=
  (exists pre r, new = pre ++ [(Tx.Rollback, r)])
  \/ new = []
  \/ (exists e, new = [(Tx.Begin, Some e)])
  \/ new = [(Tx.Begin, None)]
  \/ (exists text e,
        new = [(Tx.Begin, None); (Tx.SetTransaction text, Some e)]).

(** Lower-case letters and spaces. *)
Definition is_plain_char (c : ascii) : bool :=
  let n := nat_of_ascii c in
  ((97 <=? n) && (n <=? 122) || (n =? 32))%nat.

Fixpoint plain_text (s : string) : bool :=
  match s with
  | EmptyString => true
  | String c s' => is_plain_char c && plain_text s'
  end.

Definition sample_tx_config : Tx.PgTransactionConfig :=
  {| Tx.isolationLevel := Some "repeatable read"%string;
     Tx.accessMode := Some "read only"%string;
     Tx.deferrable := Some (Tx.VBool false) |}.

End TxTrace.

(** ** Facts about the streaming executor *)

Module StreamFacts.
Import Stream.

Section Cleanup.

Context {value A : Type}.
Variable conv : list string -> list (row value) -> list A.
Variable client : DuckDBClientLike value.
Variable options : ExecuteInBatchesOptions.

Lemma count_app p (a b : list call) :
  count p (a ++ b) = (count p a + count p b)%nat.
Proof. unfold count. by rewrite filter_app, length_app. Qed.

Lemma count_nil p : count p [] = 0%nat.
Proof. reflexivity. Qed.

Lemma count_cons p c (tr : list call) :
  count p (c :: tr) = ((if p c then 1 else 0) + count p tr)%nat.
Proof.
  unfold count. rewrite filter_cons.
  destruct (decide (p c = true)) as [Hp | Hp]; destruct (p c);
    simpl; congruence.
Qed.

Ltac counts :=
  repeat (rewrite ?count_app, ?count_cons, ?count_nil in *; simpl in * ).

Lemma count_cancel_le (tr : list call) :
  (count is_cancel tr <= count is_cursor_cleanup tr)%nat.
Proof.
  induction tr as [| c tr IH]; [done |].
  rewrite !count_cons. destruct c; simpl; lia.
Qed.

Lemma closeStreamResult_counts (r : StreamResultLike value) :
  count is_acquired (closeStreamResult r) = 0%nat
  /\ count is_release (closeStreamResult r) = 0%nat
  /\ count is_opened (closeStreamResult r) = 0%nat
  /\ count is_cursor_cleanup (closeStreamResult r)
     = (if has_cleanup r then 1 else 0)%nat
  /\ count is_cancel (closeStreamResult r)
     = match sr_close r, sr_cancel r with
       | None, Some _ => 1%nat
       | _, _ => 0%nat
       end.
Proof.
  unfold closeStreamResult, has_cleanup.
  destruct (sr_close r), (sr_cancel r); repeat split; reflexivity.
Qed.

Lemma pool_release_counts r :
  the_result client = Some r ->
  count is_acquired (pool_release client) = 0%nat
  /\ count is_release (pool_release client) = connections_pinned client
  /\ count is_opened (pool_release client) = 0%nat
  /\ count is_cursor_cleanup (pool_release client) = 0%nat
  /\ count is_cancel (pool_release client) = 0%nat.
Proof.
  unfold pool_release, connections_pinned, the_result, the_cursor.
  destruct client as [c | [e | c] rel]; simpl; try done.
Qed.

Lemma finish_settled r tr :
  suspended client r tr ->
  settled client (@GDone value A)
    (tr ++ closeStreamResult r ++ pool_release client).
Proof.
  intros (Hr & Ha & Ho & Hrel & Hc).
  pose proof (closeStreamResult_counts r) as (Ca & Cr & Co & Cc & Cx).
  pose proof (pool_release_counts r Hr) as (Pa & Pr & Po & Pc & Px).
  pose proof (count_cancel_le tr) as Hx.
  unfold settled, cleanups_due, cancels_due. rewrite Hr, !count_app.
  rewrite Ca, Cr, Co, Cc, Cx, Pa, Pr, Po, Pc, Px, Ha, Ho, Hrel, Hc.
  repeat split; lia.
Qed.

Lemma resume_settled r cur rest tr :
  suspended client r tr ->
  settled client (resume conv client options r cur rest).1.1
    (tr ++ (resume conv client options r cur rest).1.2).
Proof.
  intros H. unfold resume.
  destruct (pump _ _ _ _ _ _) as [[[chunk cur'] rest'] | buffer];
    cbn [fst snd].
  - rewrite app_nil_r. destruct H as (Hr & Ha & Ho & Hrel & Hc).
    by repeat split.
  - destruct (sr_fail r); [| destruct (0 <? length buffer)%nat];
      cbn [fst snd]; try by apply finish_settled.
    rewrite app_nil_r. destruct H as (Hr & Ha & Ho & Hrel & Hc).
    by repeat split.
Qed.

Lemma the_result_stream (c : DuckDBConnection value) r cols :
  stream c = inr r ->
  read_columns r = inr cols ->
  (forall rel, the_result (PoolOf (inr c) rel) = Some r)
  /\ the_result (Conn c) = Some r.
Proof.
  intros Hs Hc. unfold the_result, the_cursor; simpl. by rewrite Hs, Hc.
Qed.

Lemma start_settled :
  settled client (start conv client options).1.1
    (start conv client options).1.2.
Proof.
  unfold start.
  destruct client as [c | [e | c] rel] eqn:Hcl; cbn [the_connection].
  - destruct (stream c) as [e | r] eqn:Hs.
    + unfold settled, connections_pinned, cursors_opened, cleanups_due,
        cancels_due, the_result, the_cursor. simpl. rewrite Hs.
      repeat split.
    + destruct (read_columns r) as [e | cols] eqn:Hcols.
      * unfold settled, connections_pinned, cursors_opened, cleanups_due,
          cancels_due, the_result, the_cursor. simpl. rewrite Hs, Hcols.
        repeat split.
      * rewrite <- Hcl.
        destruct (the_result_stream c r cols Hs Hcols) as [_ Hr].
        rewrite <- Hcl in Hr.
        assert (Hsus : suspended client r [CStream true]).
        { split; [done |]. rewrite Hcl.
          unfold connections_pinned, cursors_opened, the_cursor. simpl.
          rewrite Hs. repeat split. }
        pose proof (resume_settled r [] (sr_chunks r) _ Hsus) as HR.
        destruct (resume _ _ _ _ _ _) as [[g' calls] res]. exact HR.
  - unfold settled, connections_pinned, cursors_opened, cleanups_due,
      cancels_due, the_result, the_cursor. simpl. repeat split.
  - destruct (stream c) as [e | r] eqn:Hs.
    + unfold settled, connections_pinned, cursors_opened, cleanups_due,
        cancels_due, the_result, the_cursor. simpl. rewrite Hs.
      repeat split.
    + destruct (read_columns r) as [e | cols] eqn:Hcols.
      * unfold settled, connections_pinned, cursors_opened, cleanups_due,
          cancels_due, the_result, the_cursor. simpl. rewrite Hs, Hcols.
        repeat split.
      * rewrite <- Hcl.
        destruct (the_result_stream c r cols Hs Hcols) as [Hr _].
        specialize (Hr rel). rewrite <- Hcl in Hr.
        assert (Hsus : suspended client r [CAcquire true; CStream true]).
        { split; [done |]. rewrite Hcl.
          unfold connections_pinned, cursors_opened, the_cursor. simpl.
          rewrite Hs. repeat split. }
        pose proof (resume_settled r [] (sr_chunks r) _ Hsus) as HR.
        destruct (resume _ _ _ _ _ _) as [[g' calls] res]. exact HR.
Qed.

Lemma settled_suspended (g : @gen value A) tr r :
  settled client g tr ->
  (exists cur rest, g = GYielded r cur rest) \/ g = GTail r ->
  suspended client r tr.
Proof.
  intros (Ha & Ho & H) [(cur & rest & ->) | ->];
    destruct H as (Hr & Hrel & Hc); by repeat split.
Qed.

Lemma apply_op_settled g x tr :
  settled client g tr ->
  settled client (apply_op conv client options g x).1.1
    (tr ++ (apply_op conv client options g x).1.2).
Proof.
  intros H.
  destruct g as [| r cur rest | r |].
  - (* the body has not been entered *)
    by destruct H as (_ & _ & ?).
  - (* suspended in the row loop *)
    assert (Hs : suspended client r tr)
      by (eapply settled_suspended; [exact H | left; eauto]).
    destruct x; simpl;
      [by apply resume_settled | by apply finish_settled ..].
  - (* suspended at the last yield *)
    assert (Hs : suspended client r tr)
      by (eapply settled_suspended; [exact H | by right]).
    destruct x; simpl; by apply finish_settled.
  - (* finished *)
    destruct x; simpl; rewrite app_nil_r; exact H.
Qed.

Lemma drive_settled ops : forall g tr,
  settled client g tr ->
  settled client (drive conv client options g ops).1.1
    (tr ++ (drive conv client options g ops).1.2).
Proof.
  induction ops as [| x ops IH]; intros g tr H; simpl.
  - by rewrite app_nil_r.
  - pose proof (apply_op_settled g x tr H) as H1.
    destruct (apply_op conv client options g x) as [[g1 c1] r1].
    specialize (IH g1 (tr ++ c1) H1).
    destruct (drive conv client options g1 ops) as [[g2 c2] r2].
    simpl in *. by rewrite app_assoc.
Qed.

(** A finished generator calls nothing any more. *)
Lemma drive_done_calls ops :
  (drive conv client options GDone ops).1 = (GDone, []).
Proof.
  induction ops as [| x ops IH]; [done |].
  cbn [drive].
  assert (Hx : exists res, apply_op conv client options GDone x
                           = (GDone, [], res))
    by (destruct x; simpl; eauto).
  destruct Hx as (res & ->).
  destruct (drive conv client options GDone ops) as [[g2 c2] r2].
  cbn [fst] in IH. by injection IH as -> ->.
Qed.

Lemma drive_app ops1 ops2 g :
  drive conv client options g (ops1 ++ ops2) =
  let '(g1, c1, r1) := drive conv client options g ops1 in
  let '(g2, c2, r2) := drive conv client options g1 ops2 in
  (g2, c1 ++ c2, r1 ++ r2).
Proof.
  revert g. induction ops1 as [| x ops1 IH]; intros g; simpl.
  - by destruct (drive conv client options g ops2) as [[? ?] ?].
  - destruct (apply_op conv client options g x) as [[g1 c1] r1].
    rewrite IH.
    destruct (drive conv client options g1 ops1) as [[g2 c2] r2].
    destruct (drive conv client options g2 ops2) as [[g3 c3] r3].
    by rewrite app_assoc.
Qed.

Lemma fill_shorter P : forall (cur buffer chunk cur' : list A),
  fill P buffer cur = inl (chunk, cur') -> (length cur' < length cur)%nat.
Proof.
  induction cur as [| r cur IH]; intros buffer chunk cur' H; simpl in *.
  - discriminate.
  - destruct (P <=? _).
    + injection H as <- <-. lia.
    + apply IH in H. lia.
Qed.

Lemma fill_batches P : forall (cur buffer tail : list A),
  match fill P buffer cur with
  | inl (chunk, cur') =>
      batches P buffer (cur ++ tail) = chunk :: batches P [] (cur' ++ tail)
  | inr buffer' => batches P buffer (cur ++ tail) = batches P buffer' tail
  end.
Proof.
  induction cur as [| r cur IH]; intros buffer tail; simpl.
  - reflexivity.
  - destruct (P <=? _); [reflexivity | apply IH].
Qed.

Lemma pump_shorter cols P :
  forall rest (buffer cur chunk cur' : list A) rest',
  pump conv cols P buffer cur rest = inl (chunk, cur', rest') ->
  (length (pending_rows conv cols cur' rest')
   < length (pending_rows conv cols cur rest))%nat.
Proof.
  unfold pending_rows.
  induction rest as [| c rest IH]; intros buffer cur chunk cur' rest' H;
    simpl in H.
  - destruct (fill P buffer cur) as [[ch cu] |] eqn:F; [| discriminate].
    injection H as <- <- <-. apply fill_shorter in F.
    rewrite !length_app. lia.
  - destruct (fill P buffer cur) as [[ch cu] | b] eqn:F.
    + injection H as <- <- <-. apply fill_shorter in F.
      rewrite !length_app. lia.
    + apply IH in H. simpl. rewrite !length_app in *. lia.
Qed.

Lemma pump_batches cols P : forall rest (buffer cur : list A),
  match pump conv cols P buffer cur rest with
  | inl (chunk, cur', rest') =>
      batches P buffer (pending_rows conv cols cur rest)
      = chunk :: batches P [] (pending_rows conv cols cur' rest')
  | inr buffer' =>
      batches P buffer (pending_rows conv cols cur rest)
      = if (0 <? length buffer')%nat then [buffer'] else []
  end.
Proof.
  unfold pending_rows.
  induction rest as [| c rest IH]; intros buffer cur; simpl.
  - pose proof (fill_batches P cur buffer []) as F.
    destruct (fill P buffer cur) as [[ch cu] | b]; simpl in *; exact F.
  - pose proof (fill_batches P cur buffer
                  (conv cols c ++ concat (map (conv cols) rest))) as F.
    destruct (fill P buffer cur) as [[ch cu] | b]; [exact F |].
    rewrite F. apply IH.
Qed.

Lemma resume_rank r cur rest :
  (rank client conv (resume conv client options r cur rest).1.1
   <= 1 + length (pending_rows conv (stream_columns r) cur rest))%nat.
Proof.
  unfold resume.
  destruct (pump _ _ _ _ _ _) as [[[chunk cur'] rest'] | buffer] eqn:Hp.
  - apply pump_shorter in Hp. simpl. lia.
  - destruct (sr_fail r); [| destruct (0 <? length buffer)%nat];
      simpl; lia.
Qed.

Lemma next_rank g :
  (rank client conv (next conv client options g).1.1
   <= pred (rank client conv g))%nat.
Proof.
  destruct g as [| r cur rest | r |]; simpl; try lia.
  - unfold start.
    destruct client as [c | [e | c] rel] eqn:Hcl; simpl; try lia.
    + destruct (stream c) as [e | r] eqn:Hs; simpl; try lia.
      destruct (read_columns r) as [e | cols] eqn:Hcols; simpl; try lia.
      destruct (the_result_stream c r cols Hs Hcols) as [_ ->].
      pose proof (resume_rank r [] (sr_chunks r)) as HR. rewrite Hcl in HR.
      destruct (resume _ _ _ _ _ _) as [[g' calls] res]. simpl in *. lia.
    + destruct (stream c) as [e | r] eqn:Hs; simpl; try lia.
      destruct (read_columns r) as [e | cols] eqn:Hcols; simpl; try lia.
      destruct (the_result_stream c r cols Hs Hcols) as [-> _].
      pose proof (resume_rank r [] (sr_chunks r)) as HR. rewrite Hcl in HR.
      destruct (resume _ _ _ _ _ _) as [[g' calls] res]. simpl in *. lia.
  - pose proof (resume_rank r cur rest) as HR. lia.
Qed.

Lemma exhaust_finishes n : forall g,
  (rank client conv g <= n)%nat ->
  (drive conv client options g (replicate n Next)).1.1 = GDone.
Proof.
  induction n as [| n IH]; intros g Hg; simpl.
  - destruct g; simpl in Hg; try lia. reflexivity.
  - pose proof (next_rank g) as Hn.
    destruct (next conv client options g) as [[g1 c1] r1]. simpl in Hn.
    specialize (IH g1 ltac:(lia)).
    destruct (drive conv client options g1 (replicate n Next))
      as [[g2 c2] r2]. exact IH.
Qed.

Lemma chunks_of_after_release (res : @outcome A) :
  (forall c, res <> Yield c) ->
  chunks_of [after_release client res] = [].
Proof.
  intros H. unfold after_release.
  destruct client as [c | acq [e |]]; destruct res; simpl; try reflexivity;
    exfalso; eapply H; reflexivity.
Qed.

Lemma resume_chunks r cur rest :
  sr_fail r = None ->
  chunks_of [(resume conv client options r cur rest).2]
  ++ chunks_ahead client conv (rows_per_chunk options)
       (resume conv client options r cur rest).1.1
  = batches (rows_per_chunk options) []
      (pending_rows conv (stream_columns r) cur rest)
  /\ unfailing client (resume conv client options r cur rest).1.1.
Proof.
  intros Hf. unfold resume.
  pose proof (pump_batches (stream_columns r) (rows_per_chunk options)
                rest [] cur) as HB.
  destruct (pump _ _ _ _ _ _) as [[[chunk cur'] rest'] | buffer].
  - simpl. by rewrite HB.
  - rewrite Hf, HB. destruct (0 <? length buffer)%nat; simpl.
    + done.
    + rewrite app_nil_r. split; [| done].
      by apply chunks_of_after_release.
Qed.

Lemma next_chunks g :
  unfailing client g ->
  chunks_of [(next conv client options g).2]
  ++ chunks_ahead client conv (rows_per_chunk options)
       (next conv client options g).1.1
  = chunks_ahead client conv (rows_per_chunk options) g
  /\ unfailing client (next conv client options g).1.1.
Proof.
  intros Hf.
  destruct g as [| r cur rest | r |]; simpl.
  - unfold start. simpl in Hf.
    destruct client as [c | [e | c] rel] eqn:Hcl; simpl; try done.
    + destruct (stream c) as [e | r] eqn:Hs; simpl.
      * unfold the_result, the_cursor; simpl. by rewrite Hs.
      * destruct (read_columns r) as [e | cols] eqn:Hcols; simpl.
        { unfold the_result, the_cursor; simpl. by rewrite Hs, Hcols. }
        destruct (the_result_stream c r cols Hs Hcols) as [_ Hr].
        rewrite Hr.
        pose proof (resume_chunks r [] (sr_chunks r) (Hf r Hr)) as HR.
        rewrite Hcl in HR.
        destruct (resume _ _ _ _ _ _) as [[g' calls] res]. exact HR.
    + destruct (stream c) as [e | r] eqn:Hs; simpl.
      * unfold the_result, the_cursor; simpl. rewrite Hs.
        rewrite app_nil_r. split; [| done].
        pose proof (chunks_of_after_release (Throw e)) as HA.
        rewrite Hcl in HA. apply HA. congruence.
      * destruct (read_columns r) as [e | cols] eqn:Hcols; simpl.
        { unfold the_result, the_cursor; simpl. rewrite Hs, Hcols.
          rewrite app_nil_r. split; [| done].
          pose proof (chunks_of_after_release (Throw e)) as HA.
          rewrite Hcl in HA. apply HA. congruence. }
        destruct (the_result_stream c r cols Hs Hcols) as [Hr _].
        rewrite (Hr rel).
        pose proof (resume_chunks r [] (sr_chunks r) (Hf r (Hr rel))) as HR.
        rewrite Hcl in HR.
        destruct (resume _ _ _ _ _ _) as [[g' calls] res]. exact HR.
  - by apply resume_chunks.
  - rewrite app_nil_r. split; [| done]. by apply chunks_of_after_release.
  - done.
Qed.

Lemma chunks_of_cons (r : @outcome A) rs :
  chunks_of (r :: rs) = chunks_of [r] ++ chunks_of rs.
Proof. unfold chunks_of. simpl. by destruct r. Qed.

Lemma exhaust_chunks n : forall g,
  unfailing client g ->
  (rank client conv g <= n)%nat ->
  chunks_of (drive conv client options g (replicate n Next)).2
  = chunks_ahead client conv (rows_per_chunk options) g.
Proof.
  induction n as [| n IH]; intros g Hf Hg; simpl.
  - destruct g; simpl in Hg; try lia. reflexivity.
  - pose proof (next_rank g) as Hn.
    pose proof (next_chunks g Hf) as [Hc Hf1].
    destruct (next conv client options g) as [[g1 c1] r1].
    cbn [fst snd] in *.
    specialize (IH g1 Hf1 ltac:(lia)).
    destruct (drive conv client options g1 (replicate n Next))
      as [[g2 c2] r2]. cbn [fst snd] in *.
    by rewrite chunks_of_cons, IH.
Qed.

Lemma drive_cleans_up :
  cleans_up_exactly_once client (drive conv client options).
Proof.
  unfold cleans_up_exactly_once.
  split; [intros ops | split; [intros x ops Hx
                     | split; [intros ops | split; [intros ops e |]]]].
  - cbn [drive apply_op next].
    pose proof start_settled as H0.
    destruct (start conv client options) as [[g1 c1] r1].
    cbn [fst snd] in H0.
    pose proof (drive_settled ops g1 c1 H0) as H.
    destruct (drive conv client options g1 ops) as [[g tr] outs].
    cbn [fst snd] in H. destruct H as (Ha & Ho & H).
    cbv beta iota zeta.
    split; [done |]. split; [done |].
    destruct g; [done | | | done]; by destruct H as (_ & ? & ?).
  - cbn [drive].
    assert (Hop : exists res, apply_op conv client options GInit x
                              = (GDone, [], res))
      by (destruct x; simpl; eauto; done).
    destruct Hop as (res & ->).
    pose proof (drive_done_calls ops) as Hd.
    destruct (drive conv client options GDone ops) as [[g2 c2] r2].
    cbn [fst snd] in *. by injection Hd as _ ->.
  - rewrite drive_app.
    destruct (drive conv client options GInit ops) as [[g tr] outs].
    simpl. by destruct g.
  - rewrite drive_app.
    destruct (drive conv client options GInit ops) as [[g tr] outs].
    simpl. by destruct g.
  - exists (rank client conv GInit). intros k.
    apply exhaust_finishes. lia.
Qed.

End Cleanup.


Section Batches.

Context {A : Type}.
Variable P : Z.
Hypothesis P_pos : 0 < P.

Lemma ceil_small b : 0 < b < P -> (b + P - 1) / P = 1.
Proof.
  intros H. symmetry. apply Z.div_unique with (r := b - 1); lia.
Qed.

Lemma ceil_zero : (0 + P - 1) / P = 0.
Proof. apply Z.div_small. lia. Qed.

Lemma ceil_full m : (P + m + P - 1) / P = 1 + (m + P - 1) / P.
Proof.
  replace (P + m + P - 1) with (m + P - 1 + 1 * P) by lia.
  rewrite Z.div_add by lia. lia.
Qed.

Lemma batches_length : forall (rs buffer : list A),
  Z.of_nat (length buffer) < P ->
  Z.of_nat (length (batches P buffer rs))
  = (Z.of_nat (length buffer + length rs) + P - 1) / P.
Proof.
  induction rs as [| r rs IH]; intros buffer Hb; simpl.
  - rewrite Nat.add_0_r.
    destruct (0 <? length buffer)%nat eqn:E; simpl.
    + apply Nat.ltb_lt in E. rewrite ceil_small; lia.
    + apply Nat.ltb_ge in E.
      replace (length buffer) with 0%nat by lia.
      change (Z.of_nat 0) with 0. by rewrite ceil_zero.
  - rewrite length_app. simpl.
    destruct (P <=? _) eqn:E.
    + apply Z.leb_le in E. simpl.
      rewrite Nat2Z.inj_succ, (IH [] ltac:(simpl; lia)). simpl.
      replace (Z.of_nat (length buffer + S (length rs)))
        with (P + Z.of_nat (length rs)) by lia.
      rewrite ceil_full. lia.
    + apply Z.leb_gt in E.
      rewrite (IH (buffer ++ [r])) by (rewrite length_app; simpl; lia).
      rewrite length_app. simpl. do 2 f_equal. lia.
Qed.

Lemma batches_sum : forall (rs buffer : list A),
  sum_list (map length (batches P buffer rs))
  = (length buffer + length rs)%nat.
Proof.
  induction rs as [| r rs IH]; intros buffer; simpl.
  - destruct (0 <? length buffer)%nat eqn:E; simpl.
    + lia.
    + apply Nat.ltb_ge in E. lia.
  - destruct (P <=? _); simpl.
    + rewrite IH, length_app. simpl. lia.
    + rewrite IH, length_app. simpl. lia.
Qed.

Lemma batches_full : forall (rs buffer : list A) i c,
  Z.of_nat (length buffer) < P ->
  batches P buffer rs !! i = Some c ->
  (S i < length (batches P buffer rs))%nat ->
  Z.of_nat (length c) = P.
Proof.
  induction rs as [| r rs IH]; intros buffer i c Hb Hi Hlt; simpl in *.
  - destruct (0 <? length buffer)%nat; simpl in *; lia.
  - rewrite length_app in Hi, Hlt. simpl in Hi, Hlt.
    destruct (P <=? _) eqn:E.
    + apply Z.leb_le in E. destruct i as [| i]; simpl in *.
      * injection Hi as <-. rewrite length_app. simpl. lia.
      * eapply (IH [] i c); simpl; [lia | exact Hi | lia].
    + apply Z.leb_gt in E.
      eapply (IH (buffer ++ [r]) i c); [| exact Hi | exact Hlt].
      rewrite length_app. simpl. lia.
Qed.

Lemma batches_last : forall (rs buffer : list A) c,
  Z.of_nat (length buffer) < P ->
  last (batches P buffer rs) = Some c ->
  Z.of_nat (length c)
  = let T := Z.of_nat (length buffer + length rs) in
    if T mod P =? 0 then P else T mod P.
Proof.
  induction rs as [| r rs IH]; intros buffer c Hb Hl; simpl in *.
  - rewrite Nat.add_0_r.
    destruct (0 <? length buffer)%nat eqn:E; simpl in *; [| discriminate].
    injection Hl as <-. apply Nat.ltb_lt in E.
    rewrite Z.mod_small by lia.
    destruct (Z.eqb_spec (Z.of_nat (length buffer)) 0); lia.
  - rewrite length_app in Hl. simpl in Hl.
    destruct (P <=? _) eqn:E.
    + apply Z.leb_le in E.
      replace (Z.of_nat (length buffer + S (length rs)))
        with (Z.of_nat (length rs) + 1 * P) by lia.
      rewrite Z.mod_add by lia.
      destruct (batches P [] rs) as [| c0 cs] eqn:Hbs.
      * simpl in Hl. injection Hl as <-.
        assert (Hr : rs = []).
        { destruct rs as [| r0 rows0]; [done |].
          pose proof (batches_length (r0 :: rows0) []
                        ltac:(simpl; lia)) as HL.
          rewrite Hbs in HL. simpl in HL.
          assert (0 < (Z.of_nat (S (length rows0)) + P - 1) / P); [| lia].
          apply Z.div_str_pos. lia. }
        subst rs. cbn [length Z.of_nat]. rewrite Z.mod_0_l by lia.
        cbn [Z.eqb]. rewrite length_app. simpl. lia.
      * rewrite last_cons in Hl.
        destruct (last (c0 :: cs)) as [c1 |] eqn:Hlast.
        -- injection Hl as <-.
           rewrite <- Hbs in Hlast.
           apply (IH [] c1 ltac:(simpl; lia)) in Hlast. simpl in Hlast.
           exact Hlast.
        -- by apply last_None in Hlast.
    + apply Z.leb_gt in E.
      apply (IH (buffer ++ [r]) c) in Hl.
      * rewrite length_app in Hl. simpl in Hl.
        replace (length buffer + 1 + length rs)%nat
          with (length buffer + S (length rs))%nat in Hl by lia.
        exact Hl.
      * rewrite length_app. simpl. lia.
Qed.

End Batches.

Section Chunks.

Context {value : Type}.
Variable client : DuckDBClientLike value.
Variable options : ExecuteInBatchesOptions.

Lemma rows_per_chunk_pos : 0 < rows_per_chunk options.
Proof.
  unfold rows_per_chunk.
  destruct (rowsPerChunk options) as [p |]; [| lia].
  destruct (Z.ltb_spec 0 p); lia.
Qed.

Lemma batches_chunked {A} (P : Z) (rs : list A) :
  0 < P -> chunked_by P (length rs) (map length (batches P [] rs)).
Proof.
  intros HP. unfold chunked_by. repeat split.
  - rewrite length_map, (batches_length P HP rs []) by (simpl; lia).
    reflexivity.
  - by rewrite (batches_sum P rs []).
  - intros i s Hi Hlt. rewrite length_map in Hlt.
    rewrite list_lookup_fmap in Hi.
    destruct (batches P [] rs !! i) as [c |] eqn:Hc; [| discriminate].
    injection Hi as <-.
    eapply (batches_full P HP rs [] i c); simpl; eauto; lia.
  - intros s Hl. rewrite fmap_last in Hl.
    destruct (last (batches P [] rs)) as [c |] eqn:Hc; [| discriminate].
    injection Hl as <-.
    apply (batches_last P HP rs [] c) in Hc; simpl in *; [done | lia].
Qed.

Lemma length_concat_conv {A}
    (conv : list string -> list (row value) -> list A) cols
    (ls : list (list (row value))) :
  (forall cols c, length (conv cols c) = length c) ->
  length (concat (map (conv cols) ls)) = length (concat ls).
Proof.
  intros Hconv. induction ls as [| c cs IH]; [done |].
  cbn [map concat]. by rewrite !length_app, Hconv, IH.
Qed.

Lemma exhaust_chunked {A} (conv : list string -> list (row value) -> list A)
    (r : StreamResultLike value) (n : nat) :
  (forall cols c, length (conv cols c) = length c) ->
  the_result client = Some r ->
  sr_fail r = None ->
  (length (concat (sr_chunks r)) + 3 <= n)%nat ->
  chunked_by (rows_per_chunk options) (length (concat (sr_chunks r)))
    (map length
       (chunks_of (drive conv client options GInit (replicate n Next)).2)).
Proof.
  intros Hconv Hr Hf Hn.
  assert (Hlen : length (pending_rows conv (stream_columns r) []
                           (sr_chunks r))
                 = length (concat (sr_chunks r))).
  { unfold pending_rows. rewrite app_nil_l.
    by apply length_concat_conv. }
  rewrite exhaust_chunks.
  - simpl. rewrite Hr, <- Hlen.
    apply batches_chunked, rows_per_chunk_pos.
  - simpl. intros r' Hr'. congruence.
  - simpl. rewrite Hr, Hlen. lia.
Qed.

End Chunks.

(** C1, as amended.  For [executeInBatches] and [executeInBatchesRaw],
    on a connection or on a pool, and for every sequence of [next()],
    [return()] and [throw()] calls of the consumer that begins with
    [next()]: a connection is acquired exactly once when the client is a
    pool whose [acquire()] returns, and a cursor is opened exactly once
    when [client.stream] returns; while the generator is suspended
    nothing has been released or closed; once it is finished (the rows
    are exhausted, the consumer stopped after any number of chunks, or an
    error was thrown by the engine, the pool or the consumer) [release]
    has been called exactly once for the connection that was acquired,
    and the cursor's [close] (or, when it has no [close], its [cancel])
    has been called exactly once provided the column names could be read
    from the cursor, so that the [try] block was entered, and the cursor
    has one of the two methods; otherwise neither is called.  A
    generator finished before its first [next()] makes no call at all.
    Stopping or throwing always finishes the generator, and so do enough
    [next()] calls. *)
Theorem stream_cleanup_exactly_once {value : Type}
    (client : DuckDBClientLike value) (options : ExecuteInBatchesOptions) :
  cleans_up_exactly_once client (executeInBatches client options)
  /\ cleans_up_exactly_once client (executeInBatchesRaw client options).
Proof. split; apply drive_cleans_up. Qed.

(** C1 as stated fails on the code when an error is thrown between
    [client.stream] and the [try] block: the column names are read there,
    and when [columnNames()] throws, the cursor that was opened is never
    closed, although it has a [close] method; [next()] is rejected with
    the accessor's error, and for a pool the connection is still
    released once.  And a cursor that has neither [close] nor [cancel]
    is not cleaned up at all, however the run ends. *)
Lemma cursor_left_open_when_names_throw :
  let options := {| rowsPerChunk := None |} in
  executeInBatches (Conn {| stream := inr nameless_cursor |}) options
    GInit [Next]
  = (GDone, [CStream true], [Throw 13%nat])
  /\ executeInBatchesRaw
       (PoolOf (inr {| stream := inr nameless_cursor |}) None) options
       GInit [Next]
     = (GDone, [CAcquire true; CStream true; CRelease], [Throw 13%nat])
  /\ (executeInBatchesRaw (Conn {| stream := inr bare_cursor |}) options
        GInit [Next; Next])
     = (GDone, [CStream true], [Yield [[1%nat]]; Done]).
Proof. vm_compute. repeat split. Qed.

(** C9.  When the cursor delivers [M] rows in all and does not fail, a
    consumer that exhausts the generator receives the rows cut every
    [P] rows, [P] being [rowsPerChunk] when it is positive and 100000
    otherwise: [ceil(M/P)] chunks whose sizes sum to [M], each but the
    last of [P] rows, the last of [M mod P] rows or of [P] rows when [P]
    divides [M]. *)
Theorem stream_chunk_sizes {value : Type}
    (client : DuckDBClientLike value) (options : ExecuteInBatchesOptions)
    (r : StreamResultLike value) (n : nat) :
  the_result client = Some r ->
  sr_fail r = None ->
  (length (concat (sr_chunks r)) + 3 <= n)%nat ->
  let M := length (concat (sr_chunks r)) in
  let P := rows_per_chunk options in
  match rowsPerChunk options with
  | Some p => if 0 <? p then P = p else P = 100000
  | None => P = 100000
  end
  /\ chunked_by P M
       (map length
          (chunks_of
             (executeInBatches client options GInit (replicate n Next)).2))
  /\ chunked_by P M
       (map (fun buffer => length (rows (raw_chunk client buffer)))
          (chunks_of
             (executeInBatchesRaw client options GInit
                (replicate n Next)).2)).
Proof.
  intros Hr Hf Hn M P. split; [| split].
  - subst P. unfold rows_per_chunk.
    destruct (rowsPerChunk options) as [p |]; [| done].
    by destruct (0 <? p).
  - apply exhaust_chunked; try done.
    intros cols c. unfold mapRowsToObjects. by rewrite length_map.
  - apply (exhaust_chunked client options (fun _ c => c)); done.
Qed.

Lemma stream_chunk_sizes_witness :
  let client := Conn {| stream := inr sample_cursor |} in
  let options := {| rowsPerChunk := Some 2 |} in
  the_result client = Some sample_cursor
  /\ sr_fail sample_cursor = None
  /\ chunked_by 2 5
       (map length
          (chunks_of
             (executeInBatches client options GInit (replicate 8 Next)).2)).
Proof.
  intros client options.
  split; [reflexivity |]. split; [reflexivity |].
  pose proof (stream_chunk_sizes client options sample_cursor 8
                eq_refl eq_refl ltac:(simpl; lia)) as H.
  exact (proj1 (proj2 H)).
Defined.

End StreamFacts.

(** ** Facts about the connection pool *)

Module PoolFacts.
#[local] Set Warnings "-clear-no-such-hyp".
Import Pool.

Section Facts.

Variable o : options.
Variable cc : conn -> option ext_error.

Lemma size_pos : 0 < size o.
Proof.
  unfold size. destruct (opt_size o) as [s |]; [| lia].
  destruct (Z.ltb_spec 0 s); lia.
Qed.

(** The scan only ever lowers [total]. *)
Lemma scan_idle_total now : forall l tot md acc,
  (scan_idle o cc now l tot md acc).1.1.2 <= Z.max 0 tot
  /\ ((scan_idle o cc now l tot md acc).1.1.2 <= tot \/ tot < 0).
Proof.
  induction l as [| p rest IH]; intros tot md acc; simpl.
  - lia.
  - destruct (shouldRecycle o p now); simpl; [| lia].
    destruct (cc (connection p)); simpl; [lia |].
    specialize (IH (Z.max 0 (tot - 1)) (delete (connection p) md)
                  (acc ++ [Destroyed (connection p)])).
    lia.
Qed.

Lemma scan_idle_le now l tot md acc bound :
  0 < bound -> tot <= bound ->
  (scan_idle o cc now l tot md acc).1.1.2 <= bound.
Proof.
  intros Hb Ht. pose proof (scan_idle_total now l tot md acc). lia.
Qed.

Lemma acquire_total client tid now st :
  total st <= size o -> total (acquire o cc client tid now st).1 <= size o.
Proof.
  intros H. unfold acquire. pose proof size_pos as Hs.
  destruct (closed st); [done |].
  pose proof (scan_idle_le now (idle st) (total st) (metadata st) []
                (size o) Hs H) as Hscan.
  destruct (scan_idle _ _ _ _ _ _ _) as [[[[res rest] tot] md] effs].
  simpl in Hscan.
  destruct res; simpl; try lia.
  destruct (Z.ltb_spec tot (size o)); simpl; [lia |].
  destruct (_ <=? _); simpl; lia.
Qed.

Lemma acquire_created_total client r now st :
  total st <= size o ->
  total (acquire_created o cc client r now st).1 <= size o.
Proof.
  intros H. unfold acquire_created.
  destruct (negb _); [done |].
  destruct r as [e | c su]; simpl; [lia |].
  destruct (if opt_setup o then su else None).
  - destruct (cc c); simpl; lia.
  - destruct (closed st); [destruct (cc c) |]; simpl; lia.
Qed.

Lemma release_total c tid now st :
  total st <= size o -> total (release o cc c tid now st).1.1 <= size o.
Proof.
  intros H. unfold release. pose proof size_pos as Hs.
  destruct (waiting st) as [| w ws].
  - destruct (closed st).
    + destruct (cc c); simpl; lia.
    + destruct (lifetime_expired _ _ _); [destruct (cc c) |]; simpl; lia.
  - destruct (closed st).
    + destruct (cc c); simpl; lia.
    + destruct (lifetime_expired _ _ _); [| simpl; lia].
      destruct (cc c); [simpl; lia |].
      match goal with
      | |- context [acquire o cc ?cl ?t ?n ?s] =>
          pose proof (acquire_total cl t n s) as HA;
          destruct (acquire o cc cl t n s) as [st3 effs]
      end.
      simpl in *. apply HA. lia.
Qed.

Lemma step_total st ev :
  total st <= size o -> total (step o cc st ev).1 <= size o.
Proof.
  intros H. destruct ev; simpl.
  - by apply acquire_total.
  - by apply acquire_created_total.
  - unfold acquire_timeout.
    destruct (list_find _ _) as [[i w] |]; simpl; lia.
  - by apply release_total.
  - pose proof size_pos. unfold close. simpl. lia.
Qed.

Lemma run_total evs : forall st,
  total st <= size o -> total (run o cc st evs).1 <= size o.
Proof.
  induction evs as [| ev evs IH]; intros st H; simpl; [done |].
  pose proof (step_total st ev H) as H1.
  destruct (step o cc st ev) as [st1 e1].
  specialize (IH st1 H1).
  destruct (run o cc st1 evs) as [st2 e2]. exact IH.
Qed.

Lemma run_app evs1 evs2 st :
  run o cc st (evs1 ++ evs2) =
  let '(st1, e1) := run o cc st evs1 in
  let '(st2, e2) := run o cc st1 evs2 in
  (st2, e1 ++ e2).
Proof.
  revert st. induction evs1 as [| ev evs1 IH]; intros st; simpl.
  - by destruct (run o cc st evs2).
  - destruct (step o cc st ev) as [st1 e1]. rewrite IH.
    destruct (run o cc st1 evs1) as [st2 e2].
    destruct (run o cc st2 evs2) as [st3 e3].
    by rewrite app_assoc.
Qed.

Lemma remove_first_singleton k : remove_first k [k] = [].
Proof.
  unfold remove_first. simpl. by rewrite decide_True.
Qed.

(** One more caller on a warm pool below capacity. *)
Lemma warm_step k now :
  Z.of_nat k < size o ->
  run o cc (warm k now)
    [EvAcquire k k now; EvCreated k (Created k None) now]
  = (warm (S k) now, [CreateStarted k; Resolved k k]).
Proof.
  intros Hk. simpl. unfold acquire. simpl.
  destruct (Z.ltb_spec (Z.of_nat k) (size o)); [| lia]. simpl.
  unfold acquire_created. simpl.
  rewrite bool_decide_eq_true_2 by set_solver. simpl.
  replace (if opt_setup o then None else None) with (@None ext_error)
    by (by destruct (opt_setup o)).
  rewrite remove_first_singleton. unfold warm. simpl.
  repeat f_equal; lia.
Qed.

Lemma run_acquire_n n now :
  Z.of_nat n <= size o ->
  run o cc init (acquire_n n now)
  = (warm n now,
     flat_map (fun k => [CreateStarted k; Resolved k k]) (seq 0 n)).
Proof.
  induction n as [| n IH]; intros Hn; [done |].
  cbn [acquire_n]. rewrite run_app, IH by lia.
  rewrite warm_step by lia.
  rewrite seq_S, flat_map_app. reflexivity.
Qed.

Lemma handed_out_warm n :
  handed_out (flat_map (fun k => [CreateStarted k; Resolved k k]) (seq 0 n))
  = seq 0 n.
Proof.
  unfold handed_out. induction (seq 0 n) as [| k l IH]; [done |].
  cbn [flat_map app omap list_omap]. cbn [flat_map omap list_omap] in IH.
  by rewrite <- IH at 2.
Qed.

Lemma warm_metadata_lookup n now c :
  (c < n)%nat -> warm_metadata n now !! c = Some (Meta now now).
Proof.
  induction n as [| n IH]; intros Hc; [lia |]. simpl.
  destruct (decide (n = c)) as [-> | Hne].
  - by rewrite lookup_insert_eq.
  - rewrite lookup_insert_ne by done. apply IH. lia.
Qed.

(** [release] with a waiter queued and a connection that is not expired
    hands the connection to the oldest waiter. *)
Lemma release_hands_over c tid now st w ws :
  waiting st = w :: ws ->
  closed st = false ->
  lifetime_expired o
    (createdAt (default (Meta now now) (metadata st !! c))) now = false ->
  release o cc c tid now st
  = (MkPool (idle st) ws (total st) false (pendingAcquires st)
       (<[c := Meta (createdAt (default (Meta now now) (metadata st !! c)))
                 now]> (metadata st))
       (creating st),
     [TimerCleared (timeoutId w); Resolved (w_client w) c], None).
Proof.
  intros Hw Hc He. unfold release. rewrite Hw, Hc, He. reflexivity.
Qed.

Lemma find_sole_waiter client tid :
  list_find (fun w => timeoutId w = tid) [Waiter client tid]
  = Some (0%nat, Waiter client tid).
Proof.
  apply list_find_Some. repeat split; try done. intros j y _ Hj. lia.
Qed.

(** A further caller on a full warm pool is queued. *)
Lemma acquire_warm_full n client tid now :
  Z.of_nat n = size o ->
  0 < maxWaitingRequests o ->
  acquire o cc client tid now (warm n now)
  = (MkPool [] [Waiter client tid] (Z.of_nat n) false 0
       (warm_metadata n now) [],
     [TimerSet tid client]).
Proof.
  intros Hn HK. unfold acquire, warm. simpl.
  destruct (Z.ltb_spec (Z.of_nat n) (size o)); [lia |].
  destruct (Z.leb_spec (maxWaitingRequests o) (Z.of_nat 0));
    [simpl in *; lia |].
  reflexivity.
Qed.

(** C2, as amended.  The pool's [total] never exceeds [size], in any
    state reachable from the new pool by any interleaving of acquires,
    finished creations, timeouts, releases and [close] (so also while a
    creation is pending).  After [N = size] callers have each been given a
    connection, a further [acquire()] on the open pool creates nothing:
    provided [maxWaitingRequests] is positive it is queued with a timer,
    [total] stays [N]; if its timer fires it is rejected with the
    acquire-timeout error and leaves the queue; if instead one of the [N]
    connections is released before its lifetime is over, the waiter is
    given that connection. *)
Theorem pool_total_bounded_and_extra_acquire_waits
    (client tid : nat) (now : Z) :
  (forall evs, total (run o cc init evs).1 <= size o)
  /\ (let N := Z.to_nat (size o) in
      let st := (run o cc init (acquire_n N now)).1 in
      handed_out (run o cc init (acquire_n N now)).2 = seq 0 N
      /\ total st = size o
      /\ (0 < maxWaitingRequests o ->
          let st1 := (acquire o cc client tid now st).1 in
          (acquire o cc client tid now st).2 = [TimerSet tid client]
          /\ waiting st1 = [Waiter client tid]
          /\ total st1 = size o
          /\ creating st1 = []
          /\ acquire_timeout o tid st1
             = (st, [Rejected client (ErrTimeout (acquireTimeout o))])
          /\ forall c tid' now',
               (c < N)%nat -> lifetime_expired o now now' = false ->
               (release o cc c tid' now' st1).1.2
               = [TimerCleared tid; Resolved client c])).
Proof.
  split.
  - intros evs. apply run_total. pose proof size_pos. simpl. lia.
  - pose proof size_pos as Hs. cbv zeta.
    rewrite run_acquire_n by lia. cbn [fst snd].
    split; [apply handed_out_warm |].
    split; [simpl; lia |].
    intros HK.
    rewrite (acquire_warm_full (Z.to_nat (size o))) by lia.
    cbn [fst snd waiting total creating].
    split; [reflexivity |]. split; [reflexivity |].
    split; [apply Z2Nat.id; lia |]. split; [reflexivity |]. split.
    + unfold acquire_timeout. cbn [waiting].
      rewrite find_sole_waiter. unfold warm.
      rewrite Z2Nat.id by lia. reflexivity.
    + intros c tid' now' Hc Hexp.
      rewrite (release_hands_over c tid' now' _ (Waiter client tid) []);
        try reflexivity.
      cbn [metadata]. rewrite warm_metadata_lookup by done. exact Hexp.
Qed.

(** C8.  An [acquire()] on an open pool whose scan of the idle stack
    finds nothing usable and leaves [total] at or above [size] is rejected
    at once with the queue-full error when [maxWaitingRequests] waiters
    are already queued, the queue being left as it was; with fewer
    waiters it is appended to the queue with a timer.  In neither case is
    a connection created. *)
Theorem acquire_respects_queue_limit (client tid : nat) (now : Z)
    (st : pool) :
  closed st = false ->
  usable_idle o cc now st = ScanNone ->
  size o <= total_after_scan o cc now st ->
  let K := maxWaitingRequests o in
  let st1 := (acquire o cc client tid now st).1 in
  let effs := (acquire o cc client tid now st).2 in
  creating st1 = creating st
  /\ if K <=? Z.of_nat (length (waiting st))
     then waiting st1 = waiting st
          /\ last effs = Some (Rejected client (ErrQueueFull K))
     else waiting st1 = waiting st ++ [Waiter client tid]
          /\ last effs = Some (TimerSet tid client).
Proof.
  unfold usable_idle, total_after_scan, acquire.
  intros Hc Hscan Htot. rewrite Hc.
  destruct (scan_idle _ _ _ _ _ _ _) as [[[[res rest] tot] md] effs0].
  simpl in Hscan, Htot. subst res.
  destruct (Z.ltb_spec tot (size o)); [lia |].
  destruct (maxWaitingRequests o <=? Z.of_nat (length (waiting st)));
    simpl; rewrite last_snoc; done.
Qed.




Section Lifetime.

Variable m : Z.
Hypothesis lifetime_set : maxLifetimeMs o = Some m.
Hypothesis lifetime_nonneg : 0 <= m.







End Lifetime.

(** [release] fails with the error of [closeClientConnection] whenever it
    has to destroy the connection and destroying throws. *)
Lemma release_fails_when_destroy_fails c tid now st e :
  cc c = Some e ->
  closed st = true
  \/ lifetime_expired o
       (createdAt (default (Meta now now) (metadata st !! c))) now = true ->
  (release o cc c tid now st).2 = Some e.
Proof.
  intros Hcc H. unfold release.
  destruct (waiting st) as [| w ws]; destruct (closed st) eqn:Hc;
    rewrite ?Hcc; try done;
    destruct H as [H | H]; try done; cbn zeta;
    destruct (metadata st !! c) as [md |]; simpl in H |- *;
    by rewrite H, ?Hcc.
Qed.

(** When destroying never fails, neither does [release]. *)
Lemma release_quiet_when_destroy_succeeds c tid now st :
  (forall c', cc c' = None) -> (release o cc c tid now st).2 = None.
Proof.
  intros Hcc. unfold release.
  destruct (waiting st) as [| w ws]; destruct (closed st);
    rewrite ?Hcc; try done.
  - by destruct (lifetime_expired _ _ _).
  - destruct (lifetime_expired _ _ _); [| done].
    by destruct (acquire _ _ _ _ _ _).
Qed.

(** C10, as amended.  On an open pool whose [maxLifetimeMs] is unset or
    positive, [release] of a connection the pool has no record of makes
    up a record with [createdAt = lastUsedAt = now], does not judge the
    connection expired, and does not fail; [total] is unchanged; the
    connection goes to the oldest waiter when there is one and otherwise
    on top of the idle stack. *)
Theorem release_of_unknown_connection (c : conn) (tid : nat) (now : Z)
    (st : pool) :
  metadata st !! c = None ->
  closed st = false ->
  match maxLifetimeMs o with Some m => 0 < m | None => True end ->
  lifetime_expired o now now = false
  /\ let st1 := (release o cc c tid now st).1.1 in
     let effs := (release o cc c tid now st).1.2 in
     (release o cc c tid now st).2 = None
     /\ total st1 = total st
     /\ metadata st1 !! c = Some (Meta now now)
     /\ match waiting st with
        | w :: ws =>
            effs = [TimerCleared (timeoutId w); Resolved (w_client w) c]
            /\ waiting st1 = ws
            /\ idle st1 = idle st
        | [] =>
            effs = []
            /\ idle st1 = Pooled c now now :: idle st
        end.
Proof.
  intros Hmd Hc Hm.
  assert (He : lifetime_expired o now now = false).
  { unfold lifetime_expired. destruct (maxLifetimeMs o) as [m |]; [| done].
    apply Z.leb_gt. lia. }
  split; [done |].
  unfold release. rewrite Hmd, Hc. simpl. rewrite He.
  destruct (waiting st) as [| w ws]; simpl;
    rewrite lookup_insert_eq; done.
Qed.

End Facts.

Lemma acquire_respects_queue_limit_witness :
  let o := Options (Some 1) None (Some 1) None None false in
  let cc := fun _ : conn => @None ext_error in
  let st := MkPool [] [Waiter 5 5] 1 false 0 ∅ [] in
  (acquire o cc 6 6 0 st).2 = [Rejected 6 (ErrQueueFull 1)].
Proof.
  intros o cc st.
  pose proof (acquire_respects_queue_limit o cc 6 6 0 st
                eq_refl eq_refl ltac:(vm_compute; discriminate)) as H.
  vm_compute in H. vm_compute. destruct H as (_ & _ & H).
  congruence.
Defined.

(** C2 as stated fails: with [size = 2] and [maxWaitingRequests = 0], the
    third [acquire()] issued while two connections are outstanding is not
    queued but rejected at once with the queue-full error. *)
Lemma extra_acquire_rejected_when_queue_limit_is_zero :
  let o := Options (Some 2) None (Some 0) None None false in
  let cc := fun _ : conn => @None ext_error in
  let st := (run o cc init (acquire_n 2 0)).1 in
  handed_out (run o cc init (acquire_n 2 0)).2 = [0%nat; 1%nat]
  /\ total st = size o
  /\ (acquire o cc 2 2 0 st).2 = [Rejected 2 (ErrQueueFull 0)]
  /\ waiting (acquire o cc 2 2 0 st).1 = [].
Proof. vm_compute. repeat split. Qed.

Lemma pool_total_bounded_and_extra_acquire_waits_witness :
  let o := Options (Some 2) None None None None false in
  let cc := fun _ : conn => @None ext_error in
  let st := (run o cc init (acquire_n 2 0)).1 in
  0 < maxWaitingRequests o
  /\ (acquire o cc 2 2 0 st).2 = [TimerSet 2 2].
Proof.
  intros o cc st. split; [vm_compute; reflexivity |].
  pose proof (pool_total_bounded_and_extra_acquire_waits o cc 2 2 0) as H.
  destruct H as (_ & _ & _ & H).
  exact (proj1 (H ltac:(vm_compute; reflexivity))).
Defined.


Lemma release_of_unknown_connection_witness :
  let o := Options (Some 1) None None (Some 10) None false in
  let cc := fun _ : conn => @None ext_error in
  total (release o cc 7%nat 1 20 init).1.1 = 0
  /\ idle (release o cc 7%nat 1 20 init).1.1 = [Pooled 7%nat 20 20].
Proof.
  intros o cc.
  pose proof (release_of_unknown_connection o cc 7%nat 1 20 init
                eq_refl eq_refl ltac:(simpl; lia)) as (_ & _ & Ht & _ & _ & Hi).
  split; [exact Ht | exact Hi].
Defined.

(** C10 as stated fails.  With [maxLifetimeMs = 0] an unknown connection
    released to an open, empty pool is judged expired at that very moment:
    it is destroyed, not kept, and [total] drops from 0 to -1.  On a closed
    pool an unknown connection is destroyed and [total] drops from 1 to
    0. *)
Lemma release_of_unknown_connection_can_destroy_it :
  let cc := fun _ : conn => @None ext_error in
  (let o := Options (Some 1) None None (Some 0) None false in
   metadata init !! 7%nat = None
   /\ lifetime_expired o 20 20 = true
   /\ (release o cc 7%nat 1 20 init).1.2 = [Destroyed 7%nat]
   /\ idle (release o cc 7%nat 1 20 init).1.1 = []
   /\ total init = 0
   /\ total (release o cc 7%nat 1 20 init).1.1 = -1)
  /\ (let o := Options (Some 1) None None None None false in
      let st := (run o cc init [EvAcquire 0 0 0;
                                EvCreated 0 (Created 0%nat None) 0;
                                EvClose]).1 in
      metadata st !! 7%nat = None
      /\ total st = 1
      /\ (release o cc 7%nat 1 20 st).1.2 = [Destroyed 7%nat]
      /\ idle (release o cc 7%nat 1 20 st).1.1 = []
      /\ total (release o cc 7%nat 1 20 st).1.1 = 0).
Proof. vm_compute. repeat split. Qed.

(** C7 fails on the code.  [release] awaits [closeClientConnection]
    without a handler, so when destroying the connection throws,
    [release] itself is rejected with that error: on a closed pool, for a
    connection past its lifetime, and -- with a waiter queued -- after the
    waiter was taken off the queue and its timer cleared, so that the
    waiter is never settled. *)
Lemma release_propagates_destroy_failure :
  let cc := fun _ : conn => Some 99%nat in
  let o := Options (Some 1) None None (Some 10) None false in
  let warm1 := (run o cc init [EvAcquire 0 0 0;
                               EvCreated 0 (Created 0%nat None) 0]).1 in
  let queued := (run o cc warm1 [EvAcquire 5 5 0]).1 in
  let shut := (run o cc warm1 [EvClose]).1 in
  release o cc 0%nat 1 20 warm1
  = (MkPool [] [] 1 false 0 {[ 0%nat := Meta 0 20 ]} [],
     [DestroyFailed 0%nat 99%nat], Some 99%nat)
  /\ waiting queued = [Waiter 5%nat 5%nat]
  /\ release o cc 0%nat 1 20 queued
     = (MkPool [] [] 1 false 0 {[ 0%nat := Meta 0 0 ]} [],
        [TimerCleared 5%nat; DestroyFailed 0%nat 99%nat], Some 99%nat)
  /\ (release o cc 0%nat 1 20 shut).2 = Some 99%nat.
Proof. vm_compute. repeat split. Qed.

End PoolFacts.

(** ** Facts about transactions *)

Module TxFacts.
#[local] Set Warnings "-clear-no-such-hyp".
Import Tx.

Lemma action_induction (P : action -> Prop) :
  (forall text, P (AExec text)) ->
  (forall e, P (AThrow e)) ->
  P ARollback ->
  (forall body, Forall P body -> P (ANested body)) ->
  (forall body, Forall P body -> P (ATry body)) ->
  forall a, P a.
Proof.
  intros HE HT HR HN HY. fix IH 1.
  intros [text | e | | body | body].
  - apply HE.
  - apply HT.
  - apply HR.
  - apply HN. induction body as [| a body IHb]; constructor;
      [apply IH | exact IHb].
  - apply HY. induction body as [| a body IHb]; constructor;
      [apply IH | exact IHb].
Qed.

Section Facts.

Variable eng : engine.

(** The loop inside [run_action] is [run_actions]. *)
Lemma run_action_nested n body st :
  run_action eng n (ANested body) st
  = nested_transaction eng n (run_actions eng (S n) body) st.
Proof. reflexivity. Qed.

Lemma run_action_try n body st :
  run_action eng n (ATry body) st
  = ((run_actions eng n body st).1, None).
Proof.
  change (run_action eng n (ATry body) st)
    with (match run_actions eng n body st with
          | (st1, _) => (st1, @None thrown)
          end).
  by destruct (run_actions eng n body st).
Qed.

(** The two halves of the probe, run one after the other. *)
Lemma nested_transaction_unfold n f st :
  nested_transaction eng n f st
  = if areSavepointsUnsupported (dialect st) then
      runNestedWithoutSavepoint f st
    else
      match execute eng (Savepoint (S n)) st with
      | (st1, Some error) =>
          if negb (isSavepointSyntaxError error) then (st1, Some error)
          else
            runNestedWithoutSavepoint f
              (set_dialect (markSavepointsUnsupported (dialect st1)) st1)
      | (st1, None) =>
          let st2 :=
            set_dialect (markSavepointsSupported (dialect st1)) st1 in
          match f st2 with
          | (st3, None) =>
              match execute eng (ReleaseSavepoint (S n)) st3 with
              | (st4, None) => (st4, None)
              | (st4, Some error) =>
                  match execute eng (RollbackTo (S n)) st4 with
                  | (st5, Some error') => (st5, Some error')
                  | (st5, None) => (markRollbackOnly st5, Some error)
                  end
              end
          | (st3, Some error) =>
              match execute eng (RollbackTo (S n)) st3 with
              | (st4, Some error') => (st4, Some error')
              | (st4, None) => (markRollbackOnly st4, Some error)
              end
          end
      end.
Proof.
  unfold nested_transaction, enter_nested, settle_probe.
  destruct (areSavepointsUnsupported (dialect st)); [done |].
  destruct (execute eng (Savepoint (S n)) st) as [st1 [e |]]; [| done].
  by destruct (negb (isSavepointSyntaxError e)).
Qed.

Lemma failed_probes_app (a b : list (sql_stmt * option thrown)) :
  failed_probes (a ++ b) = (failed_probes a + failed_probes b)%nat.
Proof. unfold failed_probes. by rewrite filter_app, length_app. Qed.

Lemma failed_probes_one (x : sql_stmt * option thrown) :
  failed_probes [x] = if is_failed_probe x then 1%nat else 0%nat.
Proof.
  unfold failed_probes. rewrite filter_cons, filter_nil.
  destruct (decide (is_failed_probe x = true)) as [H | H];
    destruct (is_failed_probe x); simpl; congruence.
Qed.

Lemma failed_probes_quiet (l : list (sql_stmt * option thrown)) :
  Forall (fun x => is_savepoint_protocol x.1 = false) l ->
  failed_probes l = 0%nat.
Proof.
  induction 1 as [| [s r] l Hx _ IH]; [done |].
  change ((s, r) :: l) with ([(s, r)] ++ l).
  rewrite failed_probes_app, failed_probes_one, IH.
  simpl in Hx. by destruct s.
Qed.

Lemma unsupported_or_not (d : savepoint_support) :
  d = SpUnsupported \/ d <> SpUnsupported.
Proof. destruct d; [right | right | left]; congruence. Qed.

Lemma extends_refl st : extends st st.
Proof.
  exists []. rewrite app_nil_r. repeat split; try done.
  - unfold failed_probes. simpl. lia.
Qed.

Lemma extends_trans st st1 st2 :
  extends st st1 -> extends st1 st2 -> extends st st2.
Proof.
  intros (n1 & S1 & B1 & U1 & Q1) (n2 & S2 & B2 & U2 & Q2).
  exists (n1 ++ n2). rewrite failed_probes_app.
  split; [by rewrite S2, S1, app_assoc |].
  destruct (unsupported_or_not (dialect st1)) as [Hd | Hd].
  - destruct (Q2 Hd) as [D2 F2].
    rewrite (failed_probes_quiet n2 F2).
    split; [lia |]. split; [done |].
    intros D. destruct (Q1 D) as [_ F1]. split; [done |].
    by apply Forall_app.
  - assert (failed_probes n1 = 0%nat) by (destruct (failed_probes n1) as
      [| [| k]]; [done | by destruct Hd; apply U1 | lia]).
    split; [lia |]. split; [intros; apply U2; lia |].
    intros D. destruct (Q1 D) as [D1 _]. done.
Qed.

Lemma statements_snoc st s r ro d :
  statements (MkState (sent st ++ [(s, r)]) ro d) = statements st ++ [s].
Proof. unfold statements. simpl. by rewrite fmap_app. Qed.

(** Sending a statement, given the engine's answer. *)
Lemma execute_answer s st r :
  eng (statements st) s = r ->
  execute eng s st
  = (MkState (sent st ++ [(s, r)]) (rollbackOnly st) (dialect st), r).
Proof. by intros <-. Qed.

Lemma extends_execute s st :
  is_savepoint_protocol s = false -> extends st (execute eng s st).1.
Proof.
  intros Hs. exists [(s, eng (statements st) s)].
  rewrite failed_probes_one.
  assert (is_failed_probe (s, eng (statements st) s) = false) as ->
    by (by destruct s).
  repeat split; try done; try lia.
  by constructor.
Qed.

Lemma extends_mark st st1 :
  extends st st1 -> extends st (markRollbackOnly st1).
Proof. intros (n & ?). by exists n. Qed.

Lemma runNestedWithoutSavepoint_extends f st :
  tame f -> extends st (runNestedWithoutSavepoint f st).1.
Proof.
  intros Hf. unfold runNestedWithoutSavepoint.
  pose proof (Hf st) as H.
  destruct (f st) as [st1 [e |]]; simpl in *; [by apply extends_mark | done].
Qed.

Lemma nested_transaction_tame n f :
  tame f -> tame (nested_transaction eng n f).
Proof.
  intros Hf st. rewrite nested_transaction_unfold.
  destruct (areSavepointsUnsupported (dialect st)) eqn:Hd.
  { by apply runNestedWithoutSavepoint_extends. }
  assert (Hne : dialect st <> SpUnsupported)
    by (by destruct (dialect st)).
  unfold execute at 1.
  destruct (eng (statements st) (Savepoint (S n))) as [e |] eqn:He.
  - destruct (isSavepointSyntaxError e) eqn:Hsyn; simpl.
    + (* the probe failed: downgrade and run the callback directly *)
      match goal with
      | |- extends _ (runNestedWithoutSavepoint f ?s).1 =>
          pose proof (runNestedWithoutSavepoint_extends f s Hf)
            as (n2 & S2 & B2 & U2 & Q2)
      end.
      destruct (Q2 eq_refl) as [D2 F2]. simpl in S2.
      exists ([(Savepoint (S n), Some e)] ++ n2).
      rewrite failed_probes_app, failed_probes_one,
        (failed_probes_quiet n2 F2). simpl. rewrite Hsyn.
      repeat split; try done; try lia.
      by rewrite S2, <- app_assoc.
    + exists [(Savepoint (S n), Some e)].
      rewrite failed_probes_one. simpl. rewrite Hsyn.
      repeat split; try done; lia.
  - (* the savepoint was created *)
    simpl.
    match goal with
    | |- context [f ?s] =>
        pose proof (Hf s) as (n2 & S2 & B2 & U2 & _);
        destruct (f s) as [st3 r3]
    end.
    simpl in S2, U2.
    assert (Hfin : forall s' st4,
      sent st4 = sent st3 ++ [(s', eng (statements st3) s')] ->
      dialect st4 = dialect st3 ->
      is_savepoint s' = false ->
      extends st st4).
    { intros s' st4 S4 D4 Hs'.
      exists ([(Savepoint (S n), None)] ++ n2
              ++ [(s', eng (statements st3) s')]).
      rewrite !failed_probes_app, !failed_probes_one.
      assert (is_failed_probe (s', eng (statements st3) s') = false) as ->
        by (by destruct s').
      simpl. rewrite S4, S2, D4, <- !app_assoc.
      repeat split; try done; try lia. intros; apply U2; lia. }
    assert (Hfin2 : forall s' s'' st5,
      sent st5 = (sent st3 ++ [(s', eng (statements st3) s')])
                 ++ [(s'', eng (statements st3 ++ [s']) s'')] ->
      dialect st5 = dialect st3 ->
      is_savepoint s' = false -> is_savepoint s'' = false ->
      extends st st5).
    { intros s' s'' st5 S5 D5 Hs' Hs''.
      exists ([(Savepoint (S n), None)] ++ n2
              ++ [(s', eng (statements st3) s')]
              ++ [(s'', eng (statements st3 ++ [s']) s'')]).
      rewrite !failed_probes_app, !failed_probes_one.
      assert (is_failed_probe (s', eng (statements st3) s') = false) as ->
        by (by destruct s').
      assert (is_failed_probe (s'', eng (statements st3 ++ [s']) s'')
              = false) as -> by (by destruct s'').
      simpl. rewrite S5, S2, D5, <- !app_assoc.
      repeat split; try done; try lia. intros; apply U2; lia. }
    destruct r3 as [err |].
    + destruct (eng (statements st3) (RollbackTo (S n))) eqn:Hrb; simpl;
        eapply Hfin; simpl; rewrite ?Hrb; done.
    + destruct (eng (statements st3) (ReleaseSavepoint (S n))) eqn:Hrel;
        simpl.
      * rewrite !statements_snoc.
        destruct (eng (statements st3 ++ [ReleaseSavepoint (S n)])
                    (RollbackTo (S n))) eqn:Hrb; simpl;
          eapply Hfin2; simpl; rewrite ?Hrel, ?Hrb; done.
      * eapply Hfin; simpl; rewrite ?Hrel; done.
Qed.

Lemma run_actions_tame_of body :
  Forall (fun a => forall n, tame (run_action eng n a)) body ->
  forall n, tame (run_actions eng n body).
Proof.
  induction 1 as [| a body Ha _ IH]; intros n st; simpl.
  - apply extends_refl.
  - pose proof (Ha n st) as H1.
    destruct (run_action eng n a st) as [st1 [e |]]; simpl in *; [done |].
    eapply extends_trans; [exact H1 | apply IH].
Qed.

Lemma run_action_tame a : forall n, tame (run_action eng n a).
Proof.
  induction a as [text | e | | body IH | body IH] using action_induction;
    intros n st.
  - apply extends_execute. reflexivity.
  - apply extends_refl.
  - apply extends_refl.
  - rewrite run_action_nested.
    apply nested_transaction_tame, run_actions_tame_of, IH.
  - rewrite run_action_try. simpl.
    apply run_actions_tame_of, IH.
Qed.

Lemma run_actions_tame n body : tame (run_actions eng n body).
Proof.
  apply run_actions_tame_of, Forall_forall. intros a _.
  apply run_action_tame.
Qed.

Lemma extends_probe_inv st st1 :
  extends st st1 -> probe_inv st -> probe_inv st1.
Proof.
  intros (new & S1 & B1 & U1 & Q1) [Hle Hone]. unfold probe_inv.
  rewrite S1, failed_probes_app.
  destruct (failed_probes (sent st)) as [| [| k]] eqn:Hfp; [| | lia].
  - split; [lia |]. intros. apply U1. lia.
  - destruct (Q1 (Hone eq_refl)) as [D1 F1].
    rewrite (failed_probes_quiet new F1). split; [lia | done].
Qed.

Lemma extends_quiet st st1 :
  extends st st1 -> dialect st = SpUnsupported ->
  dialect st1 = SpUnsupported
  /\ exists new, sent st1 = sent st ++ new
     /\ Forall (fun x => is_savepoint_protocol x.1 = false) new.
Proof.
  intros (new & S1 & _ & _ & Q1) D. destruct (Q1 D) as [D1 F1].
  split; [done |]. by exists new.
Qed.

Lemma catch_extends {T} st s (err : thrown) :
  extends st s ->
  extends st
    (match execute eng Rollback s with
     | (st', Some e') => (st', @inl thrown T e')
     | (st', None) => (st', inl err)
     end).1.
Proof.
  intros Hs. pose proof (extends_execute Rollback s eq_refl) as Hr.
  destruct (execute eng Rollback s) as [s' [e' |]]; simpl in *;
    by eapply extends_trans.
Qed.

Lemma setTransaction_extends cfg st :
  extends st (setTransaction eng cfg st).1.
Proof.
  unfold setTransaction.
  destruct (getTransactionConfigSQL cfg) as [e | text]; simpl.
  - apply extends_refl.
  - by apply extends_execute.
Qed.

Lemma transaction_try_extends {T} body (result : T) config st0 :
  extends st0 (transaction_try eng body result config st0).1.
Proof.
  unfold transaction_try.
  pose proof (extends_execute Begin st0 eq_refl) as HB.
  destruct (execute eng Begin st0) as [st1 [e |]]; cbn [fst] in HB |- *;
    [done |].
  assert (H2 : extends st0
         (match config with
          | Some cfg => setTransaction eng cfg st1
          | None => (st1, None)
          end).1).
  { destruct config as [cfg |]; cbn [fst]; [| done].
    eapply extends_trans; [exact HB | apply setTransaction_extends]. }
  destruct (match config with
            | Some cfg => setTransaction eng cfg st1
            | None => (st1, None)
            end) as [st2 [e |]]; cbn [fst] in H2 |- *; [done |].
  pose proof (run_actions_tame 0 body st2) as H3.
  destruct (run_actions eng 0 body st2) as [st3 [err |]]; cbn [fst] in H3.
  { apply catch_extends. by eapply extends_trans. }
  assert (H4 : extends st0 st3) by (by eapply extends_trans).
  destruct (rollbackOnly st3).
  - pose proof (extends_execute Rollback st3 eq_refl) as Hr.
    destruct (execute eng Rollback st3) as [st4 [e |]]; cbn [fst] in Hr;
      apply catch_extends; by eapply extends_trans.
  - pose proof (extends_execute Commit st3 eq_refl) as Hc.
    destruct (execute eng Commit st3) as [st4 [e |]]; cbn [fst] in Hc.
    + apply catch_extends. by eapply extends_trans.
    + cbn [fst]. by eapply extends_trans.
Qed.

(** A top-level transaction only extends the state it is given. *)
Lemma transaction_extends {T} c body (result : T) config st :
  extends st (transaction eng c body result config st).1.1.
Proof.
  pose proof (transaction_try_extends body result config
                (MkState (sent st) false (dialect st))) as (new & H).
  unfold transaction.
  destruct c as [| [e |] rel]; try apply extends_refl; by exists new.
Qed.

(** *** Attempts in flight together *)

Lemma enter_nested_unsupported n st :
  dialect st = SpUnsupported -> enter_nested eng n st = (st, Direct).
Proof. intros D. unfold enter_nested. by rewrite D. Qed.

Lemma enter_nested_probes n st :
  dialect st <> SpUnsupported ->
  enter_nested eng n st
  = ((execute eng (Savepoint (S n)) st).1,
     Awaiting (eng (statements st) (Savepoint (S n)))).
Proof.
  intros D. unfold enter_nested.
  assert (areSavepointsUnsupported (dialect st) = false) as ->
    by (by destruct (dialect st)).
  reflexivity.
Qed.

Lemma settle_probe_sent answer st :
  sent (settle_probe answer st).1 = sent st.
Proof.
  unfold settle_probe. destruct answer as [e |]; [| done].
  by destruct (negb (isSavepointSyntaxError e)).
Qed.

Lemma other_sent s st :
  is_savepoint s = false ->
  failed_probes (sent (execute eng s st).1) = failed_probes (sent st)
  /\ dialect (execute eng s st).1 = dialect st.
Proof.
  intros Hs. unfold execute. cbn [fst sent dialect].
  rewrite failed_probes_app, failed_probes_one.
  assert (is_failed_probe (s, eng (statements st) s) = false) as ->
    by (by destruct s).
  split; [lia | done].
Qed.

(** With the flag [unsupported] and no attempt in flight, nothing an
    attempt does changes that. *)
Lemma probe_step_quiet w ev :
  w.2 = ∅ -> dialect w.1 = SpUnsupported ->
  (probe_step eng w ev).2 = ∅
  /\ dialect (probe_step eng w ev).1 = SpUnsupported
  /\ exists new,
       sent (probe_step eng w ev).1 = sent w.1 ++ new
       /\ Forall (fun x => is_savepoint x.1 = false) new.
Proof.
  destruct w as [st aw]. cbn [fst snd]. intros -> D.
  assert (Hnil : exists new : list (sql_stmt * option thrown),
            sent st = sent st ++ new
            /\ Forall (fun x => is_savepoint x.1 = false) new)
    by (exists []; by rewrite app_nil_r).
  destruct ev as [i n | i | s]; cbn [probe_step fst snd].
  - by rewrite (enter_nested_unsupported n st D).
  - by rewrite lookup_empty.
  - destruct s; try done;
      (split; [done |]; split; [done |]; eexists; split;
       [reflexivity | by repeat constructor]).
Qed.

Lemma probe_run_quiet evs : forall w,
  w.2 = ∅ -> dialect w.1 = SpUnsupported ->
  (probe_run eng w evs).2 = ∅
  /\ dialect (probe_run eng w evs).1 = SpUnsupported
  /\ exists new,
       sent (probe_run eng w evs).1 = sent w.1 ++ new
       /\ Forall (fun x => is_savepoint x.1 = false) new.
Proof.
  induction evs as [| ev evs IH]; intros w Hw D.
  - split; [done |]. split; [done |]. exists []. by rewrite app_nil_r.
  - destruct (probe_step_quiet w ev Hw D) as (Hw1 & D1 & n1 & S1 & F1).
    destruct (IH _ Hw1 D1) as (Hw2 & D2 & n2 & S2 & F2).
    change (probe_run eng w (ev :: evs))
      with (probe_run eng (probe_step eng w ev) evs).
    split; [done |]. split; [done |]. exists (n1 ++ n2).
    split; [by rewrite S2, S1, app_assoc | by apply Forall_app].
Qed.

Lemma probe_inv_no_failure st :
  probe_inv st -> dialect st <> SpUnsupported ->
  failed_probes (sent st) = 0%nat.
Proof.
  intros [Hle Hone] D.
  destruct (failed_probes (sent st)) as [| [| k]]; [done | | lia].
  by destruct D; apply Hone.
Qed.

(** Attempts that do not overlap keep the flag tied to the history. *)
Lemma probe_step_apart w ev :
  apart_inv w ->
  match ev with Enter _ _ => w.2 = ∅ | _ => True end ->
  apart_inv (probe_step eng w ev).
Proof.
  destruct w as [st aw]. intros Hinv Hev.
  unfold apart_inv in Hinv |- *. cbn [fst snd] in Hinv.
  destruct ev as [i n | i | s]; cbn [probe_step fst snd] in *.
  - (* an attempt is called: nothing is in flight *)
    subst aw. destruct Hinv as [[_ Hp] | (j & a & Hj & _)];
      [| by destruct (map_non_empty_singleton (M := gmap nat) j a)].
    destruct (unsupported_or_not (dialect st)) as [D | D].
    + rewrite (enter_nested_unsupported n st D). by left.
    + rewrite (enter_nested_probes n st D). right.
      exists i, (eng (statements st) (Savepoint (S n))).
      cbn [fst snd]. split; [done |]. split; [done |].
      unfold execute. cbn [fst sent].
      rewrite failed_probes_app, failed_probes_one,
        (probe_inv_no_failure st Hp D).
      unfold answer_fails, is_failed_probe.
      by destruct (eng (statements st) (Savepoint (S n))).
  - (* an awaited [SAVEPOINT] settles *)
    destruct Hinv as [[-> Hp] | (j & a & -> & D & Hfp)].
    + rewrite lookup_empty. by left.
    + destruct (decide (i = j)) as [-> | Hne].
      * rewrite lookup_singleton_eq, delete_singleton_eq. left.
        cbn [fst snd]. split; [done |]. unfold probe_inv.
        rewrite settle_probe_sent, Hfp. unfold settle_probe, answer_fails.
        destruct a as [e |]; [destruct (isSavepointSyntaxError e) |];
          cbn [negb fst dialect set_dialect]; split; try lia; done.
      * rewrite lookup_singleton_ne by done. right. by exists j, a.
  - (* another statement *)
    assert (Hsame : is_savepoint s = false ->
              apart_inv ((execute eng s st).1, aw)).
    { intros Hs. destruct (other_sent s st Hs) as [Hf Hd].
      destruct Hinv as [[-> [Hle Hone]] | (j & a & -> & D & Hfp)].
      - left. split; [done |]. unfold probe_inv. cbn [fst].
        rewrite Hf, Hd. by split.
      - right. exists j, a. cbn [fst snd]. rewrite Hf, Hd. by repeat split. }
    destruct s; try (by apply Hsame). exact Hinv.
Qed.

Lemma probe_run_apart evs : forall w,
  apart_inv w -> probes_apart eng w evs ->
  apart_inv (probe_run eng w evs).
Proof.
  induction evs as [| ev evs IH]; intros w Hinv Hap; [done |].
  destruct Hap as [Hev Hap].
  change (probe_run eng w (ev :: evs))
    with (probe_run eng (probe_step eng w ev) evs).
  apply IH; [by apply probe_step_apart | done].
Qed.

Lemma apart_inv_bound w :
  apart_inv w ->
  (failed_probes (sent w.1) <= 1)%nat /\ (w.2 = ∅ -> probe_inv w.1).
Proof.
  intros [[Hw Hp] | (i & a & Hw & D & Hfp)].
  - split; [apply Hp | done].
  - split.
    + rewrite Hfp. unfold answer_fails.
      destruct a as [e |]; [destruct (isSavepointSyntaxError e) |]; lia.
    + intros He. rewrite He in Hw.
      by destruct (map_non_empty_singleton (M := gmap nat) i a).
Qed.

(** *** A transaction on its own is a history of attempts that do not
    overlap *)

Lemma same_history_refl st : same_history st st.
Proof. by split. Qed.

Lemma same_history_trans st1 st2 st3 :
  same_history st1 st2 -> same_history st2 st3 -> same_history st1 st3.
Proof. intros [A B] [C D]. split; congruence. Qed.

Lemma execute_same s st st' :
  same_history st st' ->
  same_history (execute eng s st).1 (execute eng s st').1
  /\ (execute eng s st).2 = (execute eng s st').2.
Proof.
  intros [Hs Hd]. unfold execute, statements, same_history. cbn [fst snd sent dialect].
  rewrite Hs. by repeat split.
Qed.

Lemma enter_nested_same n st st' :
  same_history st st' ->
  same_history (enter_nested eng n st).1 (enter_nested eng n st').1
  /\ (enter_nested eng n st).2 = (enter_nested eng n st').2.
Proof.
  intros H. pose proof H as [Hs Hd]. unfold enter_nested. rewrite Hd.
  destruct (areSavepointsUnsupported (dialect st')); [done |].
  destruct (execute_same (Savepoint (S n)) st st' H) as [H1 H2].
  destruct (execute eng (Savepoint (S n)) st) as [s1 a1].
  destruct (execute eng (Savepoint (S n)) st') as [s2 a2].
  cbn [fst snd] in *. by subst a2.
Qed.

Lemma settle_probe_same answer st st' :
  same_history st st' ->
  same_history (settle_probe answer st).1 (settle_probe answer st').1.
Proof.
  intros [Hs Hd]. unfold settle_probe.
  destruct answer as [e |]; [destruct (negb (isSavepointSyntaxError e)) |];
    by split.
Qed.

Lemma probe_step_same ev st st' aw :
  same_history st st' ->
  same_history (probe_step eng (st, aw) ev).1 (probe_step eng (st', aw) ev).1
  /\ (probe_step eng (st, aw) ev).2 = (probe_step eng (st', aw) ev).2.
Proof.
  intros H. destruct ev as [i n | i | s]; cbn [probe_step fst snd].
  - destruct (enter_nested_same n st st' H) as [H1 H2].
    destruct (enter_nested eng n st) as [s1 p1].
    destruct (enter_nested eng n st') as [s2 p2].
    cbn [fst snd] in *. subst p2. by destruct p1.
  - destruct (aw !! i) as [a |]; [| done]. cbn [fst snd].
    split; [by apply settle_probe_same | done].
  - destruct s; try done;
      (split; [by apply execute_same | done]).
Qed.

Lemma probe_run_same evs : forall st st' aw,
  same_history st st' ->
  same_history (probe_run eng (st, aw) evs).1 (probe_run eng (st', aw) evs).1
  /\ (probe_run eng (st, aw) evs).2 = (probe_run eng (st', aw) evs).2.
Proof.
  induction evs as [| ev evs IH]; intros st st' aw H; [done |].
  change (probe_run eng ?w (ev :: evs))
    with (probe_run eng (probe_step eng w ev) evs).
  destruct (probe_step_same ev st st' aw H) as [H1 H2].
  destruct (probe_step eng (st, aw) ev) as [s1 a1].
  destruct (probe_step eng (st', aw) ev) as [s2 a2].
  cbn [fst snd] in *. subst a2. by apply IH.
Qed.

Lemma probes_apart_same evs : forall st st' aw,
  same_history st st' ->
  probes_apart eng (st, aw) evs -> probes_apart eng (st', aw) evs.
Proof.
  induction evs as [| ev evs IH]; intros st st' aw H; [done |].
  cbn [probes_apart]. intros [Hev Hap]. split; [exact Hev |].
  destruct (probe_step_same ev st st' aw H) as [H1 H2].
  destruct (probe_step eng (st, aw) ev) as [s1 a1].
  destruct (probe_step eng (st', aw) ev) as [s2 a2].
  cbn [fst snd] in *. subst a2. by apply (IH s1).
Qed.

Lemma probe_run_app w a b :
  probe_run eng w (a ++ b) = probe_run eng (probe_run eng w a) b.
Proof. apply foldl_app. Qed.

Lemma probes_apart_app a : forall w b,
  probes_apart eng w a -> probes_apart eng (probe_run eng w a) b ->
  probes_apart eng w (a ++ b).
Proof.
  induction a as [| ev a IH]; intros w b Ha Hb; [done |].
  destruct Ha as [Hev Ha]. split; [done |]. by apply IH.
Qed.

Lemma history_nil st st' : same_history st st' -> history_of eng st [] st'.
Proof. intros [A B]. by repeat split. Qed.

Lemma history_same_r st evs st1 st2 :
  history_of eng st evs st1 -> same_history st1 st2 ->
  history_of eng st evs st2.
Proof.
  intros (Ha & He & Hs) H. repeat split; try done.
  all: by destruct (same_history_trans _ _ _ Hs H).
Qed.

Lemma history_app st e1 st1 e2 st2 :
  history_of eng st e1 st1 -> history_of eng st1 e2 st2 ->
  history_of eng st (e1 ++ e2) st2.
Proof.
  intros (A1 & E1 & S1) (A2 & E2 & S2).
  destruct (probe_run eng (st, ∅) e1) as [s1 a1] eqn:R1.
  cbn [fst snd] in *. subst a1.
  assert (S1' : same_history st1 s1) by (destruct S1; by split).
  destruct (probe_run_same e2 st1 s1 ∅ S1') as [H1 H2].
  unfold history_of. rewrite probe_run_app, R1.
  split; [| split].
  - apply probes_apart_app; [done |]. rewrite R1.
    by apply (probes_apart_same e2 st1).
  - by rewrite <- H2.
  - destruct H1, S2. split; congruence.
Qed.

Lemma history_other s st :
  is_savepoint s = false ->
  history_of eng st [Other s] (execute eng s st).1.
Proof.
  intros Hs. unfold history_of. cbn.
  destruct s; try done; by repeat split.
Qed.

Lemma history_direct n st :
  dialect st = SpUnsupported -> history_of eng st [Enter 0 n] st.
Proof.
  intros D. unfold history_of, probe_run. cbn [probes_apart foldl probe_step fst snd].
  rewrite (enter_nested_unsupported n st D).
  by repeat split.
Qed.

Lemma history_probe n st :
  dialect st <> SpUnsupported ->
  history_of eng st [Enter 0 n; Settle 0]
    (settle_probe (eng (statements st) (Savepoint (S n)))
       (execute eng (Savepoint (S n)) st).1).1.
Proof.
  intros D. unfold history_of, probe_run.
  cbn [probes_apart foldl probe_step fst snd].
  rewrite (enter_nested_probes n st D). cbn [fst snd].
  rewrite lookup_insert_eq. cbn [fst snd].
  rewrite delete_insert_eq, delete_empty.
  by repeat split.
Qed.

Lemma history_mark st evs st1 :
  history_of eng st evs st1 -> history_of eng st evs (markRollbackOnly st1).
Proof. intros H. eapply history_same_r; [exact H | by split]. Qed.

Lemma history_then_other s st evs st1 :
  is_savepoint s = false ->
  history_of eng st evs st1 ->
  history_of eng st (evs ++ [Other s]) (execute eng s st1).1.
Proof.
  intros Hs H. eapply history_app; [exact H | by apply history_other].
Qed.

Lemma runNestedWithoutSavepoint_history
    (f : state -> state * option thrown) :
  apart_history eng f -> apart_history eng (runNestedWithoutSavepoint f).
Proof.
  intros Hf st. destruct (Hf st) as (evs & H). exists evs.
  unfold runNestedWithoutSavepoint.
  destruct (f st) as [st1 [e |]]; cbn [fst] in *;
    [by apply history_mark | done].
Qed.

Lemma nested_transaction_history n (f : state -> state * option thrown) :
  apart_history eng f -> apart_history eng (nested_transaction eng n f).
Proof.
  intros Hf st. rewrite nested_transaction_unfold.
  destruct (unsupported_or_not (dialect st)) as [D | D].
  { rewrite D. cbn [areSavepointsUnsupported].
    destruct (runNestedWithoutSavepoint_history f Hf st) as (evs & H).
    exists ([Enter 0 n] ++ evs).
    eapply history_app; [by apply history_direct | exact H]. }
  assert (areSavepointsUnsupported (dialect st) = false) as ->
    by (by destruct (dialect st)).
  pose proof (history_probe n st D) as HP.
  destruct (execute eng (Savepoint (S n)) st) as [st1 a] eqn:He.
  assert (Ha : eng (statements st) (Savepoint (S n)) = a)
    by (unfold execute in He; congruence).
  rewrite Ha in HP. cbn [fst] in HP. unfold settle_probe in HP.
  destruct a as [e |].
  - destruct (negb (isSavepointSyntaxError e)); cbn [fst] in HP |- *.
    + by exists [Enter 0 n; Settle 0].
    + destruct (runNestedWithoutSavepoint_history f Hf
                  (set_dialect (markSavepointsUnsupported (dialect st1)) st1))
        as (evs & H).
      exists ([Enter 0 n; Settle 0] ++ evs).
      eapply history_app; [exact HP | exact H].
  - cbn [fst] in HP. cbv zeta.
    destruct (Hf (set_dialect (markSavepointsSupported (dialect st1)) st1))
      as (evs & H).
    pose proof (history_app _ _ _ _ _ HP H) as H3.
    destruct (f (set_dialect (markSavepointsSupported (dialect st1)) st1))
      as [st3 [err |]]; cbn [fst] in H3.
    + pose proof (history_then_other (RollbackTo (S n)) _ _ _ eq_refl H3)
        as H4.
      destruct (execute eng (RollbackTo (S n)) st3) as [st4 [e' |]];
        cbn [fst] in H4 |- *; eexists;
        [exact H4 | apply history_mark; exact H4].
    + pose proof (history_then_other (ReleaseSavepoint (S n)) _ _ _ eq_refl
                    H3) as H4.
      destruct (execute eng (ReleaseSavepoint (S n)) st3) as [st4 [e' |]];
        cbn [fst] in H4 |- *; [| eexists; exact H4].
      pose proof (history_then_other (RollbackTo (S n)) _ _ _ eq_refl H4)
        as H5.
      destruct (execute eng (RollbackTo (S n)) st4) as [st5 [e'' |]];
        cbn [fst] in H5 |- *; eexists;
        [exact H5 | apply history_mark; exact H5].
Qed.

Lemma run_actions_history_of body :
  Forall (fun a => forall n, apart_history eng (run_action eng n a)) body ->
  forall n, apart_history eng (run_actions eng n body).
Proof.
  induction 1 as [| a body Ha _ IH]; intros n st; cbn [run_actions].
  - exists []. by apply history_nil, same_history_refl.
  - destruct (Ha n st) as (e1 & H1).
    destruct (run_action eng n a st) as [st1 [e |]]; cbn [fst] in *;
      [by exists e1 |].
    destruct (IH n st1) as (e2 & H2). exists (e1 ++ e2).
    eapply history_app; [exact H1 | exact H2].
Qed.

Lemma run_action_history a : forall n, apart_history eng (run_action eng n a).
Proof.
  induction a as [text | e | | body IH | body IH]
    using action_induction; intros n st.
  - exists [Other (Query text)]. by apply history_other.
  - exists []. by apply history_nil, same_history_refl.
  - exists []. by apply history_nil, same_history_refl.
  - rewrite run_action_nested.
    apply nested_transaction_history, run_actions_history_of, IH.
  - rewrite run_action_try. cbn [fst].
    apply run_actions_history_of, IH.
Qed.

Lemma run_actions_history n body : apart_history eng (run_actions eng n body).
Proof.
  apply run_actions_history_of, Forall_forall. intros a _.
  apply run_action_history.
Qed.

Lemma catch_history {T} st evs s (err : thrown) :
  history_of eng st evs s ->
  exists evs',
    history_of eng st evs'
      (match execute eng Rollback s with
       | (st', Some e') => (st', @inl thrown T e')
       | (st', None) => (st', inl err)
       end).1.
Proof.
  intros H.
  pose proof (history_then_other Rollback _ _ _ eq_refl H) as H1.
  destruct (execute eng Rollback s) as [s' [e' |]]; cbn [fst] in *;
    by eexists.
Qed.

Lemma transaction_try_history {T} body (result : T) config :
  apart_history eng (transaction_try eng body result config).
Proof.
  intros st0. unfold transaction_try.
  pose proof (history_other Begin st0 eq_refl) as HB.
  destruct (execute eng Begin st0) as [st1 [e |]]; cbn [fst] in HB |- *;
    [by eexists |].
  assert (H2 : exists evs, history_of eng st0 evs
         (match config with
          | Some cfg => setTransaction eng cfg st1
          | None => (st1, None)
          end).1).
  { destruct config as [cfg |]; cbn [fst]; [| by eexists].
    unfold setTransaction.
    destruct (getTransactionConfigSQL cfg) as [e | text]; cbn [fst];
      [by eexists |].
    eexists. by apply (history_then_other (SetTransaction text) _ _ _ eq_refl HB). }
  destruct H2 as (e2 & H2).
  destruct (match config with
            | Some cfg => setTransaction eng cfg st1
            | None => (st1, None)
            end) as [st2 [e |]]; cbn [fst] in H2 |- *; [by eexists |].
  destruct (run_actions_history 0 body st2) as (e3 & H3).
  pose proof (history_app _ _ _ _ _ H2 H3) as H4.
  destruct (run_actions eng 0 body st2) as [st3 [err |]]; cbn [fst] in H4.
  { by eapply catch_history. }
  destruct (rollbackOnly st3).
  - pose proof (history_then_other Rollback _ _ _ eq_refl H4) as H5.
    destruct (execute eng Rollback st3) as [st4 [e |]]; cbn [fst] in H5;
      by eapply catch_history.
  - pose proof (history_then_other Commit _ _ _ eq_refl H4) as H5.
    destruct (execute eng Commit st3) as [st4 [e |]]; cbn [fst] in H5.
    + by eapply catch_history.
    + by eexists.
Qed.

(** A top-level transaction run on its own is a history of attempts
    that do not overlap. *)
Lemma transaction_history {T} c body (result : T) config st :
  exists evs,
    history_of eng st evs (transaction eng c body result config st).1.1.
Proof.
  destruct (transaction_try_history body result config
              (MkState (sent st) false (dialect st))) as (evs & Ha & He & Hs).
  assert (Hst : same_history st (MkState (sent st) false (dialect st)))
    by (by split).
  set (st0 := MkState (sent st) false (dialect st)) in *.
  assert (Hts : same_history st0 st) by (by split).
  destruct (probe_run_same evs st st0 ∅ Hst) as [H1 H2].
  assert (H : history_of eng st evs
                (transaction_try eng body result config st0).1).
  { split; [by apply (probes_apart_same evs st0 st) |].
    split; [by rewrite H2 |].
    eapply same_history_trans; [exact H1 | exact Hs]. }
  unfold transaction.
  destruct c as [| [e |] rel]; cbn [fst].
  - exists evs. eapply history_same_r; [exact H | by split].
  - exists []. by apply history_nil, same_history_refl.
  - exists evs. eapply history_same_r; [exact H | by split].
Qed.

(** The flag changes only when the [SAVEPOINT] an attempt awaits
    settles, and then by its answer. *)
Lemma flag_written_by_settling w ev :
  dialect (probe_step eng w ev).1 <> dialect w.1 ->
  exists i answer,
    ev = Settle i /\ w.2 !! i = Some answer
    /\ match answer with
       | None => dialect (probe_step eng w ev).1 = SpSupported
       | Some e =>
           isSavepointSyntaxError e = true
           /\ dialect (probe_step eng w ev).1 = SpUnsupported
       end.
Proof.
  destruct w as [st aw]. destruct ev as [i n | i | s];
    cbn [probe_step fst snd].
  - unfold enter_nested.
    destruct (areSavepointsUnsupported (dialect st)); by intros [].
  - destruct (aw !! i) as [a |] eqn:Hi; [| by intros []].
    cbn [fst]. intros Hd. exists i, a. split; [done |]. split; [done |].
    unfold settle_probe in *.
    destruct a as [e |]; [| done].
    destruct (isSavepointSyntaxError e); cbn [negb fst] in *; [done |].
    by destruct Hd.
  - destruct s; by intros [].
Qed.

(** C5, as amended.  The capability flag has three values.  While it
    is [unsupported] a nested transaction is exactly the direct run of its
    callback; whatever a callback or a whole transaction then does, the
    flag stays [unsupported] and no [SAVEPOINT], [RELEASE SAVEPOINT] or
    [ROLLBACK TO SAVEPOINT] is sent.  While it is not [unsupported], each
    nested transaction sends [SAVEPOINT] and the answer decides: an error
    with the savepoint-syntax signature sets the flag to [unsupported] and
    runs the callback directly; any other error is passed on and leaves
    the flag as it was; success runs the callback with the flag
    [supported].  For nested transactions that share the dialect
    instance and may be in flight together, in any interleaving: once
    the flag is [unsupported] with no attempt suspended in its probe, it
    stays [unsupported], no later attempt is suspended and no
    [SAVEPOINT] is sent again; and when no attempt is called while
    another is suspended in its probe, at most one [SAVEPOINT] is ever
    answered with the savepoint-syntax signature, and whenever none is in
    flight the flag is [unsupported] if one was.  The flag changes only
    when the [SAVEPOINT] an attempt awaits settles.  A transaction run on
    its own, whose callback awaits its nested transactions one after the
    other, is a history in which no attempt is called while another is
    suspended, so that all this holds of it. *)
Theorem savepoint_downgrade_is_permanent :
  (forall d, d = SpUnknown \/ d = SpSupported \/ d = SpUnsupported)
  /\ (forall n f st,
        dialect st = SpUnsupported ->
        nested_transaction eng n f st = runNestedWithoutSavepoint f st)
  /\ (forall n body st,
        dialect st = SpUnsupported ->
        dialect (run_actions eng n body st).1 = SpUnsupported
        /\ exists new,
             sent (run_actions eng n body st).1 = sent st ++ new
             /\ Forall (fun x => is_savepoint_protocol x.1 = false) new)
  /\ (forall (T : Type) c body (result : T) config st,
        dialect st = SpUnsupported ->
        dialect (transaction eng c body result config st).1.1
        = SpUnsupported
        /\ exists new,
             sent (transaction eng c body result config st).1.1
             = sent st ++ new
             /\ Forall (fun x => is_savepoint_protocol x.1 = false) new)
  /\ (forall n f st e,
        dialect st <> SpUnsupported ->
        eng (statements st) (Savepoint (S n)) = Some e ->
        nested_transaction eng n f st
        = if isSavepointSyntaxError e
          then runNestedWithoutSavepoint f
                 (set_dialect SpUnsupported
                    (execute eng (Savepoint (S n)) st).1)
          else ((execute eng (Savepoint (S n)) st).1, Some e))
  /\ (forall n f g st,
        dialect st <> SpUnsupported ->
        eng (statements st) (Savepoint (S n)) = None ->
        (forall s, dialect s = SpSupported -> f s = g s) ->
        nested_transaction eng n f st = nested_transaction eng n g st)
  /\ (forall w ev,
        dialect (probe_step eng w ev).1 <> dialect w.1 ->
        exists i answer,
          ev = Settle i /\ w.2 !! i = Some answer
          /\ match answer with
             | None => dialect (probe_step eng w ev).1 = SpSupported
             | Some e =>
                 isSavepointSyntaxError e = true
                 /\ dialect (probe_step eng w ev).1 = SpUnsupported
             end)
  /\ (forall evs st,
        dialect st = SpUnsupported ->
        (probe_run eng (st, ∅) evs).2 = ∅
        /\ dialect (probe_run eng (st, ∅) evs).1 = SpUnsupported
        /\ exists new,
             sent (probe_run eng (st, ∅) evs).1 = sent st ++ new
             /\ Forall (fun x => is_savepoint x.1 = false) new)
  /\ probe_inv (MkState [] false SpUnknown)
  /\ (forall evs st,
        probe_inv st ->
        probes_apart eng (st, ∅) evs ->
        (failed_probes (sent (probe_run eng (st, ∅) evs).1) <= 1)%nat
        /\ ((probe_run eng (st, ∅) evs).2 = ∅ ->
            probe_inv (probe_run eng (st, ∅) evs).1))
  /\ (forall (T : Type) c body (result : T) config st,
        exists evs,
          history_of eng st evs
            (transaction eng c body result config st).1.1)
  /\ (forall (T : Type) c body (result : T) config st,
        probe_inv st ->
        probe_inv (transaction eng c body result config st).1.1).
Proof.
  split; [| split; [| split; [| split; [| split; [| split; [| split;
    [| split; [| split; [| split; [| split]]]]]]]]]].
  - intros [| |]; auto.
  - intros n f st D. rewrite nested_transaction_unfold. by rewrite D.
  - intros n body st D.
    by apply extends_quiet; [apply run_actions_tame |].
  - intros T c body result config st D.
    by apply extends_quiet; [apply transaction_extends |].
  - intros n f st e D He. rewrite nested_transaction_unfold.
    assert (areSavepointsUnsupported (dialect st) = false) as ->
      by (by destruct (dialect st)).
    rewrite !(execute_answer _ _ _ He). cbn [fst snd].
    by destruct (isSavepointSyntaxError e).
  - intros n f g st D He Hfg. rewrite !nested_transaction_unfold.
    assert (areSavepointsUnsupported (dialect st) = false) as ->
      by (by destruct (dialect st)).
    rewrite !(execute_answer _ _ _ He). cbv zeta. by rewrite Hfg.
  - apply flag_written_by_settling.
  - intros evs st D. by apply (probe_run_quiet evs (st, ∅)).
  - split; [unfold failed_probes; simpl; lia |].
    unfold failed_probes. simpl. lia.
  - intros evs st Hp Hap.
    apply apart_inv_bound, probe_run_apart; [by left | done].
  - intros T c body result config st. apply transaction_history.
  - intros T c body result config st.
    apply extends_probe_inv, transaction_extends.
Qed.

Lemma invalid_config_refused config :
  invalid_config config ->
  exists e, getTransactionConfigSQL config = inl e /\ is_config_error e.
Proof.
  assert (Hin : forall set x, x ∉ set -> negb (has set x) = true).
  { intros set x Hx. unfold has. by rewrite bool_decide_eq_false_2. }
  assert (Htr : forall x, x <> ""%string -> truthy (Some x) = Some x)
    by (by intros [| ? ?]).
  unfold getTransactionConfigSQL.
  destruct (check_isolation config) as [e |] eqn:Hi.
  { intros _. exists e. split; [done |].
    unfold check_isolation in Hi.
    destruct (truthy (isolationLevel config)) as [level |]; [| done].
    destruct (negb _); [| done]. injection Hi as <-.
    exists level. auto. }
  destruct (check_access config) as [e |] eqn:Ha.
  { intros _. exists e. split; [done |].
    unfold check_access in Ha.
    destruct (truthy (accessMode config)) as [mode |]; [| done].
    destruct (negb _); [| done]. injection Ha as <-.
    exists mode. auto. }
  intros [(level & Hl & Hne & Hbad) | [(mode & Hm & Hne & Hbad)
                                      | (r & Hr)]].
  - unfold check_isolation in Hi.
    by rewrite Hl, (Htr _ Hne), (Hin _ _ Hbad) in Hi.
  - unfold check_access in Ha.
    by rewrite Hm, (Htr _ Hne), (Hin _ _ Hbad) in Ha.
  - unfold check_deferrable. rewrite Hr.
    eexists. split; [done |]. exists r. auto.
Qed.

(** The three ways a top-level transaction without configuration ends
    once [BEGIN TRANSACTION] was accepted. *)
Lemma transaction_try_commit {T} body (result : T) st0 st1 st3 :
  execute eng Begin st0 = (st1, None) ->
  run_actions eng 0 body st1 = (st3, None) ->
  rollbackOnly st3 = false ->
  eng (statements st3) Commit = None ->
  transaction_try eng body result None st0
  = ((execute eng Commit st3).1, inr result).
Proof.
  intros HB Hrun Hro HC. unfold transaction_try.
  rewrite HB, Hrun, Hro. by rewrite !(execute_answer _ _ _ HC).
Qed.

Lemma transaction_try_rethrow {T} body (result : T) st0 st1 st3 error :
  execute eng Begin st0 = (st1, None) ->
  run_actions eng 0 body st1 = (st3, Some error) ->
  eng (statements st3) Rollback = None ->
  transaction_try eng body result None st0
  = ((execute eng Rollback st3).1, inl error).
Proof.
  intros HB Hrun HR. unfold transaction_try.
  rewrite HB, Hrun. by rewrite !(execute_answer _ _ _ HR).
Qed.

Lemma transaction_try_rollback_only {T} body (result : T) st0 st1 st3 :
  execute eng Begin st0 = (st1, None) ->
  run_actions eng 0 body st1 = (st3, None) ->
  rollbackOnly st3 = true ->
  eng (statements st3) Rollback = None ->
  let st4 := (execute eng Rollback st3).1 in
  transaction_try eng body result None st0
  = ((execute eng Rollback st4).1,
     inl (default TransactionRollbackError
            (eng (statements st4) Rollback))).
Proof.
  intros HB Hrun Hro HR st4. unfold transaction_try.
  rewrite HB, Hrun, Hro. subst st4.
  rewrite !(execute_answer _ _ _ HR). cbn [fst snd].
  set (st4 := MkState _ _ _).
  rewrite (execute_answer Rollback st4 _ eq_refl).
  by destruct (eng (statements st4) Rollback).
Qed.

(** C3, as amended.  When the configuration given to
    [session.transaction] holds a non-empty isolation level or access mode
    outside its allow-list, or a [deferrable] that is not a boolean, and
    [BEGIN TRANSACTION] has been accepted, the transaction fails: with
    the matching descriptive error, or, when the client is a pool whose
    [release] of the pinned connection throws, with the error of
    [release].  [BEGIN TRANSACTION] is the first statement sent, and
    neither a [set transaction] nor any statement of the callback is
    sent, so no text of the configuration reaches the engine. *)
Theorem invalid_config_rejected_before_it_is_sent {T : Type}
    (c : client) (body : list action) (result : T)
    (config : PgTransactionConfig) (st : state) :
  invalid_config config ->
  acquire_error_of c = None ->
  eng (statements st) Begin = None ->
  exists e new,
    (transaction eng c body result (Some config) st).2
    = finally_release c (inl e)
    /\ is_config_error e
    /\ statements (transaction eng c body result (Some config) st).1.1
       = statements st ++ Begin :: new
    /\ Forall (fun s => carries_text s = false) new.
Proof.
  intros Hbad Hc HB.
  destruct (invalid_config_refused config Hbad) as (e & He & Herr).
  exists e, []. unfold transaction.
  assert (Htry : transaction_try eng body result (Some config)
                   (MkState (sent st) false (dialect st))
                 = (MkState (sent st ++ [(Begin, None)]) false (dialect st),
                    inl e)).
  { unfold transaction_try.
    rewrite (execute_answer Begin (MkState (sent st) false (dialect st))
               None HB).
    unfold setTransaction. by rewrite He. }
  destruct c as [| [x |] rel]; [| done |];
    rewrite Htry; cbn [fst snd];
    (repeat split; [done | | done]);
    unfold statements; cbn [sent]; by rewrite fmap_app.
Qed.

End Facts.

Lemma savepoint_downgrade_is_permanent_witness :
  let st := MkState [] false SpUnsupported in
  let st0 := MkState [] false SpUnknown in
  let evs := [Enter 0 0; Other (Query "select 1"); Settle 0;
              Enter 1 1; Settle 1] in
  (dialect st = SpUnsupported
   /\ nested_transaction strict_engine 0 (fun s => (s, None)) st
      = (st, None))
  /\ (probe_inv st0
      /\ probes_apart strict_engine (st0, ∅) evs
      /\ (failed_probes (sent (probe_run strict_engine (st0, ∅) evs).1)
          <= 1)%nat).
Proof.
  intros st st0 evs.
  destruct (savepoint_downgrade_is_permanent strict_engine)
    as (_ & H2 & _ & _ & _ & _ & _ & _ & H8 & H9 & _).
  assert (Hap : probes_apart strict_engine (st0, ∅) evs)
    by (vm_compute; repeat split).
  split; [split; [reflexivity |] | split; [exact H8 | split; [exact Hap |]]].
  - rewrite (H2 0%nat (fun s => (s, None)) st eq_refl). reflexivity.
  - exact (proj1 (H9 evs st0 H8 Hap)).
Defined.

(** C5 as stated fails: the flag is not written only by the first nested
    transaction, and the probe is not run at most once.  When the first
    [SAVEPOINT] fails for another reason than syntax the flag is still
    [unknown] after it and it is the second attempt that sets it; a flag
    the first attempt set to [supported] is set to [unsupported] by a
    later attempt whose [SAVEPOINT] is a syntax error; and of two
    attempts called before the [SAVEPOINT] of either has settled, both
    find the flag [unknown], both send [SAVEPOINT] and both are answered
    with the syntax error. *)
Lemma probe_is_not_once_per_dialect :
  let st0 := MkState [] false SpUnknown in
  (let st1 := (run_actions flaky_engine 0 [ATry [ANested []]] st0).1 in
   let st2 := (run_actions flaky_engine 0 [ANested []] st1).1 in
   dialect st1 = SpUnknown /\ dialect st2 = SpUnsupported)
  /\ (let st1 := (run_actions fickle_engine 0 [ANested []] st0).1 in
      let st2 := (run_actions fickle_engine 0 [ANested []] st1).1 in
      dialect st1 = SpSupported /\ dialect st2 = SpUnsupported)
  /\ (let w := probe_run strict_engine (st0, ∅)
                 [Enter 0 0; Enter 1 0; Settle 0; Settle 1] in
      statements w.1 = [Savepoint 1; Savepoint 1]
      /\ failed_probes (sent w.1) = 2%nat
      /\ dialect w.1 = SpUnsupported).
Proof. vm_compute. repeat split. Qed.

Lemma injected_config_invalid : invalid_config injected_config.
Proof.
  left. eexists. split; [reflexivity |]. split; [done |].
  unfold VALID_TRANSACTION_ISOLATION_LEVELS.
  rewrite !not_elem_of_cons. repeat split; try done.
  apply not_elem_of_nil.
Qed.

Lemma invalid_config_rejected_before_it_is_sent_witness :
  exists e,
    (transaction lenient_engine Connection [AExec "insert"%string] 7%nat
       (Some injected_config) (MkState [] false SpUnknown)).2 = inl e
    /\ is_config_error e.
Proof.
  destruct (invalid_config_rejected_before_it_is_sent lenient_engine
              Connection [AExec "insert"%string] 7%nat injected_config
              (MkState [] false SpUnknown) injected_config_invalid
              eq_refl eq_refl)
    as (e & new & H1 & H2 & _).
  by exists e.
Defined.

(** C3 as stated fails: validation runs inside [set transaction], after
    [BEGIN TRANSACTION] has been sent, so one statement has reached the
    engine when the invalid isolation level is rejected.  An empty
    isolation level, although outside the allow-list, is not rejected at
    all: it is treated as absent and the transaction commits.  When the
    pool's [release] throws in the [finally], the caller gets that error
    and not the descriptive one.  And [db.transaction] drops the
    configuration, so that an invalid one is never looked at. *)
Lemma invalid_config_rejected_only_after_begin :
  let st0 := MkState [] false SpUnknown in
  (let r := transaction lenient_engine (PoolClient None None)
              [AExec "insert"%string] 7%nat (Some injected_config) st0 in
   r.2 = inl (JsError (invalid_isolation_message
                         "serializable; drop table users"))
   /\ statements r.1.1 = [Begin])
  /\ (let r := transaction lenient_engine Connection
                 [AExec "insert"%string] 7%nat
                 (Some {| isolationLevel := Some ""%string;
                          accessMode := None; deferrable := None |})
                 st0 in
      r.2 = inr 7%nat
      /\ statements r.1.1
         = [Begin; SetTransaction ""; Query "insert"; Commit])
  /\ (let r := transaction lenient_engine
                 (PoolClient None (Some (JsError "release failed")))
                 [AExec "insert"%string] 7%nat (Some injected_config)
                 st0 in
      r.2 = inl (JsError "release failed")
      /\ statements r.1.1 = [Begin])
  /\ (let r := database_transaction lenient_engine Connection
                 [AExec "insert"%string] 7%nat (Some injected_config)
                 st0 in
      r.2 = inr 7%nat
      /\ statements r.1.1 = [Begin; Query "insert"; Commit]).
Proof. vm_compute. repeat split. Qed.

(** C4 fails on the code where the callback completes with the session
    marked rollback-only.  [rollback] is sent and a
    [TransactionRollbackError] is thrown inside the [try] whose [catch]
    sends [rollback] again; an engine that refuses [ROLLBACK] when no
    transaction is active answers the second one with an error, and that
    error is what the caller gets.  With an engine that accepts the second
    [rollback] the caller gets [TransactionRollbackError], after two
    [rollback]s. *)
Lemma rollback_only_transaction_rolls_back_twice :
  let body := [ATry [ANested [AThrow (JsError "boom")]]] in
  let st0 := MkState [] false SpUnknown in
  (let r := transaction strict_engine Connection body 7%nat None st0 in
   statements r.1.1 = [Begin; Savepoint 1; Rollback; Rollback]
   /\ r.2 = inl (JsError
       "TransactionContext Error: cannot rollback - no transaction is active"))
  /\ (let r := transaction lenient_engine Connection body 7%nat None st0 in
      statements r.1.1
      = [Begin; Savepoint 1; RollbackTo 1; Rollback; Rollback]
      /\ r.2 = inl TransactionRollbackError).
Proof. vm_compute. repeat split. Qed.

End TxFacts.

(** ** More facts about the connection pool *)

Module PoolMore.
#[local] Set Warnings "-clear-no-such-hyp".
Import Pool PoolConfig.

Section Facts.

Variable o : options.
Variable cc : conn -> option ext_error.

Lemma run_preserves (I : pool -> Prop) :
  (forall st ev, I st -> I (step o cc st ev).1) ->
  forall evs st, I st -> I (run o cc st evs).1.
Proof.
  intros Hstep. induction evs as [| ev evs IH]; intros st H; simpl; [done |].
  pose proof (Hstep st ev H) as H1.
  destruct (step o cc st ev) as [st1 e1].
  specialize (IH st1 H1).
  by destruct (run o cc st1 evs) as [st2 e2].
Qed.

(** When the scan runs out of entries, nothing is left on the stack. *)
Lemma scan_idle_none_rest now : forall l tot md acc,
  (scan_idle o cc now l tot md acc).1.1.1.1 = ScanNone ->
  (scan_idle o cc now l tot md acc).1.1.1.2 = [].
Proof.
  induction l as [| p rest IH]; intros tot md acc; simpl; [done |].
  destruct (shouldRecycle o p now); simpl; [| discriminate].
  destruct (cc (connection p)); simpl; [discriminate | apply IH].
Qed.

Lemma acquire_no_wait_while_idle client tid now st :
  no_wait_while_idle st ->
  no_wait_while_idle (acquire o cc client tid now st).1.
Proof.
  unfold no_wait_while_idle, acquire. intros H.
  destruct (closed st); [done |].
  pose proof (scan_idle_none_rest now (idle st) (total st) (metadata st) [])
    as Hnone.
  destruct (idle st) as [| p l] eqn:Hidle.
  - simpl. destruct (total st <? size o); [done |].
    destruct (_ <=? _); done.
  - assert (Hw : waiting st = []).
    { destruct (waiting st); [done |]. by discriminate H. }
    destruct (scan_idle _ _ _ _ _ _ _) as [[[[res rest] tot] md] effs].
    simpl in Hnone. rewrite Hw.
    destruct res; simpl; try done.
    rewrite (Hnone eq_refl).
    destruct (tot <? size o); [done |].
    by destruct (_ <=? _).
Qed.

Lemma step_no_wait_while_idle st ev :
  no_wait_while_idle st -> no_wait_while_idle (step o cc st ev).1.
Proof.
  intros H. destruct ev as [a t now | a r now | t | c t now |]; simpl.
  - by apply acquire_no_wait_while_idle.
  - unfold acquire_created.
    destruct (negb _); [done |].
    destruct r as [e | c su]; simpl; [done |].
    destruct (if opt_setup o then su else None).
    + by destruct (cc c).
    + destruct (closed st); [by destruct (cc c) | done].
  - unfold acquire_timeout.
    destruct (list_find _ _) as [[i w] |] eqn:Hf; [| done].
    unfold no_wait_while_idle in *. simpl. intros _. apply H.
    apply list_find_Some in Hf as (Hl & _).
    intros Hnil. by rewrite Hnil in Hl.
  - unfold release.
    destruct (waiting st) as [| w ws] eqn:Hw.
    + destruct (closed st).
      * destruct (cc c); unfold no_wait_while_idle; simpl; try done;
          by rewrite ?Hw.
      * destruct (lifetime_expired _ _ _); [destruct (cc c) |];
          unfold no_wait_while_idle; simpl; done.
    + assert (Hi : idle st = []) by (apply H; by rewrite Hw).
      destruct (closed st).
      * destruct (cc c); unfold no_wait_while_idle; simpl; by rewrite Hi.
      * destruct (lifetime_expired _ _ _).
        -- destruct (cc c);
             [unfold no_wait_while_idle; simpl; by rewrite Hi |].
           match goal with
           | |- context [acquire o cc ?a ?b ?n ?s] =>
               pose proof (acquire_no_wait_while_idle a b n s) as HA;
               destruct (acquire o cc a b n s) as [st3 effs]
           end.
           simpl in *. apply HA. unfold no_wait_while_idle. simpl.
           by rewrite Hi.
        -- unfold no_wait_while_idle; simpl; by rewrite Hi.
  - done.
Qed.

(** X1.  In every state the pool can reach from its creation, by any
    interleaving of acquires, finished creations, timeouts, releases and
    [close], no caller is queued while the idle stack holds a
    connection. *)
Theorem nobody_waits_while_a_connection_is_idle (evs : list event) :
  no_wait_while_idle (run o cc init evs).1.
Proof.
  apply (run_preserves no_wait_while_idle).
  - apply step_no_wait_while_idle.
  - done.
Qed.

Lemma remove_first_length x (l : list nat) :
  x ∈ l -> length (remove_first x l) = pred (length l).
Proof.
  intros Hx. unfold remove_first.
  destruct (list_find _ l) as [[i y] |] eqn:Hf.
  - apply list_find_Some in Hf as (Hl & _).
    apply lookup_lt_Some in Hl.
    rewrite length_app, length_take, length_drop. lia.
  - apply list_find_None in Hf.
    rewrite Forall_forall in Hf. by destruct (Hf x Hx).
Qed.

Lemma step_pending_counted st ev :
  pending_counted st -> pending_counted (step o cc st ev).1.
Proof.
  unfold pending_counted. intros H.
  destruct ev as [a t now | a r now | t | c t now |]; simpl.
  - unfold acquire. destruct (closed st); [done |].
    destruct (scan_idle _ _ _ _ _ _ _) as [[[[res rest] tot] md] effs].
    destruct res; simpl; try done.
    destruct (tot <? size o); simpl.
    + rewrite length_app. simpl. lia.
    + by destruct (_ <=? _).
  - unfold acquire_created.
    destruct (bool_decide (a ∈ creating st)) eqn:Hin; simpl; [| done].
    apply bool_decide_eq_true in Hin.
    pose proof (remove_first_length a (creating st) Hin) as Hlen.
    assert (length (creating st) <> 0%nat).
    { destruct (creating st); [by apply not_elem_of_nil in Hin | done]. }
    destruct r as [e | c su]; simpl; [lia |].
    destruct (if opt_setup o then su else None).
    + destruct (cc c); simpl; lia.
    + destruct (closed st); [destruct (cc c) |]; simpl; lia.
  - unfold acquire_timeout.
    by destruct (list_find _ _) as [[i w] |].
  - unfold release.
    destruct (waiting st) as [| w ws].
    + destruct (closed st); [by destruct (cc c) |].
      destruct (lifetime_expired _ _ _); [by destruct (cc c) | done].
    + destruct (closed st); [by destruct (cc c) |].
      destruct (lifetime_expired _ _ _); [| done].
      destruct (cc c); [done |].
      unfold acquire. simpl.
      destruct (scan_idle _ _ _ _ _ _ _) as [[[[res rest] tot] md] effs].
      destruct res; simpl; try done.
      destruct (tot <? size o); simpl.
      * rewrite length_app. simpl. lia.
      * by destruct (_ <=? _).
  - done.
Qed.

(** X2.  In every reachable state [pendingAcquires] is the number of
    acquires suspended in [DuckDBConnection.create]; it is never
    negative, and it is zero exactly when no creation is in flight. *)
Theorem pending_acquires_counts_creations (evs : list event) :
  let st := (run o cc init evs).1 in
  pendingAcquires st = Z.of_nat (length (creating st))
  /\ 0 <= pendingAcquires st
  /\ (pendingAcquires st = 0 <-> creating st = []).
Proof.
  intros st.
  assert (H : pending_counted st).
  { apply (run_preserves pending_counted);
      [apply step_pending_counted | done]. }
  unfold pending_counted in H. split; [done |]. split; [lia |].
  rewrite H. destruct (creating st); simpl; split; intros; try done; lia.
Qed.

(** [closed] is never reset. *)
Lemma step_stays_closed st ev :
  closed st = true -> closed (step o cc st ev).1 = true.
Proof.
  intros H. destruct ev as [a t now | a r now | t | c t now |]; simpl.
  - unfold acquire. by rewrite H.
  - unfold acquire_created.
    destruct (negb _); [done |].
    destruct r as [e | c su]; simpl; [done |].
    destruct (if opt_setup o then su else None).
    + by destruct (cc c).
    + rewrite H. by destruct (cc c).
  - unfold acquire_timeout.
    by destruct (list_find _ _) as [[i w] |].
  - unfold release. rewrite H.
    destruct (waiting st) as [| w ws]; by destruct (cc c).
  - done.
Qed.

(** X3.  [close] rejects every queued waiter with the pool-closed error,
    in queue order, then hands every idle connection to
    [closeClientConnection] in the order of the idle array, the
    connection released longest ago first (the reverse of the order in
    which [acquire] would pop them), and leaves the pool closed with an
    empty queue and an empty idle stack.  Closing
    again does nothing.  Whatever happens afterwards the pool stays
    closed, and every later [acquire()] is rejected with the pool-closed
    error without touching the state. *)
Theorem close_is_final (st : pool) (evs : list event)
    (client tid : nat) (now : Z) :
  let st1 := (close cc st).1 in
  let later := (run o cc st1 evs).1 in
  closed st1 = true /\ waiting st1 = [] /\ idle st1 = []
  /\ rejected_closed (close cc st).2 = map w_client (waiting st)
  /\ destroy_attempts (close cc st).2 = map connection (rev (idle st))
  /\ close cc st1 = (st1, [])
  /\ closed later = true
  /\ acquire o cc client tid now later
     = (later, [Rejected client ErrClosed]).
Proof.
  intros st1 later.
  assert (Hl : closed later = true).
  { apply (run_preserves (fun s => closed s = true));
      [apply step_stays_closed | done]. }
  assert (H1 : forall ws : list waiter,
    rejected_closed
      (flat_map (fun w => [TimerCleared (timeoutId w);
                           Rejected (w_client w) ErrClosed]) ws)
    = map w_client ws
    /\ destroy_attempts
      (flat_map (fun w => [TimerCleared (timeoutId w);
                           Rejected (w_client w) ErrClosed]) ws) = []).
  { induction ws as [| w ws [IH1 IH2]]; [done |].
    split; [cbn; f_equal; apply IH1 | apply IH2]. }
  assert (H2 : forall ps : list PooledConnection,
    rejected_closed
      (map (fun p => match cc (connection p) with
                     | Some e => DestroyFailed (connection p) e
                     | None => Destroyed (connection p)
                     end) ps) = []
    /\ destroy_attempts
      (map (fun p => match cc (connection p) with
                     | Some e => DestroyFailed (connection p) e
                     | None => Destroyed (connection p)
                     end) ps) = map connection ps).
  { induction ps as [| p ps [IH1 IH2]]; [done |].
    split; cbn; destruct (cc (connection p)); cbn;
      try apply IH1; f_equal; apply IH2. }
  repeat split; try done.
  - unfold close. cbn [snd].
    etransitivity; [apply omap_app |].
    destruct (H1 (waiting st)) as [E1 _].
    destruct (H2 (rev (idle st))) as [E2 _].
    unfold rejected_closed in E1, E2. rewrite E1, E2. apply app_nil_r.
  - unfold close. cbn [snd].
    etransitivity; [apply omap_app |].
    destruct (H1 (waiting st)) as [_ E1].
    destruct (H2 (rev (idle st))) as [_ E2].
    unfold destroy_attempts in E1, E2. by rewrite E1, E2.
  - unfold close. subst st1. simpl. do 2 f_equal. lia.
  - unfold acquire. by rewrite Hl.
Qed.

Lemma release_serves_head st c tid now w ws :
  closed st = false -> waiting st = w :: ws ->
  unexpired o (metadata st) now c ->
  release o cc c tid now st
  = (MkPool (idle st) ws (total st) (closed st) (pendingAcquires st)
       (<[c := Meta (createdAt (default (Meta now now) (metadata st !! c)))
                 now]> (metadata st)) (creating st),
     [TimerCleared (timeoutId w); Resolved (w_client w) c], None).
Proof.
  unfold unexpired, release. intros -> -> H.
  cbv zeta. by rewrite H.
Qed.

Lemma unexpired_insert md now c c' :
  unexpired o md now c' ->
  unexpired o
    (<[c := Meta (createdAt (default (Meta now now) (md !! c))) now]> md)
    now c'.
Proof.
  unfold unexpired. intros H.
  destruct (decide (c = c')) as [<- | Hne].
  - by rewrite lookup_insert_eq.
  - by rewrite lookup_insert_ne.
Qed.

(** X4.  Waiters are served in arrival order.  When an open pool has at
    least as many queued callers as connections are released, and none of
    the released connections has outlived [maxLifetimeMs], the k-th
    release resolves the k-th queued caller with exactly the connection
    released, the callers behind them keep their places, and neither the
    idle stack nor [total] changes. *)
Theorem waiters_served_in_arrival_order (cs : list conn) (tid : nat)
    (now : Z) (st : pool) :
  closed st = false ->
  (length cs <= length (waiting st))%nat ->
  Forall (unexpired o (metadata st) now) cs ->
  let r := run o cc st (releases cs tid now) in
  resolutions r.2 = zip (map w_client (waiting st)) cs
  /\ waiting r.1 = drop (length cs) (waiting st)
  /\ idle r.1 = idle st
  /\ total r.1 = total st
  /\ closed r.1 = false.
Proof.
  revert st. induction cs as [| c cs IH]; intros st Hc Hlen Hall.
  - simpl. repeat split; try done. by destruct (map _ _).
  - destruct (waiting st) as [| w ws] eqn:Hw; [simpl in Hlen; lia |].
    apply Forall_cons in Hall as [Hu Hall].
    cbn [releases map run step].
    rewrite (release_serves_head st c tid now w ws Hc Hw Hu).
    cbn [fst].
    set (st1 := MkPool _ _ _ _ _ _ _).
    specialize (IH st1).
    destruct IH as (I1 & I2 & I3 & I4 & I5).
    { subst st1. by simpl. }
    { subst st1. simpl in *. lia. }
    { eapply Forall_impl; [exact Hall |].
      intros c' Hc'. subst st1. simpl. by apply unexpired_insert. }
    fold (releases cs tid now).
    destruct (run o cc st1 (releases cs tid now)) as [st2 e2].
    cbn [fst snd] in *. subst st1. simpl in *.
    repeat split; try done. by rewrite I1.
Qed.

(** X5.  The idle stack is last-in first-out.  When an open pool with no
    queued caller takes back a connection that has not outlived
    [maxLifetimeMs], the next [acquire()], made before the connection
    falls due for recycling, is served with that very connection; the
    idle stack and [total] are then what they were before the release,
    and the side table keeps the connection's creation time. *)
Theorem released_connection_is_reacquired_first (st : pool) (c : conn)
    (tid client tid' : nat) (now now' : Z) :
  let created := createdAt (default (Meta now now) (metadata st !! c)) in
  closed st = false ->
  waiting st = [] ->
  unexpired o (metadata st) now c ->
  shouldRecycle o (Pooled c created now) now' = false ->
  let r := run o cc st [EvRelease c tid now; EvAcquire client tid' now'] in
  r.2 = [Resolved client c]
  /\ idle r.1 = idle st
  /\ total r.1 = total st
  /\ waiting r.1 = []
  /\ metadata r.1 !! c = Some (Meta created now').
Proof.
  intros created Hc Hw Hu Hr. unfold unexpired in Hu. subst created.
  cbn [run step]. unfold release. rewrite Hw, Hc.
  cbv zeta. rewrite Hu. cbn [fst].
  unfold acquire. cbn [closed idle total metadata scan_idle].
  rewrite Hr. cbn.
  repeat split; try done. by rewrite lookup_insert_eq.
Qed.

End Facts.

Lemma waiters_served_in_arrival_order_witness :
  let r := run sample_options (fun _ => None) sample_queue
             (releases [1%nat; 0%nat] 0 50) in
  resolutions r.2 = [(7%nat, 1%nat); (8%nat, 0%nat)]
  /\ waiting r.1 = [Waiter 9 90]
  /\ idle r.1 = []
  /\ total r.1 = 2
  /\ closed r.1 = false.
Proof.
  apply (waiters_served_in_arrival_order sample_options (fun _ => None)
           [1%nat; 0%nat] 0 50 sample_queue).
  - reflexivity.
  - simpl. lia.
  - repeat constructor.
Defined.

Lemma released_connection_is_reacquired_first_witness :
  let r := run sample_options (fun _ => None) (warm 2 0)
             [EvRelease 1%nat 0 50; EvAcquire 5 0 60] in
  r.2 = [Resolved 5 1%nat]
  /\ idle r.1 = []
  /\ total r.1 = 2
  /\ waiting r.1 = []
  /\ metadata r.1 !! 1%nat = Some (Meta 0 60).
Proof.
  apply (released_connection_is_reacquired_first sample_options
           (fun _ => None) (warm 2 0) 1%nat 0 5 0 50 60);
    reflexivity.
Defined.

End PoolMore.

(** ** Facts about parameters, result columns and the statement cache *)

Module ClientFacts.

Import Client.

(** *** Result columns *)

Lemma occurrences_cons c x l :
  occurrences c (x :: l)
  = ((if decide (x = c) then 1 else 0) + occurrences c l)%nat.
Proof.
  unfold occurrences. rewrite filter_cons.
  by destruct (decide (x = c)).
Qed.

Lemma occurrences_absent c l : c ∉ l -> occurrences c l = 0%nat.
Proof.
  intros H. unfold occurrences.
  induction l as [| x l IH]; [done |].
  apply not_elem_of_cons in H as [Hne Hl].
  rewrite filter_cons. destruct (decide (x = c)); [congruence |].
  by apply IH.
Qed.

Lemma string_length_app (a b : string) :
  String.length (a +:+ b) = (String.length a + String.length b)%nat.
Proof. induction a as [| x a IH]; [done |]. simpl. by rewrite IH. Qed.

Lemma numbered_succ_ne c k : numbered c (S k) <> c.
Proof.
  unfold numbered. intros H. apply (f_equal String.length) in H.
  rewrite !string_length_app in H. simpl in H. lia.
Qed.

Lemma rename_columns_numbers counts cols :
  Stream.rename_columns counts cols
  = imap (fun i c =>
            numbered c (default 0%nat (counts !! c)
                        + occurrences c (take i cols))) cols.
Proof.
  revert counts. induction cols as [| c cols IH]; intros counts; [done |].
  cbn [Stream.rename_columns imap]. f_equal.
  - cbn [take]. unfold occurrences. simpl. rewrite Nat.add_0_r.
    by destruct (default 0%nat (counts !! c)).
  - rewrite IH. apply imap_ext. intros i c' _. unfold compose.
    cbn [take]. rewrite occurrences_cons. f_equal.
    destruct (decide (c = c')) as [<- | Hne].
    + rewrite lookup_insert_eq. simpl. lia.
    + rewrite lookup_insert_ne by done. lia.
Qed.

Lemma has_duplicates_false counts cols :
  Stream.has_duplicates counts cols = false -> NoDup cols.
Proof.
  assert (H : forall counts cols,
    Stream.has_duplicates counts cols = false ->
    NoDup cols /\ forall c, c ∈ cols -> default 0%nat (counts !! c) = 0%nat).
  { clear. intros counts cols. revert counts.
    induction cols as [| c cols IH]; intros counts Hd.
    - split; [constructor |]. intros c Hc. by apply not_elem_of_nil in Hc.
    - cbn [Stream.has_duplicates] in Hd.
      destruct (1 <? default 0 (counts !! c) + 1)%nat eqn:Hlt; [done |].
      apply Nat.ltb_ge in Hlt.
      destruct (IH _ Hd) as [Hnd Hz]. split.
      + constructor; [| done]. intros Hin.
        specialize (Hz c Hin). rewrite lookup_insert_eq in Hz.
        simpl in Hz. lia.
      + intros c' Hc'. apply elem_of_cons in Hc' as [-> | Hc']; [lia |].
        specialize (Hz c' Hc').
        destruct (decide (c = c')) as [<- | Hne].
        * rewrite lookup_insert_eq in Hz. simpl in Hz. lia.
        * by rewrite lookup_insert_ne in Hz. }
  intros Hd. by destruct (H counts cols Hd).
Qed.

Lemma has_duplicates_NoDup cols :
  NoDup cols -> Stream.has_duplicates ∅ cols = false.
Proof.
  assert (H : forall (counts : gmap string nat) cols,
    NoDup cols ->
    (forall c, c ∈ cols -> default 0%nat (counts !! c) = 0%nat) ->
    Stream.has_duplicates counts cols = false).
  { clear. intros counts cols. revert counts.
    induction cols as [| c cols IH]; intros counts Hnd Hz; [done |].
    apply NoDup_cons in Hnd as [Hc Hnd].
    cbn [Stream.has_duplicates].
    rewrite (Hz c) by apply list_elem_of_here. simpl.
    apply IH; [done |]. intros c' Hc'.
    rewrite lookup_insert_ne by (intros ->; done).
    apply Hz. by apply list_elem_of_further. }
  intros Hnd. apply H; [done |]. intros c _. by rewrite lookup_empty.
Qed.

Lemma imap_numbered_NoDup cols :
  NoDup cols ->
  imap (fun i c => numbered c (occurrences c (take i cols))) cols = cols.
Proof.
  intros Hnd.
  transitivity (imap (fun (_ : nat) (c : string) => c) cols).
  - apply imap_ext. intros i c Hi.
    rewrite occurrences_absent; [done |].
    intros Hin. apply elem_of_take in Hin as (j & Hj & Hlt).
    pose proof (NoDup_lookup _ _ _ _ Hnd Hi Hj). lia.
  - clear. induction cols as [| c cols IH]; [done |].
    simpl. f_equal. exact IH.
Qed.

Lemma deduplicateColumns_imap (cols : list string) :
  Stream.deduplicateColumns cols
  = imap (fun i c => numbered c (occurrences c (take i cols))) cols.
Proof.
  unfold Stream.deduplicateColumns.
  destruct (Stream.has_duplicates ∅ cols) eqn:Hd.
  - rewrite rename_columns_numbers. apply imap_ext.
    intros i c _. by rewrite lookup_empty.
  - symmetry. apply imap_numbered_NoDup.
    by apply has_duplicates_false in Hd.
Qed.

(** X6.  [deduplicateColumns] keeps the number and the order of the
    columns and renames exactly the repeats: the column at index [i]
    keeps its name when no column to its left has the same name, and
    otherwise gets the suffix [_k], [k] being the number of namesakes to
    its left.  Names that are already distinct are returned unchanged. *)
Theorem deduplicateColumns_numbers_the_repeats (cols : list string) :
  Stream.deduplicateColumns cols
  = imap (fun i c => numbered c (occurrences c (take i cols))) cols
  /\ length (Stream.deduplicateColumns cols) = length cols
  /\ (NoDup cols <-> Stream.deduplicateColumns cols = cols).
Proof.
  pose proof (deduplicateColumns_imap cols) as E.
  split; [exact E |]. split.
  - rewrite E. apply length_imap.
  - split.
    + intros Hnd. rewrite E. by apply imap_numbered_NoDup.
    + intros Heq. rewrite E in Heq.
      apply NoDup_alt. intros i j c Hi Hj.
      assert (Hz : forall k, cols !! k = Some c -> c ∉ take k cols).
      { intros k Hk Hin.
        pose proof (f_equal (fun l => l !! k) Heq) as Hq. cbn beta in Hq.
        rewrite list_lookup_imap, Hk in Hq. simpl in Hq.
        injection Hq as Hq.
        destruct (occurrences c (take k cols)) as [| n] eqn:Ho.
        - unfold occurrences in Ho.
          assert (Hf : c ∈ filter (fun x => x = c) (take k cols))
            by (by apply list_elem_of_filter).
          destruct (filter _ (take k cols));
            [by apply not_elem_of_nil in Hf | done].
        - by apply numbered_succ_ne in Hq. }
      destruct (Nat.lt_trichotomy i j) as [Hlt | [-> | Hlt]]; [| done |].
      * destruct (Hz j Hj). apply elem_of_take. eauto.
      * destruct (Hz i Hi). apply elem_of_take. eauto.
Qed.

Lemma first_repeat_not_proto (c : string) :
  (c +:+ "_1")%string <> "__proto__"%string.
Proof.
  intros H. pose proof (f_equal String.length H) as Hl.
  rewrite string_length_app in Hl.
  do 8 (destruct c as [| ? c]; [cbv in H; congruence |]).
  simpl in Hl. lia.
Qed.

(** X7.  The names [deduplicateColumns] returns are not always distinct:
    a column that is already called [c_1] collides with the name given to
    the second [c].  The object built for a row of such a result then has
    two fields, and the value of its second column is lost.  ([c] is any
    name but [__proto__], for which an assignment creates no field.) *)
Theorem deduplicated_names_can_collide (value : Type) (c : string)
    (v1 v2 v3 : value) :
  c <> "__proto__"%string ->
  let cols := Stream.deduplicateColumns [c; c; (c +:+ "_1")%string] in
  cols = [c; (c +:+ "_1")%string; (c +:+ "_1")%string]
  /\ ~ NoDup cols
  /\ Stream.mapRowsToObjects cols [[v1; v2; v3]]
     = [<[(c +:+ "_1")%string := Some v3]> (<[c := Some v1]> ∅)].
Proof.
  intros Hc.
  assert (Hne : (c +:+ "_1")%string <> c) by apply (numbered_succ_ne c 0).
  assert (E : Stream.deduplicateColumns [c; c; (c +:+ "_1")%string]
              = [c; (c +:+ "_1")%string; (c +:+ "_1")%string]).
  { rewrite deduplicateColumns_imap. cbn [imap take compose].
    rewrite !occurrences_cons.
    rewrite decide_True by done. rewrite !(decide_False _ _ (not_eq_sym Hne)).
    done. }
  cbv zeta. rewrite E. split; [done |]. split.
  - intros Hnd. apply NoDup_cons in Hnd as [_ Hnd].
    apply NoDup_cons in Hnd as [Hin _].
    apply Hin, list_elem_of_here.
  - unfold Stream.mapRowsToObjects, Stream.row_to_object. simpl.
    unfold Stream.assign.
    rewrite (decide_False _ _ Hc).
    rewrite !(decide_False _ _ (first_repeat_not_proto c)).
    f_equal. apply (insert_insert_eq (M := gmap string)).
Qed.

Lemma deduplicated_names_can_collide_witness :
  Stream.mapRowsToObjects
    (Stream.deduplicateColumns ["n"; "n"; "n_1"]%string)
    [[1%nat; 2%nat; 3%nat]]
  = [<["n_1"%string := Some 3%nat]> (<["n"%string := Some 1%nat]> ∅)].
Proof.
  apply (deduplicated_names_can_collide nat "n"%string 1%nat 2%nat 3%nat).
  discriminate.
Defined.

Lemma row_to_object_from (value : Type) (vals : list value) col :
  forall cols k (obj : gmap string (option value)),
    "__proto__"%string ∉ cols ->
    foldl (fun obj '(idx, c) => Stream.assign value obj c (vals !! idx)) obj
          (imap (fun idx c => ((k + idx)%nat, c)) cols) !! col
    = match last_index_from k col cols with
      | Some i => Some (vals !! i)
      | None => obj !! col
      end.
Proof.
  induction cols as [| c cols IH]; intros k obj Hp; [done |].
  apply not_elem_of_cons in Hp as [Hc Hp].
  cbn [imap foldl last_index_from].
  rewrite (imap_ext _ (fun idx c => ((S k + idx)%nat, c))).
  - rewrite IH by done.
    destruct (last_index_from (S k) col cols); [done |].
    rewrite Nat.add_0_r. unfold Stream.assign.
    rewrite decide_False by done.
    destruct (decide (c = col)) as [-> | Hne].
    + apply (lookup_insert_eq (M := gmap string)).
    + by apply (lookup_insert_ne (M := gmap string)).
  - intros i x _. unfold compose. f_equal. lia.
Qed.

(** X8.  When no column is called [__proto__], the object
    [mapRowsToObjects] builds for a row has a field exactly for the names
    among the columns, and the field holds the row's value at the index
    of the last column of that name ([undefined] when the row is
    shorter): with repeated names the last one wins. *)
Theorem row_object_field_is_last_column (value : Type)
    (columns : list string) (vals : list value) (col : string) :
  "__proto__"%string ∉ columns ->
  Stream.row_to_object value columns vals !! col
  = (fun i => vals !! i) <$> last_index_from 0 col columns.
Proof.
  intros Hp. unfold Stream.row_to_object.
  rewrite (row_to_object_from value vals col columns 0 ∅ Hp).
  by destruct (last_index_from 0 col columns).
Qed.

Lemma row_object_field_is_last_column_witness :
  Stream.row_to_object nat ["a"; "b"; "a"]%string [1; 2; 3]%nat
    !! "a"%string
  = Some (Some 3%nat).
Proof.
  rewrite (row_object_field_is_last_column nat ["a"; "b"; "a"]%string
             [1; 2; 3]%nat "a"%string).
  - reflexivity.
  - apply (bool_decide_unpack _). vm_compute. exact I.
Defined.

(** *** [prepareParams] *)

Section ParamFacts.

Context {value : Type}.
Variable JSON_parse : string -> option value.

Lemma prepare_param_rejecting w p :
  prepare_param JSON_parse {| rejectStringArrayLiterals := true;
                   has_warnOnStringArrayLiteral := w |} p = (0%nat, None)
  \/ prepare_param JSON_parse {| rejectStringArrayLiterals := true;
                      has_warnOnStringArrayLiteral := w |} p
     = (0%nat, Some p).
Proof.
  unfold Client.prepare_param. destruct p as [[| a s] | v]; auto.
  cbv zeta. cbn [rejectStringArrayLiterals].
  repeat (match goal with |- context [if ?b then _ else _] =>
            destruct b end; auto).
Qed.

Lemma rejecting_never_warns (params : list (param value)) (w : bool) :
  (prepareParams JSON_parse params
     {| rejectStringArrayLiterals := true;
        has_warnOnStringArrayLiteral := w |}).1 = 0%nat.
Proof.
  induction params as [| p ps IH]; [done |].
  cbn [Client.prepareParams].
  destruct (prepare_param_rejecting w p) as [-> | ->]; [done |].
  destruct (prepareParams JSON_parse ps _) as [n r]. cbn [fst] in *.
  by subst n.
Qed.

(** X9.  With [rejectStringArrayLiterals] set, [prepareParams] either
    throws or returns the parameters exactly as given; it never calls the
    warning callback, whether or not one was passed. *)
Theorem rejecting_prepareParams_never_rewrites (params : list (param value))
    (w : bool) :
  let r := prepareParams JSON_parse params
             {| rejectStringArrayLiterals := true;
                has_warnOnStringArrayLiteral := w |} in
  r.1 = 0%nat /\ (r.2 = None \/ r.2 = Some params).
Proof.
  induction params as [| p ps IH]; [by split; [| right] |].
  cbn [Client.prepareParams].
  destruct (prepare_param_rejecting w p) as [-> | ->]; [by split; [| left] |].
  cbv zeta in IH.
  destruct (prepareParams JSON_parse ps _) as [n r]. cbn [fst snd] in *.
  destruct IH as [-> [-> | ->]]; split; auto.
Qed.

Lemma prepare_param_lenient w p :
  exists n p',
    prepare_param JSON_parse {| rejectStringArrayLiterals := false;
                     has_warnOnStringArrayLiteral := w |} p = (n, Some p')
    /\ (n <= 1)%nat
    /\ (w = false -> n = 0%nat)
    /\ (p' = p
        \/ n = (if w then 1 else 0)%nat
           /\ exists s, p = PString s
               /\ (startsWith "{" s = true \/ startsWith " " s = true
                   \/ startsWith (String "009" "") s = true)).
Proof.
  unfold Client.prepare_param. destruct p as [[| a s] | v].
  1, 3: by exists 0%nat; eexists; repeat split; auto.
  cbv zeta. cbn [rejectStringArrayLiterals has_warnOnStringArrayLiteral].
  destruct (Ascii.eqb a "{") eqn:E1.
  - apply Ascii.eqb_eq in E1 as ->. cbn [orb].
    destruct (_ && _).
    + exists (if w then 1 else 0)%nat. eexists. split; [done |].
      split; [destruct w; lia |]. split; [by intros -> |].
      right. split; [done |]. exists (String "{" s). split; [done |].
      left. unfold startsWith. simpl. by destruct s.
    + exists 0%nat. eexists. repeat split; auto.
  - destruct (Ascii.eqb a "[") eqn:E2.
    + apply Ascii.eqb_eq in E2 as ->. cbn [orb].
      unfold isPgArrayLiteral, startsWith. cbn [String.prefix].
      rewrite andb_false_r. cbn.
      exists 0%nat. eexists. repeat split; auto.
    + cbn [orb].
      destruct (Ascii.eqb a " ") eqn:E3.
      * apply Ascii.eqb_eq in E3 as ->. cbn [orb].
        destruct (_ && _).
        -- exists (if w then 1 else 0)%nat. eexists. split; [done |].
           split; [destruct w; lia |]. split; [by intros -> |].
           right. split; [done |]. exists (String " " s). split; [done |].
           right. left. unfold startsWith. simpl. by destruct s.
        -- exists 0%nat. eexists. repeat split; auto.
      * cbn [orb]. destruct (Ascii.eqb a "009") eqn:E4.
        -- apply Ascii.eqb_eq in E4 as ->.
           destruct (_ && _).
           ++ exists (if w then 1 else 0)%nat. eexists. split; [done |].
              split; [destruct w; lia |]. split; [by intros -> |].
              right. split; [done |]. exists (String "009" s).
              split; [done |].
              right. right. unfold startsWith. simpl. by destruct s.
           ++ exists 0%nat. eexists. repeat split; auto.
        -- exists 0%nat. eexists. repeat split; auto.
Qed.

(** X10.  Without [rejectStringArrayLiterals], [prepareParams] never
    throws and returns as many parameters as it was given.  A parameter
    can only be rewritten when it is a string that begins with an opening
    brace, a space or a tab: values that are not strings, and strings that
    begin with an opening bracket, pass unchanged.  The warning callback
    is called at most once per parameter, and not at all when absent. *)
Theorem lenient_prepareParams_rewrites_only_brace_strings
    (params : list (param value)) (w : bool) :
  let r := prepareParams JSON_parse params
             {| rejectStringArrayLiterals := false;
                has_warnOnStringArrayLiteral := w |} in
  exists out,
    r.2 = Some out
    /\ length out = length params
    /\ (r.1 <= length params)%nat
    /\ (w = false -> r.1 = 0%nat)
    /\ forall i p, params !! i = Some p ->
         out !! i = Some p
         \/ exists s, p = PString s
              /\ (startsWith "{" s = true \/ startsWith " " s = true
                  \/ startsWith (String "009" "") s = true).
Proof.
  induction params as [| p ps IH].
  - exists []. cbn. split; [done |]. split; [done |]. split; [lia |].
    split; [done |]. intros i p Hi. by destruct i.
  - cbn [Client.prepareParams].
    destruct (prepare_param_lenient w p) as (n & p' & -> & Hn & Hw & Hp).
    cbv zeta in IH. destruct IH as (out & Ho & Hlen & Hle & Hw' & Hall).
    destruct (prepareParams JSON_parse ps _) as [n' r].
    cbn [fst snd] in *. subst r.
    exists (p' :: out). cbn. split; [done |]. split; [by rewrite Hlen |].
    split; [lia |]. split; [intros E; rewrite Hw, Hw'; done |].
    intros [| i] q Hq.
    + injection Hq as <-. destruct Hp as [-> | [_ Hp]]; auto.
    + by apply Hall.
Qed.

Lemma warn_iter query n s :
  Nat.iter n (warnOnStringArrayLiteral query) s
  = match n with
    | O => s
    | S _ => warnOnStringArrayLiteral query s
    end.
Proof.
  induction n as [| n IH]; [done |]. rewrite Nat.iter_succ, IH.
  destruct n; [done |].
  unfold warnOnStringArrayLiteral.
  destruct (hasWarnedArrayLiteral s) eqn:E; simpl; by rewrite ?E.
Qed.

Lemma session_prepareParams_state reject query params s :
  (session_prepareParams JSON_parse reject query params s).1
  = match (prepareParams JSON_parse params
             {| rejectStringArrayLiterals := reject;
                has_warnOnStringArrayLiteral := negb reject |}).1 with
    | O => s
    | S _ => warnOnStringArrayLiteral query s
    end.
Proof.
  unfold Client.session_prepareParams.
  destruct (prepareParams JSON_parse _ _) as [n r]. cbn [fst].
  apply warn_iter.
Qed.

Lemma session_prepareParams_warned reject query params s :
  hasWarnedArrayLiteral s = true ->
  (session_prepareParams JSON_parse reject query params s).1 = s.
Proof.
  intros H. unfold Client.session_prepareParams.
  destruct (prepareParams JSON_parse _ _) as [n r]. cbn [fst].
  rewrite warn_iter. destruct n; [done |].
  unfold warnOnStringArrayLiteral. by rewrite H.
Qed.

Lemma session_queries_warned reject queries s :
  hasWarnedArrayLiteral s = true -> session_queries JSON_parse reject queries s = s.
Proof.
  revert s. induction queries as [| [q ps] qs IH]; intros s H; [done |].
  cbn [Client.session_queries].
  rewrite session_prepareParams_warned by done. by apply IH.
Qed.

(** X11.  A session warns about stringified array literals at most once,
    whatever queries it is given: a session that has not warned yet ends
    with nothing logged, or with one warning that names one of its
    queries and with [hasWarnedArrayLiteral] set; a session that rejects
    such literals logs nothing. *)
Theorem session_warns_at_most_once (reject : bool)
    (queries : list (string * list (param value))) :
  let s := session_queries JSON_parse reject queries
             {| hasWarnedArrayLiteral := false; logged := [] |} in
  (logged s = [] /\ hasWarnedArrayLiteral s = false
   \/ exists query, query ∈ queries.*1 /\ logged s = [query]
                    /\ hasWarnedArrayLiteral s = true)
  /\ (reject = true -> logged s = []).
Proof.
  cbv zeta. induction queries as [| [q ps] qs IH].
  - split; [by left | done].
  - cbn [Client.session_queries].
    rewrite session_prepareParams_state.
    destruct (prepareParams JSON_parse ps _) as [n r] eqn:Hp. cbn [fst].
    destruct n as [| n].
    + destruct IH as [[IH | (x & Hx & IH)] IH2]; (split; [| exact IH2]).
      * by left.
      * right. exists x. split; [| done]. cbn. by apply list_elem_of_further.
    + unfold warnOnStringArrayLiteral. cbn.
      rewrite session_queries_warned by done. cbn. split.
      * right. exists q. split; [apply list_elem_of_here | done].
      * intros ->.
        pose proof (rejecting_never_warns ps (negb true)) as Hrej.
        by rewrite Hp in Hrej.
Qed.

End ParamFacts.

End ClientFacts.

(** ** Facts about the prepared-statement cache *)

Module CacheFacts.

Import Client.

(** *** The map operations on a map without repeated keys *)

Lemma map_get_None key m : key ∉ m.*1 -> map_get key m = None.
Proof.
  induction m as [| [k v] m IH]; [done |]. cbn [fmap list_fmap fst map_get].
  intros H. apply not_elem_of_cons in H as [Hne Hm].
  rewrite decide_False by done. by apply IH.
Qed.

Lemma map_get_Some_elem key m v : map_get key m = Some v -> (key, v) ∈ m.
Proof.
  induction m as [| [k v'] m IH]; [done |]. cbn [map_get].
  destruct (decide (k = key)) as [-> | Hne].
  - intros [= ->]. apply list_elem_of_here.
  - intros H. apply list_elem_of_further. by apply IH.
Qed.

Lemma map_get_absent key m : map_get key m = None -> key ∉ m.*1.
Proof.
  induction m as [| [k v] m IH]; [intros _; apply not_elem_of_nil |].
  cbn [map_get fmap list_fmap fst].
  destruct (decide (k = key)) as [-> | Hne]; [done |].
  intros H. apply not_elem_of_cons. split; [done | by apply IH].
Qed.

Lemma map_delete_absent key m : key ∉ m.*1 -> map_delete key m = m.
Proof.
  unfold map_delete.
  induction m as [| [k v] m IH]; [done |]. cbn [fmap list_fmap fst].
  intros H. apply not_elem_of_cons in H as [Hne Hm].
  rewrite filter_cons. cbn [fst].
  rewrite decide_True by done. f_equal. by apply IH.
Qed.

Lemma map_set_absent key v m : key ∉ m.*1 -> map_set key v m = m ++ [(key, v)].
Proof.
  induction m as [| [k v'] m IH]; [done |]. cbn [fmap list_fmap fst map_set].
  intros H. apply not_elem_of_cons in H as [Hne Hm].
  rewrite decide_False by done. simpl. f_equal. by apply IH.
Qed.

Lemma map_delete_keys key m : key ∉ (map_delete key m).*1.
Proof.
  unfold map_delete. intros H.
  apply list_elem_of_fmap in H as ([k v] & -> & H).
  apply list_elem_of_filter in H as [H _]. by apply H.
Qed.

Lemma map_delete_NoDup key m : NoDup m.*1 -> NoDup (map_delete key m).*1.
Proof.
  unfold map_delete.
  induction m as [| [k v] m IH]; [done |]. cbn [fmap list_fmap fst].
  intros H. apply NoDup_cons in H as [Hk Hm].
  rewrite filter_cons. cbn [fst].
  destruct (decide (k <> key)); [| by apply IH].
  cbn [fmap list_fmap fst]. apply NoDup_cons. split; [| by apply IH].
  intros Hin. apply Hk.
  apply list_elem_of_fmap in Hin as ([k' v'] & -> & Hin).
  apply list_elem_of_filter in Hin as [_ Hin].
  apply list_elem_of_fmap. by exists (k', v').
Qed.

(** A present key splits the map around its entry. *)
Lemma map_get_split key m v :
  NoDup m.*1 -> map_get key m = Some v ->
  exists m1 m2, m = m1 ++ (key, v) :: m2
                /\ map_delete key m = m1 ++ m2
                /\ key ∉ (m1 ++ m2).*1.
Proof.
  induction m as [| [k v'] m IH]; [done |]. cbn [map_get fmap list_fmap fst].
  intros Hnd. apply NoDup_cons in Hnd as [Hk Hm].
  destruct (decide (k = key)) as [-> | Hne].
  - intros [= ->]. exists [], m. split; [done |].
    unfold map_delete. rewrite filter_cons. cbn [fst].
    rewrite decide_False by (intros H; by apply H).
    fold (map_delete key m). rewrite map_delete_absent by done. by split.
  - intros Hg. destruct (IH Hm Hg) as (m1 & m2 & -> & Hd & Hnot).
    exists ((k, v') :: m1), m2. split; [done |]. split.
    + unfold map_delete in *. rewrite filter_cons. cbn [fst].
      rewrite decide_True by done. simpl. by rewrite Hd.
    + simpl. apply not_elem_of_cons. split; [by apply not_eq_sym | done].
Qed.

Lemma map_get_last key v m : key ∉ m.*1 -> map_get key (m ++ [(key, v)]) = Some v.
Proof.
  induction m as [| [k v'] m IH]; cbn [app map_get fmap list_fmap fst].
  - intros _. by rewrite decide_True.
  - intros H. apply not_elem_of_cons in H as [Hne Hm].
    rewrite decide_False by done. by apply IH.
Qed.

Lemma map_delete_last key v m :
  key ∉ m.*1 -> map_delete key (m ++ [(key, v)]) = m.
Proof.
  intros H. unfold map_delete. rewrite filter_app.
  fold (map_delete key m). rewrite map_delete_absent by done.
  rewrite filter_cons. cbn [fst].
  rewrite decide_False by (intros E; by apply E).
  by rewrite filter_nil, app_nil_r.
Qed.

Lemma keys_snoc (m : list (string * statement)) key v :
  (m ++ [(key, v)]).*1 = m.*1 ++ [key].
Proof. by rewrite fmap_app. Qed.

Lemma values_snoc (m : list (string * statement)) key v :
  (m ++ [(key, v)]).*2 = m.*2 ++ [v].
Proof. by rewrite fmap_app. Qed.

Lemma NoDup_snoc_keys (m : list (string * statement)) key v :
  NoDup m.*1 -> key ∉ m.*1 -> NoDup (m ++ [(key, v)]).*1.
Proof.
  intros Hnd Hk. rewrite keys_snoc. apply NoDup_app. split; [done |].
  split; [| apply NoDup_singleton].
  intros x Hx Hx'. apply list_elem_of_singleton in Hx' as ->. done.
Qed.

(** Moving a present key to the end, as [delete] followed by [set]
    does. *)
Lemma map_reset key v m :
  NoDup m.*1 -> map_get key m = Some v ->
  map_set key v (map_delete key m) = map_delete key m ++ [(key, v)]
  /\ ((map_delete key m).*2 ++ [v]) ≡ₚ m.*2
  /\ S (length (map_delete key m)) = length m.
Proof.
  intros Hnd Hg.
  destruct (map_get_split key m v Hnd Hg) as (m1 & m2 & -> & -> & Hnot).
  split; [by apply map_set_absent |]. split.
  - rewrite !fmap_app. cbn [fmap list_fmap snd].
    rewrite <- app_assoc. apply Permutation_app_head.
    symmetry. apply Permutation_cons_append.
  - rewrite !length_app. simpl. lia.
Qed.

(** *** The eviction loop *)

Lemma evict_while_fits fuel cache :
  Z.of_nat (length (entries cache)) <= cache_size cache ->
  evict_while fuel cache = Some (cache, []).
Proof.
  intros H. destruct fuel; cbn [evict_while];
    by rewrite (proj2 (Z.ltb_ge _ _) H).
Qed.

Lemma evictOldest_head size k v m :
  k ∉ m.*1 ->
  evictOldest {| cache_size := size; entries := (k, v) :: m |}
  = ({| cache_size := size; entries := m |}, [DestroySync v]).
Proof.
  intros Hk. unfold evictOldest. cbn [entries cache_size map_get].
  rewrite decide_True by done. unfold map_delete.
  rewrite filter_cons. cbn [fst].
  rewrite decide_False by (intros E; by apply E).
  fold (map_delete k m). by rewrite map_delete_absent.
Qed.

(** *** [getOrPrepareStatement] on a cache that is in order *)

Lemma cached_getPreparedCache c size :
  (entries (getPreparedCache c size)).*2 = cached c
  /\ (entries (getPreparedCache c size)).*1 = cached_queries c.
Proof.
  unfold getPreparedCache, cached, cached_queries.
  by destruct (store c).
Qed.

Lemma getOrPrepareStatement_hit c query size prepare_ok s :
  map_get query (entries (getPreparedCache c size)) = Some s ->
  getOrPrepareStatement c query size prepare_ok
  = Some ({| store :=
               Some {| cache_size := size;
                       entries :=
                         map_set query s
                           (map_delete query
                              (entries (getPreparedCache c size))) |};
             prepared := prepared c |}, [], Some s).
Proof. intros H. unfold getOrPrepareStatement. by rewrite H. Qed.

Lemma getOrPrepareStatement_refused c query size :
  map_get query (entries (getPreparedCache c size)) = None ->
  getOrPrepareStatement c query size false
  = Some ({| store := Some (getPreparedCache c size);
             prepared := prepared c |}, [Prepare query None], None).
Proof. intros H. unfold getOrPrepareStatement. by rewrite H. Qed.

Lemma getOrPrepareStatement_room c query size :
  map_get query (entries (getPreparedCache c size)) = None ->
  Z.of_nat (length (entries (getPreparedCache c size))) < size ->
  getOrPrepareStatement c query size true
  = Some ({| store :=
               Some {| cache_size := size;
                       entries := entries (getPreparedCache c size)
                                  ++ [(query, prepared c)] |};
             prepared := S (prepared c) |},
          [Prepare query (Some (prepared c))], Some (prepared c)).
Proof.
  intros Hg Hlt. unfold getOrPrepareStatement. rewrite Hg.
  apply map_get_absent in Hg.
  rewrite map_set_absent by done.
  rewrite evict_while_fits; [done |].
  cbn [entries cache_size]. rewrite length_app. simpl. lia.
Qed.

Lemma getOrPrepareStatement_full c query size k v m :
  entries (getPreparedCache c size) = (k, v) :: m ->
  NoDup (entries (getPreparedCache c size)).*1 ->
  map_get query (entries (getPreparedCache c size)) = None ->
  Z.of_nat (length (entries (getPreparedCache c size))) = size ->
  getOrPrepareStatement c query size true
  = Some ({| store :=
               Some {| cache_size := size;
                       entries := m ++ [(query, prepared c)] |};
             prepared := S (prepared c) |},
          [Prepare query (Some (prepared c)); DestroySync v],
          Some (prepared c)).
Proof.
  intros He Hnd Hg Hlen. unfold getOrPrepareStatement. rewrite Hg.
  apply map_get_absent in Hg. rewrite map_set_absent by done.
  rewrite He in *. cbn [fmap list_fmap fst] in Hnd, Hg.
  apply NoDup_cons in Hnd as [Hk Hnd].
  apply not_elem_of_cons in Hg as [Hq Hg].
  cbn [entries app length evict_while cache_size].
  destruct (size <? _) eqn:Hlt;
    [| apply Z.ltb_ge in Hlt; rewrite length_app in Hlt; simpl in *; lia].
  rewrite evictOldest_head.
  - rewrite evict_while_fits; [done |].
    cbn [entries cache_size]. rewrite length_app. simpl in *. lia.
  - rewrite keys_snoc. intros Hin. apply elem_of_app in Hin as [Hin | Hin];
      [done |]. apply list_elem_of_singleton in Hin. congruence.
Qed.

(** *** Reading the calls *)

Lemma destroyed_app a b : destroyed (a ++ b) = destroyed a ++ destroyed b.
Proof. apply omap_app. Qed.

Lemma prepared_by_app a b :
  prepared_by (a ++ b) = prepared_by a ++ prepared_by b.
Proof. apply omap_app. Qed.

Lemma runs_live_mono D D' calls :
  (forall x, x ∈ D' -> x ∈ D) -> runs_live D calls -> runs_live D' calls.
Proof.
  revert D D'. induction calls as [| x calls IH]; intros D D' Hsub; [done |].
  destruct x; cbn [runs_live]; try (by apply IH).
  - apply IH. intros x Hx. apply elem_of_cons in Hx as [-> | Hx];
      [apply list_elem_of_here | by apply list_elem_of_further, Hsub].
  - intros [Hs Hl]. split; [by intros Hin; apply Hs, Hsub | by eapply IH].
Qed.

Lemma runs_live_app D a b :
  runs_live D a -> runs_live (destroyed a ++ D) b -> runs_live D (a ++ b).
Proof.
  revert D. induction a as [| x a IH]; intros D Ha Hb; [done |].
  destruct x; cbn [app runs_live] in *; try (by apply IH).
  - apply IH; [done |]. eapply runs_live_mono; [| exact Hb].
    intros x Hx. cbn [destroyed omap]. fold (destroyed a).
    apply elem_of_app in Hx as [Hx | Hx].
    + apply list_elem_of_further, elem_of_app. by left.
    + apply elem_of_cons in Hx as [-> | Hx]; [apply list_elem_of_here |].
      apply list_elem_of_further, elem_of_app. by right.
  - destruct Ha as [Hs Ha]. split; [done | by apply IH].
Qed.

(** *** One request *)

Lemma getOrPrepareStatement_delta size c query prepare_ok :
  1 <= size -> cache_ok size c ->
  exists e1 calls1 r news,
    getOrPrepareStatement c query size prepare_ok
    = Some ({| store := Some {| cache_size := size; entries := e1 |};
               prepared := prepared c + length news |}, calls1, r)
    /\ news = seq (prepared c) (length news)
    /\ prepared_by calls1 = news
    /\ NoDup e1.*1
    /\ Z.of_nat (length e1) <= size
    /\ (e1.*2 ++ destroyed calls1) ≡ₚ (cached c ++ news)
    /\ (forall D, runs_live D calls1)
    /\ match r with
       | Some s => map_get query e1 = Some s
       | None => map_get query e1 = None
       end.
Proof.
  intros Hsize [Hnd Hlen].
  destruct (cached_getPreparedCache c size) as [Hv Hk].
  rewrite <- Hk in Hnd. rewrite <- Hv in *. rewrite length_fmap in Hlen.
  set (m := entries (getPreparedCache c size)) in *.
  destruct (map_get query m) as [s |] eqn:Hg.
  - destruct (map_reset query s m Hnd Hg) as (Hset & Hperm & Hl).
    exists (map_delete query m ++ [(query, s)]), [], (Some s), [].
    rewrite (getOrPrepareStatement_hit c query size prepare_ok s Hg).
    fold m. rewrite Hset. cbn [length]. rewrite Nat.add_0_r.
    split; [done |]. split; [done |]. split; [done |].
    split; [apply NoDup_snoc_keys;
            [by apply map_delete_NoDup | apply map_delete_keys] |].
    split; [rewrite length_app; simpl; lia |].
    split; [rewrite values_snoc, !app_nil_r; exact Hperm |].
    split; [done |]. apply map_get_last, map_delete_keys.
  - destruct prepare_ok.
    + destruct (decide (Z.of_nat (length m) < size)) as [Hlt | Hge].
      * exists (m ++ [(query, prepared c)]),
          [Prepare query (Some (prepared c))], (Some (prepared c)),
          [prepared c].
        rewrite (getOrPrepareStatement_room c query size Hg Hlt).
        fold m. cbn [length]. rewrite Nat.add_1_r.
        split; [done |]. split; [done |]. split; [done |].
        pose proof (map_get_absent _ _ Hg) as Habs.
        split; [by apply NoDup_snoc_keys |].
        split; [rewrite length_app; simpl; lia |].
        split; [by rewrite values_snoc, app_nil_r |].
        split; [done |]. by apply map_get_last.
      * destruct m as [| [k v] m'] eqn:Hm; [simpl in *; lia |].
        exists (m' ++ [(query, prepared c)]),
          [Prepare query (Some (prepared c)); DestroySync v],
          (Some (prepared c)), [prepared c].
        assert (Hfull : Z.of_nat (length (entries (getPreparedCache c size)))
                        = size) by (fold m; rewrite Hm; lia).
        rewrite (getOrPrepareStatement_full c query size k v m');
          [| done | by fold m; rewrite Hm | by fold m; rewrite Hm | done].
        cbn [length]. rewrite Nat.add_1_r.
        split; [done |]. split; [done |]. split; [done |].
        pose proof (map_get_absent _ _ Hg) as Habs.
        cbn [fmap list_fmap fst] in Habs, Hnd.
        apply not_elem_of_cons in Habs as [_ Habs].
        apply NoDup_cons in Hnd as [_ Hnd].
        split; [by apply NoDup_snoc_keys |].
        split; [rewrite length_app; simpl in *; lia |].
        split.
        { rewrite values_snoc. cbn [destroyed omap fmap list_fmap snd].
          rewrite <- app_assoc. cbn [app].
          rewrite (Permutation_app_comm [prepared c] [v]). cbn [app].
          rewrite Permutation_middle. done. }
        split; [done |]. by apply map_get_last.
    + exists m, [Prepare query None], None, [].
      rewrite (getOrPrepareStatement_refused c query size Hg).
      cbn [length]. rewrite Nat.add_0_r.
      assert (Hc : getPreparedCache c size
                   = {| cache_size := size; entries := m |}).
      { subst m. unfold getPreparedCache. by destruct (store c). }
      rewrite Hc.
      split; [done |]. split; [done |]. split; [done |].
      split; [done |]. split; [lia |].
      split; [by rewrite !app_nil_r |]. by split.
Qed.

Lemma materializeRows_after size c query prepare_ok out e1 n calls1 r :
  getOrPrepareStatement c query size prepare_ok
  = Some ({| store := Some {| cache_size := size; entries := e1 |};
             prepared := n |}, calls1, r) ->
  NoDup e1.*1 ->
  match r with
  | Some s => map_get query e1 = Some s
  | None => map_get query e1 = None
  end ->
  exists e' calls2 ok,
    materializeRows c query size prepare_ok out
    = Some ({| store := Some {| cache_size := size; entries := e' |};
               prepared := n |}, calls1 ++ calls2, ok)
    /\ NoDup e'.*1
    /\ (length e' <= length e1)%nat
    /\ (e'.*2 ++ destroyed calls2) ≡ₚ e1.*2
    /\ prepared_by calls2 = []
    /\ (forall D, (forall s, r = Some s -> s ∉ D) -> runs_live D calls2)
    /\ (ok = true -> last e'.*1 = Some query)
    /\ (ok = false -> query ∉ e'.*1).
Proof.
  intros Hgp Hnd Hr. unfold materializeRows. rewrite Hgp.
  unfold getPreparedCache, evictCacheEntry.
  cbn [store prepared entries cache_size].
  destruct r as [s |].
  - destruct (map_reset query s e1 Hnd Hr) as (Hset & Hperm & Hl).
    pose proof (map_delete_keys query e1) as Hnot.
    pose proof (map_delete_NoDup query e1 Hnd) as Hnd'.
    destruct out.
    + rewrite Hr. cbn [destroyPreparedStatement].
      exists (map_delete query e1), [Run s false; DestroySync s], false.
      split; [done |]. split; [done |]. split; [lia |].
      split; [exact Hperm |]. split; [done |].
      split; [intros D HD; cbn; split; [by apply HD | done] |].
      by split.
    + rewrite Hset, map_get_last, map_delete_last by done.
      cbn [destroyPreparedStatement].
      exists (map_delete query e1), [Run s true; DestroySync s], false.
      split; [done |]. split; [done |]. split; [lia |].
      split; [exact Hperm |]. split; [done |].
      split; [intros D HD; cbn; split; [by apply HD | done] |].
      by split.
    + rewrite Hset.
      exists (map_delete query e1 ++ [(query, s)]), [Run s true], true.
      split; [done |]. split; [by apply NoDup_snoc_keys |].
      split; [rewrite length_app; simpl; lia |].
      split; [rewrite values_snoc, app_nil_r; exact Hperm |].
      split; [done |].
      split; [intros D HD; cbn; split; [by apply HD | done] |].
      split; [| done]. intros _. rewrite keys_snoc. apply last_snoc.
  - rewrite Hr. cbn [destroyPreparedStatement].
    pose proof (map_get_absent _ _ Hr) as Habs.
    rewrite map_delete_absent by done.
    exists e1, [], false.
    split; [done |]. split; [done |]. split; [lia |].
    split; [by rewrite app_nil_r |]. split; [done |].
    split; [done |]. by split.
Qed.

(** One request keeps the cache in order and the books balanced. *)
Lemma materializeRows_step size c hist query prepare_ok out :
  1 <= size -> cache_ok size c -> accounted c hist -> runs_live [] hist ->
  exists c' calls ok,
    materializeRows c query size prepare_ok out = Some (c', calls, ok)
    /\ cache_ok size c'
    /\ accounted c' (hist ++ calls)
    /\ runs_live [] (hist ++ calls)
    /\ (ok = true -> last (cached_queries c') = Some query)
    /\ (ok = false -> query ∉ cached_queries c').
Proof.
  intros Hsize Hok [Hprep Hacc] Hlive.
  destruct (getOrPrepareStatement_delta size c query prepare_ok Hsize Hok)
    as (e1 & calls1 & r & news & Hgp & Hnews & Hp1 & Hnd1 & Hlen1 & Hperm1
        & Hlive1 & Hr).
  destruct (materializeRows_after size c query prepare_ok out e1 _ calls1 r
              Hgp Hnd1 Hr)
    as (e' & calls2 & ok & Hm & Hnd' & Hlen' & Hperm' & Hp2 & Hlive2
        & Hyes & Hno).
  eexists _, _, ok. split; [exact Hm |].
  assert (Hall : (e1.*2 ++ destroyed (hist ++ calls1))
                 ≡ₚ seq 0 (prepared c + length news)).
  { rewrite destroyed_app, (Permutation_app_comm (destroyed hist)).
    rewrite app_assoc, Hperm1, <- app_assoc.
    rewrite (Permutation_app_comm news), app_assoc, Hacc.
    rewrite seq_app. cbn [Nat.add]. by rewrite <- Hnews. }
  split; [| split; [| split; [| split]]].
  - split; cbn [cached_queries cached store entries]; [done |].
    rewrite length_fmap. lia.
  - split; cbn [prepared cached store entries].
    + rewrite !prepared_by_app, Hprep, Hp1, Hp2, app_nil_r.
      rewrite seq_app. cbn [Nat.add]. by rewrite <- Hnews.
    + rewrite app_assoc, destroyed_app.
      rewrite (Permutation_app_comm (destroyed (hist ++ calls1))).
      rewrite app_assoc, Hperm'. exact Hall.
  - rewrite app_assoc. apply runs_live_app.
    + apply runs_live_app; [done | apply Hlive1].
    + apply Hlive2. intros s -> Hin. rewrite app_nil_r in Hin.
      assert (Hs : s ∈ e1.*2).
      { apply list_elem_of_fmap. exists (query, s). split; [done |].
        by apply map_get_Some_elem. }
      assert (HND : NoDup (e1.*2 ++ destroyed (hist ++ calls1))).
      { rewrite Hall. apply NoDup_seq. }
      apply NoDup_app in HND as (_ & Hdisj & _). by apply (Hdisj s).
  - exact Hyes.
  - exact Hno.
Qed.

Lemma serve_step size rqs :
  1 <= size ->
  forall c hist,
    cache_ok size c -> accounted c hist -> runs_live [] hist ->
    exists c' calls,
      serve size rqs c = Some (c', calls)
      /\ cache_ok size c'
      /\ accounted c' (hist ++ calls)
      /\ runs_live [] (hist ++ calls).
Proof.
  intros Hsize. induction rqs as [| rq rqs IH]; intros c hist Hok Hacc Hl.
  - exists c, []. rewrite app_nil_r.
    split; [done |]. split; [done |]. by split.
  - cbn [serve].
    destruct (materializeRows_step size c hist (rq_query rq)
                (rq_prepare_ok rq) (rq_outcome rq) Hsize Hok Hacc Hl)
      as (c1 & calls1 & ok & -> & Hok1 & Hacc1 & Hl1 & _).
    destruct (IH c1 (hist ++ calls1) Hok1 Hacc1 Hl1)
      as (c2 & calls2 & -> & Hok2 & Hacc2 & Hl2).
    exists c2, (calls1 ++ calls2). rewrite app_assoc.
    split; [done |]. split; [done |]. by split.
Qed.

Lemma new_connection_ok size :
  0 <= size ->
  cache_ok size new_connection /\ accounted new_connection []
  /\ runs_live [] [].
Proof.
  intros H. split; [split; [constructor | simpl; lia] |].
  split; [by split | done].
Qed.

(** X12.  The statement cache is safe under any sequence of requests on
    a connection, whatever fails, when the configured size is at least
    one: every request ends, the cache never holds a query twice nor more
    than [size] entries, no statement is run after it was destroyed, and
    every statement ever prepared is either still cached or has been
    destroyed exactly once. *)
Theorem statement_cache_is_safe (size : Z) (rqs : list request) :
  1 <= size ->
  exists c calls,
    serve size rqs new_connection = Some (c, calls)
    /\ NoDup (cached_queries c)
    /\ Z.of_nat (length (cached c)) <= size
    /\ runs_live [] calls
    /\ prepared_by calls = seq 0 (prepared c)
    /\ (cached c ++ destroyed calls) ≡ₚ prepared_by calls
    /\ NoDup (cached c ++ destroyed calls).
Proof.
  intros Hsize.
  destruct (new_connection_ok size) as (Hok & Hacc & Hl); [lia |].
  destruct (serve_step size rqs Hsize new_connection [] Hok Hacc Hl)
    as (c & calls & Hs & [Hnd Hlen] & [Hp Hperm] & Hlive).
  cbn [app] in *. exists c, calls.
  split; [done |]. split; [done |]. split; [done |]. split; [done |].
  split; [done |]. split; [by rewrite Hp |].
  rewrite Hperm. apply NoDup_seq.
Qed.

Lemma statement_cache_is_safe_witness :
  exists c calls,
    serve 2 sample_requests new_connection = Some (c, calls)
    /\ NoDup (cached_queries c)
    /\ Z.of_nat (length (cached c)) <= 2
    /\ runs_live [] calls
    /\ prepared_by calls = seq 0 (prepared c)
    /\ (cached c ++ destroyed calls) ≡ₚ prepared_by calls
    /\ NoDup (cached c ++ destroyed calls).
Proof. apply (statement_cache_is_safe 2 sample_requests). lia. Defined.

Lemma map_delete_queries key (m : list (string * statement)) :
  (map_delete key m).*1 = filter (fun k => k <> key) m.*1.
Proof.
  unfold map_delete. induction m as [| [k v] m IH]; [done |].
  cbn [fmap list_fmap fst]. rewrite !filter_cons. cbn [fst].
  destruct (decide (k <> key)); cbn [fmap list_fmap fst]; by rewrite IH.
Qed.

(** X13.  The cache is least-recently-used.  On a cache that is in order
    and with [prepare] succeeding, [getOrPrepareStatement] returns a
    statement that is the last entry afterwards.  A cached query is
    served from the cache without preparing or destroying anything and
    moves to the end, the others keeping their order.  A new query is
    prepared and appended; it displaces an entry only when the cache is
    full, and then exactly the first one, whose statement is destroyed. *)
Theorem least_recently_used_is_evicted (size : Z) (c : connection)
    (query : string) :
  1 <= size ->
  cache_ok size c ->
  exists c' calls s,
    getOrPrepareStatement c query size true = Some (c', calls, Some s)
    /\ last (cached_queries c') = Some query
    /\ last (cached c') = Some s
    /\ (query ∈ cached_queries c ->
        calls = []
        /\ prepared c' = prepared c
        /\ cached_queries c'
           = filter (fun k => k <> query) (cached_queries c) ++ [query])
    /\ (query ∉ cached_queries c ->
        s = prepared c
        /\ prepared c' = S (prepared c)
        /\ (Z.of_nat (length (cached c)) < size ->
            calls = [Prepare query (Some s)]
            /\ cached_queries c' = cached_queries c ++ [query]
            /\ cached c' = cached c ++ [s])
        /\ (Z.of_nat (length (cached c)) = size ->
            exists v,
              head (cached c) = Some v
              /\ calls = [Prepare query (Some s); DestroySync v]
              /\ cached_queries c' = tail (cached_queries c) ++ [query]
              /\ cached c' = tail (cached c) ++ [s])).
Proof.
  intros Hsize [Hnd Hlen].
  destruct (cached_getPreparedCache c size) as [Hv Hk].
  rewrite <- Hk in *. rewrite <- Hv in *. rewrite length_fmap in *.
  set (m := entries (getPreparedCache c size)) in *.
  destruct (map_get query m) as [s |] eqn:Hg.
  - destruct (map_reset query s m Hnd Hg) as (Hset & _ & _).
    rewrite (getOrPrepareStatement_hit c query size true s Hg).
    fold m. rewrite Hset.
    eexists _, _, s. split; [done |].
    cbn [cached_queries cached store entries prepared].
    rewrite keys_snoc, values_snoc, !last_snoc, map_delete_queries.
    split; [done |]. split; [done |]. split; [done |].
    intros Hnot. destruct Hnot.
    apply list_elem_of_fmap. exists (query, s).
    split; [done | by apply map_get_Some_elem].
  - pose proof (map_get_absent _ _ Hg) as Habs.
    destruct (decide (Z.of_nat (length m) < size)) as [Hlt | Hge].
    + rewrite (getOrPrepareStatement_room c query size Hg Hlt). fold m.
      eexists _, _, _. split; [done |].
      cbn [cached_queries cached store entries prepared].
      rewrite keys_snoc, values_snoc, !last_snoc.
      split; [done |]. split; [done |]. split; [done |].
      intros _. split; [done |]. split; [done |]. split; [done |]. lia.
    + destruct m as [| [k v] m'] eqn:Hm; [simpl in *; lia |].
      rewrite (getOrPrepareStatement_full c query size k v m');
        [| done | by fold m; rewrite Hm | by fold m; rewrite Hm
         | fold m; rewrite Hm; lia].
      eexists _, _, _. split; [done |].
      cbn [cached_queries cached store entries prepared].
      rewrite keys_snoc, values_snoc, !last_snoc.
      split; [done |]. split; [done |]. split; [done |].
      intros _. split; [done |]. split; [done |]. split; [lia |].
      intros _. by exists v.
Qed.

Lemma least_recently_used_is_evicted_witness :
  exists c' calls s,
    getOrPrepareStatement sample_cache "select 3" 2 true
    = Some (c', calls, Some s)
    /\ last (cached_queries c') = Some "select 3"%string
    /\ last (cached c') = Some s
    /\ ("select 3"%string ∈ cached_queries sample_cache ->
        calls = []
        /\ prepared c' = prepared sample_cache
        /\ cached_queries c'
           = filter (fun k => k <> "select 3"%string)
               (cached_queries sample_cache) ++ ["select 3"%string])
    /\ ("select 3"%string ∉ cached_queries sample_cache ->
        s = prepared sample_cache
        /\ prepared c' = S (prepared sample_cache)
        /\ (Z.of_nat (length (cached sample_cache)) < 2 ->
            calls = [Prepare "select 3" (Some s)]
            /\ cached_queries c'
               = cached_queries sample_cache ++ ["select 3"%string]
            /\ cached c' = cached sample_cache ++ [s])
        /\ (Z.of_nat (length (cached sample_cache)) = 2 ->
            exists v,
              head (cached sample_cache) = Some v
              /\ calls = [Prepare "select 3" (Some s); DestroySync v]
              /\ cached_queries c'
                 = tail (cached_queries sample_cache) ++ ["select 3"%string]
              /\ cached c' = tail (cached sample_cache) ++ [s])).
Proof.
  apply (least_recently_used_is_evicted 2 sample_cache "select 3").
  - lia.
  - split; [| simpl; lia].
    apply (bool_decide_unpack _). vm_compute. exact I.
Defined.

Lemma clearPreparedCache_calls c :
  (clearPreparedCache c).2 = map DestroySync (cached c)
  /\ cached (clearPreparedCache c).1 = []
  /\ prepared (clearPreparedCache c).1 = prepared c.
Proof.
  unfold clearPreparedCache, cached.
  destruct (store c) as [cache |] eqn:E; cbn [fst snd store entries prepared].
  - split; [| done].
    induction (entries cache) as [| [k v] m IH]; [done |].
    cbn [flat_map app fmap list_fmap snd map]. rewrite IH. done.
  - by rewrite E.
Qed.

Lemma destroyed_map_DestroySync l : destroyed (map DestroySync l) = l.
Proof.
  unfold destroyed. induction l as [| x l IH]; [done |].
  simpl. by f_equal.
Qed.

Lemma prepared_by_map_DestroySync l : prepared_by (map DestroySync l) = [].
Proof.
  unfold prepared_by. induction l as [| x l IH]; [done |].
  simpl. exact IH.
Qed.

Lemma closeClientConnection_calls how c :
  (closeClientConnection how c).1.2
  = map DestroySync (cached c) ++ closing_method how
  /\ (closeClientConnection how c).1.1 = (clearPreparedCache c).1.
Proof.
  unfold closeClientConnection, closing_method.
  destruct (clearPreparedCache_calls c) as (Hc & _).
  destruct (clearPreparedCache c) as [c1 calls]. cbn [snd fst] in *. subst.
  destruct (cl_close how); [done |].
  destruct (cl_closeSync how); [done |].
  destruct (cl_disconnectSync how); [done |].
  by rewrite app_nil_r.
Qed.

(** X14.  Closing a connection leaks no prepared statement.  After any
    sequence of requests served with a cache size of at least one,
    [closeClientConnection] first destroys exactly the statements still
    cached, then calls at most one closing method, the first that exists
    among [close], [closeSync] and [disconnectSync]; afterwards the cache
    is empty and every statement the connection ever prepared has been
    destroyed exactly once.  This holds also when the closing method
    throws. *)
Theorem closing_destroys_every_statement_once (size : Z)
    (rqs : list request) (how : closers) :
  1 <= size ->
  exists c calls,
    serve size rqs new_connection = Some (c, calls)
    /\ let r := closeClientConnection how c in
       r.1.2 = map DestroySync (cached c) ++ closing_method how
       /\ closing_calls r.1.2 = closing_method how
       /\ cached r.1.1 = []
       /\ destroyed (calls ++ r.1.2) ≡ₚ prepared_by (calls ++ r.1.2)
       /\ NoDup (destroyed (calls ++ r.1.2))
       /\ runs_live [] (calls ++ r.1.2).
Proof.
  intros Hsize.
  destruct (new_connection_ok size) as (Hok & Hacc & Hl); [lia |].
  destruct (serve_step size rqs Hsize new_connection [] Hok Hacc Hl)
    as (c & calls & Hs & _ & [Hp Hperm] & Hlive).
  cbn [app] in *. exists c, calls. split; [done |]. cbv zeta.
  destruct (closeClientConnection_calls how c) as [-> ->].
  destruct (clearPreparedCache_calls c) as (_ & Hempty & _).
  assert (Hm : destroyed (closing_method how) = []
               /\ prepared_by (closing_method how) = []
               /\ closing_calls (closing_method how) = closing_method how
               /\ forall D, runs_live D (closing_method how)).
  { unfold closing_method.
    destruct (cl_close how), (cl_closeSync how), (cl_disconnectSync how);
      by repeat split. }
  destruct Hm as (Hm1 & Hm2 & Hm3 & Hm4).
  assert (Hd : destroyed (calls ++ map DestroySync (cached c)
                          ++ closing_method how)
               ≡ₚ seq 0 (prepared c)).
  { rewrite !destroyed_app, destroyed_map_DestroySync, Hm1, app_nil_r.
    by rewrite Permutation_app_comm. }
  split; [done |]. split.
  { unfold closing_calls. rewrite filter_app.
    fold (closing_calls (closing_method how)). rewrite Hm3.
    assert (Hn : forall l, filter (fun x => is_closing x = true)
                             (map DestroySync l) = []).
    { clear. induction l as [| x l IH]; [done |].
      cbn [map]. rewrite filter_cons_False; [exact IH | by cbn]. }
    by rewrite Hn. }
  split; [done |]. split.
  { rewrite Hd, !prepared_by_app, prepared_by_map_DestroySync, Hm2.
    by rewrite !app_nil_r, Hp. }
  split; [rewrite Hd; apply NoDup_seq |].
  apply runs_live_app; [done |]. apply runs_live_app; [| apply Hm4].
  clear. generalize (destroyed calls ++ []).
  induction (cached c) as [| x l IH]; intros D; [done |]. cbn. apply IH.
Qed.

Lemma closing_destroys_every_statement_once_witness :
  exists c calls,
    serve 2 sample_requests new_connection = Some (c, calls)
    /\ let r := closeClientConnection
                  {| cl_close := None; cl_closeSync := Some (Some 7%nat);
                     cl_disconnectSync := Some None |} c in
       r.1.2 = map DestroySync (cached c) ++ [CloseSync]
       /\ closing_calls r.1.2 = [CloseSync]
       /\ cached r.1.1 = []
       /\ destroyed (calls ++ r.1.2) ≡ₚ prepared_by (calls ++ r.1.2)
       /\ NoDup (destroyed (calls ++ r.1.2))
       /\ runs_live [] (calls ++ r.1.2).
Proof.
  apply (closing_destroys_every_statement_once 2 sample_requests
           {| cl_close := None; cl_closeSync := Some (Some 7%nat);
              cl_disconnectSync := Some None |}).
  lia.
Defined.

(** *** The boundary of the size *)

Lemma evict_while_negative fuel cache :
  cache_size cache < 0 -> evict_while fuel cache = None.
Proof.
  revert cache. induction fuel as [| fuel IH]; intros cache H;
    cbn [evict_while].
  - by rewrite (proj2 (Z.ltb_lt _ _)) by lia.
  - rewrite (proj2 (Z.ltb_lt _ _)) by lia.
    destruct (evictOldest cache) as [cache1 calls1] eqn:He.
    assert (cache_size cache1 = cache_size cache) as Hs.
    { unfold evictOldest in He.
      destruct (entries cache) as [| [k v] m]; by injection He as <- _. }
    rewrite IH; [done | lia].
Qed.

Lemma evict_while_zero m :
  NoDup m.*1 ->
  evict_while (length m) {| cache_size := 0; entries := m |}
  = Some ({| cache_size := 0; entries := [] |}, map DestroySync m.*2).
Proof.
  induction m as [| [k v] m IH]; intros Hnd; [done |].
  cbn [fmap list_fmap fst snd] in *. apply NoDup_cons in Hnd as [Hk Hnd].
  cbn [length evict_while entries cache_size].
  rewrite (proj2 (Z.ltb_lt _ _)) by lia.
  rewrite evictOldest_head by done. by rewrite IH.
Qed.

(** X15.  The eviction loop cannot end with a negative size: the map is
    never smaller than the size, and once it is empty [evictOldest] no
    longer removes anything.  So with [size < 0] a query that is not
    cached and that [prepare] accepts never gets its statement, however
    many rounds the loop is given. *)
Theorem negative_size_never_returns (size : Z) (c : connection)
    (query : string) :
  size < 0 ->
  query ∉ cached_queries c ->
  (forall fuel entries,
     evict_while fuel {| cache_size := size; entries := entries |} = None)
  /\ getOrPrepareStatement c query size true = None
  /\ forall out, materializeRows c query size true out = None.
Proof.
  intros Hsize Hq.
  assert (H1 : forall fuel entries,
    evict_while fuel {| cache_size := size; entries := entries |} = None)
    by (intros; by apply evict_while_negative).
  assert (H2 : getOrPrepareStatement c query size true = None).
  { unfold getOrPrepareStatement.
    destruct (cached_getPreparedCache c size) as [_ Hk].
    rewrite map_get_None by (by rewrite Hk). by rewrite H1. }
  split; [done |]. split; [done |].
  intros out. unfold materializeRows. by rewrite H2.
Qed.

Lemma negative_size_never_returns_witness :
  (forall fuel entries,
     evict_while fuel {| cache_size := -1; entries := entries |} = None)
  /\ getOrPrepareStatement new_connection "select 1" (-1) true = None
  /\ forall out, materializeRows new_connection "select 1" (-1) true out
                 = None.
Proof.
  apply (negative_size_never_returns (-1) new_connection "select 1").
  - lia.
  - apply not_elem_of_nil.
Defined.

(** X16.  With size zero the statement is destroyed before it is used:
    on a cache that is in order, a query that is not cached is prepared,
    the loop then empties the cache and destroys every statement in it,
    the new one included, and that statement is what
    [getOrPrepareStatement] returns and [materializeRows] runs; when the
    run is reported successful the destroyed statement is put back in
    the cache. *)
Theorem size_zero_runs_a_destroyed_statement (c : connection)
    (query : string) :
  NoDup (cached_queries c) ->
  query ∉ cached_queries c ->
  getOrPrepareStatement c query 0 true
  = Some ({| store := Some {| cache_size := 0; entries := [] |};
             prepared := S (prepared c) |},
          Prepare query (Some (prepared c))
          :: map DestroySync (cached c ++ [prepared c]),
          Some (prepared c))
  /\ materializeRows c query 0 true RunOk
     = Some ({| store := Some {| cache_size := 0;
                                 entries := [(query, prepared c)] |};
                prepared := S (prepared c) |},
             Prepare query (Some (prepared c))
             :: map DestroySync (cached c ++ [prepared c])
             ++ [Run (prepared c) true],
             true)
  /\ ~ runs_live []
        (Prepare query (Some (prepared c))
         :: map DestroySync (cached c ++ [prepared c])
         ++ [Run (prepared c) true]).
Proof.
  intros Hnd Hq.
  destruct (cached_getPreparedCache c 0) as [Hv Hk].
  rewrite <- Hk in *. rewrite <- Hv.
  set (m := entries (getPreparedCache c 0)) in *.
  assert (E : getOrPrepareStatement c query 0 true
    = Some ({| store := Some {| cache_size := 0; entries := [] |};
               prepared := S (prepared c) |},
            Prepare query (Some (prepared c))
            :: map DestroySync (m.*2 ++ [prepared c]),
            Some (prepared c))).
  { unfold getOrPrepareStatement. fold m.
    rewrite map_get_None, map_set_absent by done.
    cbn [entries].
    rewrite evict_while_zero by (by apply NoDup_snoc_keys).
    by rewrite values_snoc. }
  split; [exact E |]. split.
  - unfold materializeRows. rewrite E. by cbn.
  - cbn [runs_live]. intros Hl.
    assert (Hgen : forall l D (s : statement),
      s ∈ l ++ D -> ~ runs_live D (map DestroySync l ++ [Run s true])).
    { clear. induction l as [| x l IH]; intros D s Hin.
      - cbn. by intros [Hs _].
      - cbn [map app runs_live]. apply IH.
        cbn [app] in Hin. apply elem_of_cons in Hin as [-> | Hin].
        + apply elem_of_app. right. apply list_elem_of_here.
        + apply elem_of_app in Hin as [Hin | Hin]; apply elem_of_app;
            [by left | right; by apply list_elem_of_further]. }
    eapply Hgen; [| exact Hl].
    rewrite app_nil_r. apply elem_of_app. right. apply list_elem_of_here.
Qed.

Lemma size_zero_runs_a_destroyed_statement_witness :
  getOrPrepareStatement new_connection "select 1" 0 true
  = Some ({| store := Some {| cache_size := 0; entries := [] |};
             prepared := 1%nat |},
          [Prepare "select 1" (Some 0%nat); DestroySync 0%nat], Some 0%nat)
  /\ materializeRows new_connection "select 1" 0 true RunOk
     = Some ({| store := Some {| cache_size := 0;
                                 entries := [("select 1"%string, 0%nat)] |};
                prepared := 1%nat |},
             [Prepare "select 1" (Some 0%nat); DestroySync 0%nat; Run 0%nat true],
             true)
  /\ ~ runs_live []
        [Prepare "select 1" (Some 0%nat); DestroySync 0%nat; Run 0%nat true].
Proof.
  apply (size_zero_runs_a_destroyed_statement new_connection "select 1").
  - constructor.
  - apply not_elem_of_nil.
Defined.

End CacheFacts.

(** ** Facts about DuckLake attachment and pool sizing *)

Module DuckLakeFacts.

#[local] Set Warnings "-clear-no-such-hyp".

Import DuckLake.

(** *** Trimming *)

Lemma trimEnd_cons_kept c s :
  Client.is_white_space c = false ->
  Client.trimEnd (String c s) = String c (Client.trimEnd s).
Proof.
  intros H. cbn [Client.trimEnd]. rewrite H.
  by destruct (Client.trimEnd s).
Qed.

Lemma trimEnd_idem s : Client.trimEnd (Client.trimEnd s) = Client.trimEnd s.
Proof.
  induction s as [| c s IH]; [done |]. cbn [Client.trimEnd].
  destruct (Client.trimEnd s) as [| d t] eqn:E.
  - destruct (Client.is_white_space c) eqn:Hc; [done |].
    cbn [Client.trimEnd]. by rewrite Hc.
  - cbn [Client.trimEnd]. cbn [Client.trimEnd] in IH. by rewrite IH.
Qed.

Lemma trimEnd_empty s :
  Client.trimEnd s = EmptyString -> Client.trimStart s = EmptyString.
Proof.
  induction s as [| c s IH]; [done |]. cbn [Client.trimEnd Client.trimStart].
  destruct (Client.trimEnd s) eqn:E; [| done].
  destruct (Client.is_white_space c); [intros _; by apply IH | done].
Qed.

Lemma trim_commute s :
  Client.trimStart (Client.trimEnd s) = Client.trimEnd (Client.trimStart s).
Proof.
  induction s as [| c s IH]; [done |].
  destruct (Client.is_white_space c) eqn:Hc.
  - cbn [Client.trimStart]. rewrite Hc, <- IH.
    cbn [Client.trimEnd]. rewrite Hc.
    destruct (Client.trimEnd s) eqn:E; [done |].
    cbn [Client.trimStart]. by rewrite Hc.
  - rewrite trimEnd_cons_kept by done.
    cbn [Client.trimStart]. rewrite Hc.
    by rewrite trimEnd_cons_kept.
Qed.

Lemma trimStart_idem s :
  Client.trimStart (Client.trimStart s) = Client.trimStart s.
Proof.
  induction s as [| c s IH]; [done |]. cbn [Client.trimStart].
  destruct (Client.is_white_space c) eqn:Hc; [done |].
  cbn [Client.trimStart]. by rewrite Hc.
Qed.

Lemma trim_idem s : Client.trim (Client.trim s) = Client.trim s.
Proof.
  unfold Client.trim.
  by rewrite trim_commute, trimEnd_idem, trimStart_idem.
Qed.

Lemma trim_trimEnd s : Client.trim (Client.trimEnd s) = Client.trim s.
Proof. unfold Client.trim. by rewrite trim_commute, trimEnd_idem. Qed.

Lemma trimEnd_length s : (String.length (Client.trimEnd s) <= String.length s)%nat.
Proof.
  induction s as [| c s IH]; [done |]. cbn [Client.trimEnd].
  destruct (Client.trimEnd s); [| simpl in *; lia].
  destruct (Client.is_white_space c); simpl; lia.
Qed.

Lemma trimStart_length s :
  (String.length (Client.trimStart s) <= String.length s)%nat.
Proof.
  induction s as [| c s IH]; [done |]. cbn [Client.trimStart].
  destruct (Client.is_white_space c); simpl in *; lia.
Qed.

Lemma trim_length s : (String.length (Client.trim s) <= String.length s)%nat.
Proof.
  unfold Client.trim.
  pose proof (trimEnd_length (Client.trimStart s)).
  pose proof (trimStart_length s). lia.
Qed.

(** *** Quoting *)

Lemma string_app_cons c (a b : string) :
  String c a +:+ b = String c (a +:+ b).
Proof. reflexivity. Qed.

Lemma string_app_nil (b : string) : EmptyString +:+ b = b.
Proof. reflexivity. Qed.

Lemma string_app_assoc (a b c : string) : (a +:+ b) +:+ c = a +:+ (b +:+ c).
Proof.
  induction a as [| x a IH]; [done |].
  by rewrite !string_app_cons, IH.
Qed.

Lemma read_body_quoted q v rest :
  Client.startsWith (String q EmptyString) rest = false ->
  read_body q (replace_with q (String q (String q EmptyString)) v
               +:+ String q rest)
  = Some (v, rest).
Proof.
  intros Hrest. induction v as [| x v IH].
  - cbn [replace_with]. rewrite string_app_nil. cbn [read_body].
    rewrite Ascii.eqb_refl.
    destruct rest as [| c rest']; [done |].
    destruct (Ascii.eqb c q) eqn:E; [| done].
    apply Ascii.eqb_eq in E as ->.
    unfold Client.startsWith in Hrest. cbn [String.prefix] in Hrest.
    destruct (ascii_dec q q); [by destruct rest' | done].
  - cbn [replace_with]. rewrite string_app_assoc.
    destruct (Ascii.eqb x q) eqn:E.
    + apply Ascii.eqb_eq in E as ->.
      rewrite !string_app_cons, string_app_nil. cbn [read_body].
      rewrite !Ascii.eqb_refl. by rewrite IH.
    + rewrite string_app_cons, string_app_nil. cbn [read_body].
      rewrite E. by rewrite IH.
Qed.

(** X17.  What [quoteString] and [quoteIdentifier] produce is read back
    by SQL as one token holding exactly the value given, whatever quotes
    that value contains: the token ends where the quoted text ends, so
    the value cannot close the literal early and spill into the
    statement. *)
Theorem quoted_text_is_one_token (value rest : string) :
  Client.startsWith "'" rest = false ->
  Client.startsWith Tx.dquote rest = false ->
  read_quoted "'" (quoteString value +:+ rest) = Some (value, rest)
  /\ read_quoted (ascii_of_nat 34) (quoteIdentifier value +:+ rest)
     = Some (value, rest).
Proof.
  intros H1 H2. unfold quoteString, quoteIdentifier, escapeSqlString. split.
  - rewrite !string_app_assoc, string_app_cons, string_app_nil.
    cbn [read_quoted]. rewrite Ascii.eqb_refl.
    rewrite string_app_cons, string_app_nil.
    by apply (read_body_quoted "'" value rest).
  - unfold Tx.dquote in *.
    rewrite !string_app_assoc, string_app_cons, string_app_nil.
    cbn [read_quoted]. rewrite Ascii.eqb_refl.
    rewrite (string_app_cons _ EmptyString), string_app_nil.
    by apply (read_body_quoted (ascii_of_nat 34) value rest).
Qed.

Lemma quoted_text_is_one_token_witness :
  read_quoted "'" (quoteString "it's; DROP TABLE t --" +:+ " AS x")
  = Some ("it's; DROP TABLE t --"%string, " AS x"%string)
  /\ read_quoted (ascii_of_nat 34)
       (quoteIdentifier "it's; DROP TABLE t --" +:+ " AS x")
     = Some ("it's; DROP TABLE t --"%string, " AS x"%string).
Proof.
  apply (quoted_text_is_one_token "it's; DROP TABLE t --" " AS x");
    reflexivity.
Defined.

(** *** Normalization *)

Lemma startsWith_app p s : Client.startsWith p (p +:+ s) = true.
Proof.
  unfold Client.startsWith. induction p as [| a p IH].
  - by destruct s.
  - rewrite string_app_cons. cbn [String.prefix].
    by destruct (ascii_dec a a).
Qed.

Lemma startsWith_app_ducklake s :
  isDuckLakeUri ("ducklake:" +:+ s) = true.
Proof. apply startsWith_app. Qed.

Lemma normalize_inr config n :
  normalizeDuckLakeConfig config = inr n ->
  catalog config <> EmptyString
  /\ n = {| n_catalog := if isDuckLakeUri (catalog config)
                         then catalog config
                         else "ducklake:" +:+ catalog config;
            n_alias := match alias config with
                       | Some a => if String.eqb (Client.trim a) ""
                                   then DEFAULT_ALIAS else Client.trim a
                       | None => DEFAULT_ALIAS
                       end;
            n_use := default true (use config);
            n_install := default false (install config);
            n_load := default false (load config);
            n_attachOptions := attachOptions config |}.
Proof.
  unfold normalizeDuckLakeConfig.
  destruct (String.eqb (catalog config) "") eqn:E; [done |].
  apply String.eqb_neq in E. by intros [= <-].
Qed.

Lemma normalize_as_config config n :
  normalizeDuckLakeConfig config = inr n ->
  normalizeDuckLakeConfig (as_config n) = inr n
  /\ isDuckLakeUri (n_catalog n) = true
  /\ n_alias n <> EmptyString
  /\ Client.trim (n_alias n) = n_alias n.
Proof.
  intros H. apply normalize_inr in H as [Hc ->].
  set (cat := if isDuckLakeUri (catalog config) then catalog config
              else "ducklake:" +:+ catalog config).
  set (al := match alias config with
             | Some a => if String.eqb (Client.trim a) ""
                         then DEFAULT_ALIAS else Client.trim a
             | None => DEFAULT_ALIAS
             end).
  assert (Hcat : isDuckLakeUri cat = true).
  { subst cat. destruct (isDuckLakeUri (catalog config)) eqn:E; [done |].
    apply startsWith_app. }
  assert (Hne : String.eqb cat "" = false).
  { apply String.eqb_neq. intros E. rewrite E in Hcat. done. }
  assert (Hal : Client.trim al = al /\ String.eqb al "" = false).
  { subst al. destruct (alias config) as [a |]; [| done].
    destruct (String.eqb (Client.trim a) "") eqn:E; [done |].
    by rewrite trim_idem. }
  destruct Hal as [Hal1 Hal2].
  split; [| split; [done | split; [by apply String.eqb_neq | done]]].
  unfold normalizeDuckLakeConfig, as_config.
  cbn [catalog alias use install load attachOptions
       n_catalog n_alias n_use n_install n_load n_attachOptions].
  by rewrite Hne, Hcat, Hal1, Hal2.
Qed.

(** X18.  [normalizeDuckLakeConfig] is idempotent on what it accepts, so
    [configureDuckLake], which builds the attach statement from the
    already normalized configuration, gets exactly the statement
    [buildDuckLakeAttachSql] gives for the original one.  The normalized
    catalog always carries the [ducklake:] prefix, and the normalized
    alias is never empty and has no white space around it. *)
Theorem normalization_is_idempotent (config : DuckLakeConfig)
    (n : NormalizedDuckLakeConfig) :
  normalizeDuckLakeConfig config = inr n ->
  normalizeDuckLakeConfig (as_config n) = inr n
  /\ buildDuckLakeAttachSql (as_config n) = buildDuckLakeAttachSql config
  /\ isDuckLakeUri (n_catalog n) = true
  /\ n_alias n <> EmptyString
  /\ Client.trim (n_alias n) = n_alias n
  /\ catalog config <> EmptyString.
Proof.
  intros H.
  destruct (normalize_as_config config n H) as (H1 & H2 & H3 & H4).
  split; [done |]. split.
  - unfold buildDuckLakeAttachSql. by rewrite H1, H.
  - split; [done |]. split; [done |]. split; [done |].
    by apply normalize_inr in H as [Hc _].
Qed.

Lemma normalization_is_idempotent_witness :
  exists n,
    normalizeDuckLakeConfig sample_config = inr n
    /\ normalizeDuckLakeConfig (as_config n) = inr n
    /\ buildDuckLakeAttachSql (as_config n)
       = buildDuckLakeAttachSql sample_config
    /\ isDuckLakeUri (n_catalog n) = true
    /\ n_alias n <> EmptyString
    /\ Client.trim (n_alias n) = n_alias n
    /\ catalog sample_config <> EmptyString.
Proof.
  eexists. split; [reflexivity |].
  apply (normalization_is_idempotent sample_config). reflexivity.
Defined.

(** *** [configureDuckLake] *)

Lemma run_all_app run history a b :
  run_all run history (a ++ b)
  = match run_all run history a with
    | (ran, Some e) => (ran, Some e)
    | (ran, None) =>
        let '(ran', r) := run_all run (history ++ ran.*1) b in
        (ran ++ ran', r)
    end.
Proof.
  revert history. induction a as [| sql a IH]; intros history.
  - cbn. rewrite app_nil_r. by destruct (run_all run history b).
  - cbn [app run_all]. destruct (run history sql) as [e |]; [done |].
    rewrite IH. destruct (run_all run (history ++ [sql]) a) as [ran [e |]];
      [done |].
    cbn [fmap list_fmap fst]. rewrite <- app_assoc. cbn [app].
    by destruct (run_all run _ b).
Qed.

Lemma run_all_facts run sqls :
  forall history,
    let r := run_all run history sqls in
    r.1.*1 `prefix_of` sqls
    /\ answered_by run history r.1
    /\ (r.2 = None -> r.1.*1 = sqls /\ Forall (fun x => x.2 = None) r.1)
    /\ (forall e, r.2 = Some e ->
         exists ok sql, r.1 = ok ++ [(sql, Some e)]
                        /\ Forall (fun x => x.2 = None) ok).
Proof.
  induction sqls as [| sql sqls IH]; intros history; cbv zeta.
  - cbn. split; [done |]. split; [done |]. split; [done |]. by intros e.
  - cbn [run_all]. destruct (run history sql) as [e |] eqn:E.
    + cbn. split; [by apply prefix_cons, prefix_nil |].
      split; [done |]. split; [done |].
      intros e' [= <-]. by exists [], sql.
    + specialize (IH (history ++ [sql])). cbv zeta in IH.
      destruct (run_all run (history ++ [sql]) sqls) as [ran r].
      cbn [fst snd fmap list_fmap] in *.
      destruct IH as (I1 & I2 & I3 & I4).
      split; [by apply prefix_cons |]. split; [done |]. split.
      * intros Hr. destruct (I3 Hr) as [-> Hall]. split; [done |].
        by constructor.
      * intros e Hr. destruct (I4 e Hr) as (ok & sql' & -> & Hok).
        exists ((sql, None) :: ok), sql'. split; [done |]. by constructor.
Qed.

Lemma configureDuckLake_script run history config :
  configureDuckLake run history config
  = match normalizeDuckLakeConfig config with
    | inl e => ([], Some e)
    | inr _ => run_all run history (configuration_script config)
    end.
Proof.
  unfold configureDuckLake, configuration_script.
  destruct (normalizeDuckLakeConfig config) as [e | n] eqn:Hn; [done |].
  destruct (normalize_as_config config n Hn) as (H1 & _).
  assert (Hb : buildDuckLakeAttachSql (as_config n)
               = buildDuckLakeAttachSql config)
    by (unfold buildDuckLakeAttachSql; by rewrite H1, Hn).
  rewrite Hb.
  assert (Hbuild : exists attach, buildDuckLakeAttachSql config = inr attach)
    by (unfold buildDuckLakeAttachSql; rewrite Hn; eauto).
  destruct Hbuild as [attach ->].
  set (pre := ((if n_install n then ["INSTALL ducklake"] else [])
               ++ (if n_load n then ["LOAD ducklake"] else []))%list).
  set (post := ([attach]
                ++ (if n_use n
                    then ["USE " +:+ quoteIdentifier (n_alias n)]
                    else []))%list).
  rewrite (app_assoc _ _ post : _ = pre ++ post).
  rewrite (run_all_app run history pre post).
  destruct (run_all run history pre) as [ran [e |]]; [done |].
  subst post. cbn [app].
  by destruct (run_all run (history ++ ran.*1) _).
Qed.

Lemma configuration_prefix run history config :
  (configureDuckLake run history config).2 = None ->
  (configureDuckLake run history config).1.*1 = configuration_script config.
Proof.
  rewrite configureDuckLake_script.
  destruct (normalizeDuckLakeConfig config) as [e | n]; [done |].
  pose proof (run_all_facts run (configuration_script config) history) as H.
  cbv zeta in H. destruct H as (_ & _ & H3 & _). intros Hr. by apply H3.
Qed.

(** X19.  [configureDuckLake] sends a prefix of one fixed script: the
    optional [INSTALL] and [LOAD], then the attach statement
    [buildDuckLakeAttachSql] gives, then the optional [USE] of the quoted
    alias.  Each statement is sent only after all before it were
    accepted; the call fails with the error of the first statement that
    is refused, which is the last one sent, and succeeds only when the
    whole script was accepted.  A configuration without catalog is
    refused before anything is sent. *)
Theorem configuration_runs_a_prefix_of_the_script (run : runner)
    (history : list string) (config : DuckLakeConfig) :
  let r := configureDuckLake run history config in
  r.1.*1 `prefix_of` configuration_script config
  /\ answered_by run history r.1
  /\ (r.2 = None ->
      r.1.*1 = configuration_script config
      /\ Forall (fun x => x.2 = None) r.1
      /\ catalog config <> EmptyString)
  /\ (forall e, r.2 = Some e ->
       r.1 = [] /\ catalog config = EmptyString
       \/ exists ok sql, r.1 = ok ++ [(sql, Some e)]
                         /\ Forall (fun x => x.2 = None) ok).
Proof.
  cbv zeta. rewrite configureDuckLake_script.
  destruct (normalizeDuckLakeConfig config) as [e | n] eqn:Hn.
  - cbn. split; [apply prefix_nil |]. split; [done |]. split; [done |].
    intros e' _. left. split; [done |].
    unfold normalizeDuckLakeConfig in Hn.
    destruct (String.eqb (catalog config) "") eqn:E; [| done].
    by apply String.eqb_eq in E.
  - pose proof (run_all_facts run (configuration_script config) history)
      as H. cbv zeta in H. destruct H as (H1 & H2 & H3 & H4).
    split; [done |]. split; [done |]. split.
    + intros Hr. destruct (H3 Hr) as [Ha Hb]. split; [done |].
      split; [done |]. by apply normalize_inr in Hn as [Hc _].
    + intros e Hr. right. by apply H4.
Qed.

(** *** The pool wrapper *)

Lemma ran_on_app c a b : ran_on c (a ++ b) = ran_on c a ++ ran_on c b.
Proof. apply omap_app. Qed.

Lemma inner_releases_app a b :
  inner_releases (a ++ b) = inner_releases a ++ inner_releases b.
Proof. apply omap_app. Qed.

Lemma ran_on_cons c x l :
  ran_on c (x :: l)
  = match x with
    | Ran c' sql _ => if decide (c' = c) then [sql] else []
    | _ => []
    end ++ ran_on c l.
Proof.
  unfold ran_on. destruct x as [r | c' sql r | c']; try done.
  simpl. by destruct (decide (c' = c)).
Qed.

Lemma inner_releases_cons x l :
  inner_releases (x :: l)
  = match x with InnerRelease c => [c] | _ => [] end ++ inner_releases l.
Proof. unfold inner_releases. by destruct x. Qed.

Lemma ran_on_configuration c connection
    (ran : list (string * option Tx.thrown)) :
  ran_on c (map (fun x => Ran connection x.1 x.2) ran)
  = if decide (connection = c) then ran.*1 else [].
Proof.
  induction ran as [| [sql r] ran IH].
  - by destruct (decide (connection = c)).
  - cbn [map fst snd fmap list_fmap]. rewrite ran_on_cons, IH.
    by destruct (decide (connection = c)).
Qed.

Lemma inner_releases_configuration connection
    (ran : list (string * option Tx.thrown)) :
  inner_releases (map (fun x => Ran connection x.1 x.2) ran) = [].
Proof.
  induction ran as [| [sql r] ran IH]; [done |].
  cbn [map]. by rewrite inner_releases_cons, IH.
Qed.

(** What one [acquire] of the wrapper does. *)
Lemma wrapped_acquire_facts config inner run w :
  let r := wrapped_acquire config inner run w in
  configuredConnections w ⊆ configuredConnections r.1.1
  /\ (forall c, r.2 = inr c -> c ∈ configuredConnections r.1.1)
  /\ (forall c, c ∈ configuredConnections w -> ran_on c r.1.2 = [])
  /\ (forall c, c ∈ configuredConnections r.1.1 ->
       c ∉ configuredConnections w ->
       ran_on c r.1.2 = configuration_script config)
  /\ inner_releases r.1.2 = [].
Proof.
  cbv zeta. unfold wrapped_acquire.
  destruct inner as [e | connection].
  - cbn. split; [done |]. split; [done |]. split; [done |].
    split; [| done]. intros c H1 H2. done.
  - destruct (bool_decide (connection ∈ configuredConnections w)) eqn:Hin.
    + apply bool_decide_eq_true in Hin. cbn.
      split; [done |]. split; [by intros c [= <-] |]. split; [done |].
      split; [| done]. intros c H1 H2. done.
    + apply bool_decide_eq_false in Hin.
      pose proof (configuration_prefix run
                    (default [] (history w !! connection)) config) as Hp.
      destruct (configureDuckLake run _ config) as [ran [e |]];
        cbn [fst snd configuredConnections] in *.
      * split; [done |]. split; [done |]. split; [| split].
        -- intros c Hc. rewrite ran_on_cons, ran_on_configuration.
           rewrite decide_False; [done | by intros ->].
        -- intros c H1 H2. done.
        -- rewrite inner_releases_cons. apply inner_releases_configuration.
      * split; [set_solver |]. split; [intros c [= <-]; set_solver |].
        split; [| split].
        -- intros c Hc. rewrite ran_on_cons, ran_on_configuration.
           rewrite decide_False; [done | by intros ->].
        -- intros c H1 H2.
           assert (c = connection) as -> by set_solver.
           rewrite ran_on_cons, ran_on_configuration, decide_True by done.
           by apply Hp.
        -- rewrite inner_releases_cons. apply inner_releases_configuration.
Qed.

Lemma wrapper_run_facts config ops :
  forall w,
    let r := wrapper_run config ops w in
    configuredConnections w ⊆ configuredConnections r.1.1
    /\ (forall c, c ∈ r.2 -> c ∈ configuredConnections r.1.1)
    /\ (forall c, c ∈ configuredConnections w -> ran_on c r.1.2 = [])
    /\ (forall c, c ∈ configuredConnections r.1.1 ->
         c ∉ configuredConnections w ->
         exists past, ran_on c r.1.2 = past ++ configuration_script config)
    /\ inner_releases r.1.2 = requested_releases ops.
Proof.
  induction ops as [| op ops IH]; intros w; cbv zeta.
  - cbn. split; [done |]. split; [intros c Hc; by apply not_elem_of_nil in Hc |].
    split; [done |]. split; [| done]. intros c H1 H2. done.
  - destruct op as [inner run | connection]; cbn [wrapper_run].
    + pose proof (wrapped_acquire_facts config inner run w) as Ha.
      cbv zeta in Ha.
      destruct (wrapped_acquire config inner run w) as [[w1 calls1] r].
      specialize (IH w1). cbv zeta in IH.
      destruct (wrapper_run config ops w1) as [[w2 calls2] got].
      cbn [fst snd] in *.
      destruct Ha as (A1 & A2 & A3 & A4 & A5).
      destruct IH as (I1 & I2 & I3 & I4 & I5).
      split; [set_solver |]. split; [| split; [| split]].
      * intros c Hc. destruct r as [e | c0]; [by apply I2 |].
        apply elem_of_cons in Hc as [-> | Hc]; [| by apply I2].
        apply I1. by apply A2.
      * intros c Hc. rewrite ran_on_app, A3 by done.
        apply I3. by apply A1.
      * intros c H1 H2. rewrite ran_on_app.
        destruct (decide (c ∈ configuredConnections w1)) as [Hin | Hout].
        -- exists []. rewrite (A4 c Hin H2), (I3 c Hin). by rewrite app_nil_r.
        -- destruct (I4 c H1 Hout) as [past ->].
           exists (ran_on c calls1 ++ past). by rewrite app_assoc.
      * rewrite inner_releases_app, A5. exact I5.
    + unfold wrapped_release. specialize (IH w). cbv zeta in IH.
      destruct (wrapper_run config ops w) as [[w2 calls2] got].
      cbn [fst snd app] in *. destruct IH as (I1 & I2 & I3 & I4 & I5).
      split; [done |]. split; [done |]. split; [| split].
      * intros c Hc. rewrite ran_on_cons. by apply I3.
      * intros c H1 H2. rewrite ran_on_cons. by apply I4.
      * rewrite inner_releases_cons, I5. done.
Qed.

(** X20.  The wrapped pool hands out only configured connections: over
    any sequence of acquires and releases on a new wrapper, whatever the
    pool and the connections answer, every connection a caller receives
    is in [configuredConnections], and the statements the wrapper ran on
    it end with the complete configuration script.  The wrapper releases
    to the pool it wraps exactly what its callers release, in that order:
    a connection whose configuration failed is not given back. *)
Theorem wrapper_hands_out_only_configured_connections
    (config : DuckLakeConfig) (ops : list wrapper_op) :
  let r := wrapper_run config ops new_wrapper in
  (forall c, c ∈ r.2 ->
     c ∈ configuredConnections r.1.1
     /\ exists past, ran_on c r.1.2 = past ++ configuration_script config)
  /\ inner_releases r.1.2 = requested_releases ops.
Proof.
  pose proof (wrapper_run_facts config ops new_wrapper) as H.
  cbv zeta in *. destruct H as (_ & H2 & _ & H4 & H5).
  split; [| done]. intros c Hc. split; [by apply H2 |].
  apply H4; [by apply H2 |]. cbn. set_solver.
Qed.

(** X21.  A connection is configured once: when it is in
    [configuredConnections], no later acquire or release makes the
    wrapper run a statement on it, and it stays in the set. *)
Theorem configured_connection_is_left_alone (config : DuckLakeConfig)
    (ops : list wrapper_op) (w : wrapper) (c : nat) :
  c ∈ configuredConnections w ->
  let r := wrapper_run config ops w in
  c ∈ configuredConnections r.1.1 /\ ran_on c r.1.2 = [].
Proof.
  intros Hc. pose proof (wrapper_run_facts config ops w) as H.
  cbv zeta in *. destruct H as (H1 & _ & H3 & _).
  split; [by apply H1 | by apply H3].
Qed.

Lemma configured_connection_is_left_alone_witness :
  let w := {| configuredConnections := {[ 3%nat ]}; history := ∅ |} in
  let r := wrapper_run sample_config
             [OpAcquire (inr 3%nat) (fun _ _ => None);
              OpRelease 3%nat;
              OpAcquire (inr 3%nat)
                (fun _ _ => Some (Tx.JsError "no"))] w in
  3%nat ∈ configuredConnections r.1.1 /\ ran_on 3%nat r.1.2 = [].
Proof.
  apply (configured_connection_is_left_alone sample_config
           [OpAcquire (inr 3%nat) (fun _ _ => None);
            OpRelease 3%nat;
            OpAcquire (inr 3%nat) (fun _ _ => Some (Tx.JsError "no"))]
           {| configuredConnections := {[ 3%nat ]}; history := ∅ |} 3%nat).
  cbn. apply elem_of_singleton. reflexivity.
Defined.

(** *** Local catalogs *)

Lemma within_unfold fuel catalog :
  isDuckDbFileCatalog_within fuel catalog
  = let trimmed := Client.trim catalog in
    if String.eqb trimmed "" then false
    else if String.eqb trimmed ":memory:" then true
    else if isDuckLakeUri trimmed then
      match fuel with
      | O => false
      | S fuel' =>
          isDuckDbFileCatalog_within fuel'
            (slice (String.length "ducklake:") trimmed)
      end
    else if is_drive_path trimmed then true
    else if Client.startsWith "md:" trimmed then false
    else if is_url trimmed then false
    else if is_database_scheme trimmed then false
    else
      Client.endsWith ".duckdb" trimmed
      || Client.endsWith ".ddb" trimmed
      || Tx.includes "/" trimmed
      || Tx.includes (String (ascii_of_nat 92) EmptyString) trimmed
      || Client.startsWith "./" trimmed
      || Client.startsWith "../" trimmed
      || Client.startsWith "~" trimmed.
Proof. by destruct fuel. Qed.

Lemma within_trim fuel a b :
  Client.trim a = Client.trim b ->
  isDuckDbFileCatalog_within fuel a = isDuckDbFileCatalog_within fuel b.
Proof. intros H. rewrite !within_unfold. cbv zeta. by rewrite H. Qed.

Lemma slice_length n s :
  String.length (slice n s) = (String.length s - n)%nat.
Proof.
  revert s. induction n as [| n IH]; intros s; [cbn; lia |].
  destruct s as [| c s]; [done |]. cbn [slice String.length]. by rewrite IH.
Qed.

Lemma prefix_length p s :
  String.prefix p s = true -> (String.length p <= String.length s)%nat.
Proof.
  revert s. induction p as [| a p IH]; intros s; [cbn; lia |].
  destruct s as [| b s]; [done |]. cbn [String.prefix String.length].
  destruct (ascii_dec a b); [| done]. intros H. apply IH in H. lia.
Qed.

Lemma within_fuel f1 :
  forall f2 s,
    (String.length s <= f1)%nat -> (String.length s <= f2)%nat ->
    isDuckDbFileCatalog_within f1 s = isDuckDbFileCatalog_within f2 s.
Proof.
  induction f1 as [| f1 IH]; intros f2 s H1 H2; rewrite !within_unfold;
    cbv zeta.
  - destruct s; [done | simpl in H1; lia].
  - destruct (String.eqb (Client.trim s) ""); [done |].
    destruct (String.eqb (Client.trim s) ":memory:"); [done |].
    destruct (isDuckLakeUri (Client.trim s)) eqn:E; [| done].
    apply prefix_length in E. pose proof (trim_length s) as Ht.
    change (String.length "ducklake:") with 9%nat in *.
    destruct f2 as [| f2]; [lia |].
    apply IH; rewrite slice_length; lia.
Qed.

Lemma trim_ducklake s :
  Client.trim ("ducklake:" +:+ s) = "ducklake:" +:+ Client.trimEnd s.
Proof.
  unfold Client.trim. rewrite !string_app_cons, string_app_nil.
  cbn [Client.trimStart]. change (Client.is_white_space "d") with false.
  cbv iota. by rewrite !trimEnd_cons_kept.
Qed.

Lemma local_catalog_prefix s :
  isDuckDbFileCatalog ("ducklake:" +:+ s) = isDuckDbFileCatalog s.
Proof.
  unfold isDuckDbFileCatalog.
  rewrite ClientFacts.string_length_app.
  change (String.length "ducklake:") with 9%nat.
  rewrite within_unfold. cbv zeta. rewrite trim_ducklake.
  rewrite startsWith_app_ducklake.
  rewrite !string_app_cons, string_app_nil.
  cbn [String.eqb Ascii.eqb Bool.eqb Nat.add slice String.length].
  cbv iota.
  rewrite (within_trim _ (Client.trimEnd s) s) by apply trim_trimEnd.
  apply within_fuel; lia.
Qed.

Lemma local_catalog_normalized config n :
  normalizeDuckLakeConfig config = inr n ->
  isDuckDbFileCatalog (n_catalog n) = isDuckDbFileCatalog (catalog config).
Proof.
  intros H. apply normalize_inr in H as [_ ->]. cbn [n_catalog].
  destruct (isDuckLakeUri (catalog config)); [done |].
  apply local_catalog_prefix.
Qed.

(** X22.  Whether a catalog counts as a local DuckDB file does not
    depend on a [ducklake:] prefix nor on white space around it, so
    normalizing the catalog does not change the answer; and the
    recursion of [isDuckDbFileCatalog] always ends: once the bound is at
    least the length of the catalog, the answer no longer depends on
    it. *)
Theorem local_catalog_test_ignores_prefix_and_spaces (s : string) :
  isDuckDbFileCatalog ("ducklake:" +:+ s) = isDuckDbFileCatalog s
  /\ isDuckDbFileCatalog (Client.trim s) = isDuckDbFileCatalog s
  /\ isDuckDbFileCatalog
       (if isDuckLakeUri s then s else "ducklake:" +:+ s)
     = isDuckDbFileCatalog s
  /\ forall fuel, (String.length s <= fuel)%nat ->
       isDuckDbFileCatalog_within fuel s = isDuckDbFileCatalog s.
Proof.
  pose proof (local_catalog_prefix s) as H1.
  split; [exact H1 |]. split; [| split].
  - unfold isDuckDbFileCatalog.
    rewrite (within_fuel _ (String.length s) (Client.trim s));
      [| lia | apply trim_length].
    apply within_trim, trim_idem.
  - destruct (isDuckLakeUri s); [done | exact H1].
  - intros fuel Hf. unfold isDuckDbFileCatalog. apply within_fuel; lia.
Qed.

(** *** The size of the pool *)

Lemma resolve_inr pool ducklake r :
  resolveDuckLakePoolSize pool ducklake = inr r ->
  let has := match pool with PoolConfig.PoolUnset => false | _ => true end in
  let local := match ducklake with
               | Some config => isDuckDbFileCatalog (catalog config)
               | None => false
               end in
  r = {| poolSize := if negb has && local
                     then Some 1 else PoolConfig.resolvePoolSize pool;
         resolvedPoolSize := PoolConfig.resolvePoolSize pool;
         isLocalCatalog := local;
         hasPoolSetting := has |}.
Proof.
  unfold resolveDuckLakePoolSize.
  destruct ducklake as [config |].
  - destruct (normalizeDuckLakeConfig config) as [e | n] eqn:Hn; [done |].
    rewrite (local_catalog_normalized config n Hn).
    by intros [= <-].
  - by intros [= <-].
Qed.

(** X23.  The pool [drizzle(connectionString, config)] creates.  No pool
    is created exactly when [pool: false] was given.  Otherwise the pool
    has at least one connection: an explicit setting is never overridden
    by DuckLake (a preset gives its size, [{ size: n }] gives [n] when
    [n] is positive and 4 otherwise), and without a setting the size is 1
    when the DuckLake catalog is a local file and 4 in every other case.
    The pool gets a [setup] hook exactly when DuckLake is configured. *)
Theorem connection_string_pool_size (pool : PoolConfig.pool_setting)
    (ducklake : option DuckLakeConfig) (warns : bool)
    (plan : option Pool.options) :
  createFromConnectionString pool ducklake = inr (warns, plan) ->
  (plan = None <-> pool = PoolConfig.PoolDisabled)
  /\ forall o, plan = Some o ->
       1 <= Pool.size o
       /\ Pool.opt_setup o = bool_decide (ducklake <> None)
       /\ Pool.size o
          = match pool with
            | PoolConfig.PoolUnset =>
                if match ducklake with
                   | Some config => isDuckDbFileCatalog (catalog config)
                   | None => false
                   end
                then 1 else 4
            | PoolConfig.PoolPresetNamed p => PoolConfig.POOL_PRESETS p
            | PoolConfig.PoolSized (Some n) => if 0 <? n then n else 4
            | _ => 4
            end.
Proof.
  unfold createFromConnectionString.
  destruct (resolveDuckLakePoolSize pool ducklake) as [e | r] eqn:Hr; [done |].
  apply resolve_inr in Hr. cbv zeta in Hr. subst r.
  cbn [poolSize resolvedPoolSize isLocalCatalog hasPoolSetting].
  intros [= _ <-].
  set (local := match ducklake with
                | Some config => isDuckDbFileCatalog (catalog config)
                | None => false
                end).
  assert (Hs : match ducklake with Some _ => true | None => false end
               = bool_decide (ducklake <> None)).
  { destruct ducklake; [by rewrite bool_decide_true |].
    by rewrite bool_decide_false by (intros H; by apply H). }
  assert (Hsize : forall n b,
    Pool.size (PoolConfig.options_of_size n b) = if 0 <? n then n else 4)
    by done.
  assert (Hpos : forall n b, 1 <= Pool.size (PoolConfig.options_of_size n b)).
  { intros n b. rewrite Hsize.
    destruct (0 <? n) eqn:E; [apply Z.ltb_lt in E |]; lia. }
  destruct pool as [| | p | [n |]];
    cbn [negb andb PoolConfig.resolvePoolSize default].
  - split; [done |]. intros o H. done.
  - split; [by destruct local |]. intros o Ho.
    assert (o = PoolConfig.options_of_size (if local then 1 else 4)
                  match ducklake with Some _ => true | None => false end)
      as -> by (destruct local; by injection Ho as <-).
    split; [apply Hpos |]. split; [exact Hs |].
    rewrite Hsize. by destruct local.
  - split; [done |]. intros o [= <-].
    split; [apply Hpos |]. split; [exact Hs |].
    rewrite Hsize. by destruct p.
  - split; [done |]. intros o [= <-].
    split; [apply Hpos |]. split; [exact Hs |]. apply Hsize.
  - split; [done |]. intros o [= <-].
    split; [apply Hpos |]. split; [exact Hs |]. by rewrite Hsize.
Qed.

Lemma connection_string_pool_size_witness :
  (Some (PoolConfig.options_of_size 1 true) = None
   <-> PoolConfig.PoolUnset = PoolConfig.PoolDisabled)
  /\ forall o, Some (PoolConfig.options_of_size 1 true) = Some o ->
       1 <= Pool.size o
       /\ Pool.opt_setup o = bool_decide (Some local_config <> None)
       /\ Pool.size o
          = if isDuckDbFileCatalog (catalog local_config) then 1 else 4.
Proof.
  apply (connection_string_pool_size PoolConfig.PoolUnset
           (Some local_config) true
           (Some (PoolConfig.options_of_size 1 true))).
  reflexivity.
Defined.

(** X24.  The warning about several connections sharing a catalog file
    is decided from the size the pool setting alone resolves to, not
    from the size of the pool that is created: with a local catalog and
    no pool setting the pool is created with a single connection, and
    the warning is issued all the same. *)
Theorem default_local_pool_warns_although_single (config : DuckLakeConfig) :
  catalog config <> EmptyString ->
  isDuckDbFileCatalog (catalog config) = true ->
  exists o,
    createFromConnectionString PoolConfig.PoolUnset (Some config)
    = inr (true, Some o)
    /\ Pool.size o = 1.
Proof.
  intros Hc Hl. unfold createFromConnectionString, resolveDuckLakePoolSize.
  destruct (normalizeDuckLakeConfig config) as [e | n] eqn:Hn.
  - unfold normalizeDuckLakeConfig in Hn.
    apply String.eqb_neq in Hc. by rewrite Hc in Hn.
  - rewrite (local_catalog_normalized config n Hn), Hl.
    cbn. eexists. split; [reflexivity | reflexivity].
Qed.

Lemma default_local_pool_warns_although_single_witness :
  exists o,
    createFromConnectionString PoolConfig.PoolUnset (Some local_config)
    = inr (true, Some o)
    /\ Pool.size o = 1.
Proof.
  apply (default_local_pool_warns_although_single local_config);
    [discriminate | reflexivity].
Defined.

End DuckLakeFacts.

(** ** Facts about the rows the streaming executor delivers *)

Module StreamRows.

Import Stream.

Section Rows.

Context {value A : Type}.
Variable conv : list string -> list (row value) -> list A.
Variable client : DuckDBClientLike value.
Variable options : ExecuteInBatchesOptions.

Lemma batches_concat P : forall (rs buffer : list A),
  concat (batches P buffer rs) = buffer ++ rs.
Proof.
  induction rs as [| r rs IH]; intros buffer; cbn [batches].
  - destruct buffer; [done |]. cbn. by rewrite !app_nil_r.
  - destruct (P <=? _).
    + cbn [concat]. rewrite IH. by rewrite <- app_assoc.
    + rewrite IH. by rewrite <- app_assoc.
Qed.

Lemma batches_nonempty P : forall (rs buffer : list A),
  Forall (fun chunk => chunk <> []) (batches P buffer rs).
Proof.
  induction rs as [| r rs IH]; intros buffer; cbn [batches].
  - destruct buffer; [constructor |]. cbn. by repeat constructor.
  - destruct (P <=? _); [| apply IH].
    constructor; [| apply IH]. by destruct buffer.
Qed.

(** What has been received and what is still ahead add up to the whole,
    after any number of [next()] calls. *)
Lemma nexts_chunks k : forall g,
  unfailing client g ->
  let r := drive conv client options g (replicate k Next) in
  chunks_of r.2 ++ chunks_ahead client conv (rows_per_chunk options) r.1.1
  = chunks_ahead client conv (rows_per_chunk options) g
  /\ unfailing client r.1.1.
Proof.
  induction k as [| k IH]; intros g Hf; cbv zeta; [done |].
  cbn [replicate drive apply_op].
  pose proof (StreamFacts.next_chunks conv client options g Hf) as [Hc Hf1].
  destruct (next conv client options g) as [[g1 c1] r1]. cbn [fst snd] in *.
  specialize (IH g1 Hf1). cbv zeta in IH. destruct IH as [IH1 IH2].
  destruct (drive conv client options g1 (replicate k Next)) as [[g2 c2] r2].
  cbn [fst snd] in *. split; [| done].
  rewrite StreamFacts.chunks_of_cons, <- app_assoc, IH1. exact Hc.
Qed.

Lemma return_yields_nothing (g : @gen value A) :
  chunks_of [(gen_return client g).2] = [].
Proof.
  unfold gen_return, after_release.
  destruct g; try done; by destruct client as [c | acq [e |]].
Qed.

Lemma stopped_early_prefix (r : StreamResultLike value) (k : nat) :
  the_result client = Some r ->
  sr_fail r = None ->
  chunks_of (drive conv client options GInit
               (replicate k Next ++ [Return])).2
  `prefix_of`
  batches (rows_per_chunk options) []
    (concat (map (conv (stream_columns r)) (sr_chunks r))).
Proof.
  intros Hr Hf.
  pose proof (nexts_chunks k GInit) as H. cbv zeta in H.
  destruct H as [H _]; [cbn; intros r' Hr'; congruence |].
  rewrite StreamFacts.drive_app.
  destruct (drive conv client options GInit (replicate k Next))
    as [[g1 c1] r1]. cbn [fst snd] in *.
  cbn [drive apply_op].
  pose proof (return_yields_nothing g1) as Hret.
  destruct (gen_return client g1) as [[g2 c2] r2]. cbn [fst snd] in *.
  unfold chunks_of in *. rewrite omap_app.
  fold (@chunks_of A [r2]). unfold chunks_of. rewrite Hret, app_nil_r.
  cbn [chunks_ahead] in H. rewrite Hr in H. unfold pending_rows in H.
  rewrite app_nil_l in H. rewrite <- H. by apply prefix_app_r.
Qed.

Lemma exhausted_rows (r : StreamResultLike value) (n : nat) :
  the_result client = Some r ->
  sr_fail r = None ->
  (length (concat (map (conv (stream_columns r)) (sr_chunks r))) + 3
   <= n)%nat ->
  chunks_of (drive conv client options GInit (replicate n Next)).2
  = batches (rows_per_chunk options) []
      (concat (map (conv (stream_columns r)) (sr_chunks r))).
Proof.
  intros Hr Hf Hn. rewrite StreamFacts.exhaust_chunks.
  - cbn [chunks_ahead]. rewrite Hr. unfold pending_rows.
    by rewrite app_nil_l.
  - cbn. intros r' Hr'. congruence.
  - cbn [rank]. rewrite Hr. unfold pending_rows. rewrite app_nil_l. lia.
Qed.

End Rows.

Lemma concat_mapRowsToObjects {value : Type} cols
    (ls : list (list (row value))) :
  concat (map (mapRowsToObjects cols) ls)
  = mapRowsToObjects cols (concat ls).
Proof.
  unfold mapRowsToObjects. induction ls as [| c ls IH]; [done |].
  cbn [map concat]. by rewrite IH, map_app.
Qed.

Lemma concat_identity {B : Type} (ls : list (list B)) :
  concat (map (fun c => c) ls) = concat ls.
Proof. by rewrite map_id. Qed.

(** X25.  A consumer that exhausts the stream of a cursor that does not
    fail receives every row exactly once and in the order the engine
    delivered them: the chunks of [executeInBatchesRaw], put end to end,
    are the rows of the result set, those of [executeInBatches] are the
    row objects [mapRowsToObjects] builds from them with the columns
    computed when the stream was opened; no chunk is empty. *)
Theorem streamed_rows_are_complete_and_in_order {value : Type}
    (client : DuckDBClientLike value) (options : ExecuteInBatchesOptions)
    (r : StreamResultLike value) (n : nat) :
  the_result client = Some r ->
  sr_fail r = None ->
  (length (concat (sr_chunks r)) + 3 <= n)%nat ->
  let raw := chunks_of
               (executeInBatchesRaw client options GInit
                  (replicate n Next)).2 in
  let objects := chunks_of
                   (executeInBatches client options GInit
                      (replicate n Next)).2 in
  concat raw = concat (sr_chunks r)
  /\ concat objects
     = mapRowsToObjects (stream_columns r) (concat (sr_chunks r))
  /\ Forall (fun chunk => chunk <> []) raw
  /\ Forall (fun chunk => chunk <> []) objects.
Proof.
  intros Hr Hf Hn. cbv zeta. unfold executeInBatches, executeInBatchesRaw.
  rewrite (exhausted_rows (fun _ c => c) client options r n Hr Hf)
    by (by rewrite map_id).
  rewrite (exhausted_rows mapRowsToObjects client options r n Hr Hf).
  - rewrite !batches_concat, !app_nil_l, map_id, concat_mapRowsToObjects.
    split; [done |]. split; [done |]. split; apply batches_nonempty.
  - rewrite concat_mapRowsToObjects. unfold mapRowsToObjects.
    by rewrite length_map.
Qed.

Lemma streamed_rows_are_complete_and_in_order_witness :
  let client := Conn {| stream := inr sample_cursor |} in
  let options := {| rowsPerChunk := Some 2 |} in
  let raw := chunks_of
               (executeInBatchesRaw client options GInit
                  (replicate 8 Next)).2 in
  let objects := chunks_of
                   (executeInBatches client options GInit
                      (replicate 8 Next)).2 in
  concat raw = concat (sr_chunks sample_cursor)
  /\ concat objects
     = mapRowsToObjects (stream_columns sample_cursor)
         (concat (sr_chunks sample_cursor))
  /\ Forall (fun chunk => chunk <> []) raw
  /\ Forall (fun chunk => chunk <> []) objects.
Proof.
  apply (streamed_rows_are_complete_and_in_order
           (Conn {| stream := inr sample_cursor |})
           {| rowsPerChunk := Some 2 |} sample_cursor 8);
    [reflexivity | reflexivity | simpl; lia].
Defined.

(** X26.  A consumer that stops early loses nothing it was owed so far:
    after any number of [next()] calls followed by [return()], on a
    cursor that does not fail, the chunks received are the first chunks
    of the complete stream, in order, and [return()] itself delivers no
    chunk. *)
Theorem stopping_early_yields_a_prefix {value : Type}
    (client : DuckDBClientLike value) (options : ExecuteInBatchesOptions)
    (r : StreamResultLike value) (k : nat) :
  the_result client = Some r ->
  sr_fail r = None ->
  chunks_of (executeInBatchesRaw client options GInit
               (replicate k Next ++ [Return])).2
  `prefix_of` batches (rows_per_chunk options) [] (concat (sr_chunks r))
  /\ chunks_of (executeInBatches client options GInit
                  (replicate k Next ++ [Return])).2
     `prefix_of` batches (rows_per_chunk options) []
                   (mapRowsToObjects (stream_columns r)
                      (concat (sr_chunks r)))
  /\ chunks_of (executeInBatchesRaw client options GInit
                  (replicate k Next ++ [Return])).2
     = chunks_of (executeInBatchesRaw client options GInit
                    (replicate k Next)).2.
Proof.
  intros Hr Hf. unfold executeInBatches, executeInBatchesRaw.
  split; [| split].
  - pose proof (stopped_early_prefix (fun _ c => c) client options r k
                  Hr Hf) as H.
    by rewrite map_id in H.
  - rewrite <- concat_mapRowsToObjects.
    by apply (stopped_early_prefix mapRowsToObjects client options r k).
  - rewrite StreamFacts.drive_app.
    destruct (drive _ client options GInit (replicate k Next))
      as [[g1 c1] r1]. cbn [fst snd drive apply_op].
    pose proof (return_yields_nothing client g1 (A := row value)) as Hret.
    destruct (gen_return client g1) as [[g2 c2] r2]. cbn [fst snd] in *.
    unfold chunks_of in *. by rewrite omap_app, Hret, app_nil_r.
Qed.

Lemma stopping_early_yields_a_prefix_witness :
  let client := Conn {| stream := inr sample_cursor |} in
  let options := {| rowsPerChunk := Some 2 |} in
  chunks_of (executeInBatchesRaw client options GInit
               (replicate 1 Next ++ [Return])).2
  `prefix_of` batches (rows_per_chunk options) []
                (concat (sr_chunks sample_cursor))
  /\ chunks_of (executeInBatches client options GInit
                  (replicate 1 Next ++ [Return])).2
     `prefix_of` batches (rows_per_chunk options) []
                   (mapRowsToObjects (stream_columns sample_cursor)
                      (concat (sr_chunks sample_cursor)))
  /\ chunks_of (executeInBatchesRaw client options GInit
                  (replicate 1 Next ++ [Return])).2
     = chunks_of (executeInBatchesRaw client options GInit
                    (replicate 1 Next)).2.
Proof.
  apply (stopping_early_yields_a_prefix
           (Conn {| stream := inr sample_cursor |})
           {| rowsPerChunk := Some 2 |} sample_cursor 1);
    reflexivity.
Defined.

End StreamRows.

(** ** Facts about streams that fail *)

Module StreamFailureFacts.

Import Stream StreamFailure.

Section Failing.

Context {value A : Type}.
Variable conv : list string -> list (row value) -> list A.
Variable client : DuckDBClientLike value.
Variable options : ExecuteInBatchesOptions.

Lemma fill_full P : forall (cur buffer tail : list A),
  match fill P buffer cur with
  | inl (chunk, cur') =>
      full_batches P buffer (cur ++ tail)
      = chunk :: full_batches P [] (cur' ++ tail)
  | inr buffer' =>
      full_batches P buffer (cur ++ tail) = full_batches P buffer' tail
  end.
Proof.
  induction cur as [| r cur IH]; intros buffer tail; simpl.
  - reflexivity.
  - destruct (P <=? _); [reflexivity | apply IH].
Qed.

Lemma pump_full cols P : forall rest (buffer cur : list A),
  match pump conv cols P buffer cur rest with
  | inl (chunk, cur', rest') =>
      full_batches P buffer (pending_rows conv cols cur rest)
      = chunk :: full_batches P [] (pending_rows conv cols cur' rest')
  | inr buffer' =>
      full_batches P buffer (pending_rows conv cols cur rest) = []
  end.
Proof.
  unfold pending_rows.
  induction rest as [| c rest IH]; intros buffer cur; simpl.
  - pose proof (fill_full P cur buffer []) as F.
    destruct (fill P buffer cur) as [[ch cu] | b]; simpl in *; exact F.
  - pose proof (fill_full P cur buffer
                  (conv cols c ++ concat (map (conv cols) rest))) as F.
    destruct (fill P buffer cur) as [[ch cu] | b]; [exact F |].
    rewrite F. apply IH.
Qed.

Lemma resume_full r cur rest e :
  sr_fail r = Some e ->
  let x := resume conv client options r cur rest in
  chunks_of [x.2] ++ full_ahead conv client (rows_per_chunk options) x.1.1
  = full_batches (rows_per_chunk options) []
      (pending_rows conv (stream_columns r) cur rest)
  /\ (fails_with client e x.1.1
      \/ x.1.1 = GDone /\ x.2 = after_release client (Throw e)).
Proof.
  intros Hf. cbv zeta. unfold resume.
  pose proof (pump_full (stream_columns r) (rows_per_chunk options)
                rest [] cur) as HB.
  destruct (pump _ _ _ _ _ _) as [[[chunk cur'] rest'] | buffer].
  - cbn. rewrite HB. split; [done | by left].
  - rewrite Hf, HB. cbn [fst snd full_ahead]. rewrite app_nil_r.
    split; [| by right].
    apply StreamFacts.chunks_of_after_release. congruence.
Qed.

Lemma next_full g e :
  fails_with client e g ->
  let x := next conv client options g in
  chunks_of [x.2] ++ full_ahead conv client (rows_per_chunk options) x.1.1
  = full_ahead conv client (rows_per_chunk options) g
  /\ (fails_with client e x.1.1
      \/ x.1.1 = GDone /\ x.2 = after_release client (Throw e)).
Proof.
  intros Hf. cbv zeta.
  destruct g as [| r cur rest | r |]; cbn [next full_ahead]; try done.
  - destruct Hf as (r & Hr & Hf). rewrite Hr.
    unfold start. unfold the_result, the_cursor, the_connection in Hr.
    destruct client as [c | [e' | c] rel] eqn:Hcl; try done.
    + cbn [the_connection]. destruct (stream c) as [e' | r'] eqn:Hs;
        [done |].
      destruct (read_columns r') as [e' | cols] eqn:Hcols; [done |].
      injection Hr as ->.
      pose proof (resume_full r [] (sr_chunks r) e Hf) as HR.
      cbv zeta in HR. rewrite Hcl in HR.
      destruct (resume _ _ _ _ _ _) as [[g' calls] res]. exact HR.
    + cbn [the_connection]. destruct (stream c) as [e' | r'] eqn:Hs;
        [done |].
      destruct (read_columns r') as [e' | cols] eqn:Hcols; [done |].
      injection Hr as ->.
      pose proof (resume_full r [] (sr_chunks r) e Hf) as HR.
      cbv zeta in HR. rewrite Hcl in HR.
      destruct (resume _ _ _ _ _ _) as [[g' calls] res]. exact HR.
  - by apply resume_full.
Qed.

Lemma done_stays n :
  chunks_of (drive conv client options GDone (replicate n Next)).2 = [].
Proof.
  induction n as [| n IH]; [done |]. cbn [replicate drive apply_op next].
  destruct (drive conv client options GDone (replicate n Next))
    as [[g2 c2] r2]. exact IH.
Qed.

Lemma exhaust_full n e : forall g,
  fails_with client e g ->
  (rank client conv g <= n)%nat ->
  let outs := (drive conv client options g (replicate n Next)).2 in
  chunks_of outs = full_ahead conv client (rows_per_chunk options) g
  /\ after_release client (Throw e) ∈ outs.
Proof.
  induction n as [| n IH]; intros g Hf Hg; cbv zeta.
  - destruct g; simpl in Hg; try lia. done.
  - cbn [replicate drive apply_op].
    pose proof (StreamFacts.next_rank conv client options g) as Hn.
    pose proof (next_full g e Hf) as [Hc Hnext]. cbv zeta in Hc, Hnext.
    destruct (next conv client options g) as [[g1 c1] r1].
    cbn [fst snd] in *.
    destruct Hnext as [Hf1 | [-> ->]].
    + specialize (IH g1 Hf1 ltac:(lia)). cbv zeta in IH.
      destruct (drive conv client options g1 (replicate n Next))
        as [[g2 c2] r2]. cbn [fst snd] in *. destruct IH as [IH1 IH2].
      split; [by rewrite StreamFacts.chunks_of_cons, IH1 |].
      by apply list_elem_of_further.
    + pose proof (done_stays n) as Hd.
      destruct (drive conv client options GDone (replicate n Next))
        as [[g2 c2] r2]. cbn [fst snd] in *.
      split; [| apply list_elem_of_here].
      rewrite StreamFacts.chunks_of_cons, Hd. exact Hc.
Qed.

Lemma full_batches_spec P : 0 < P -> forall (rs buffer : list A),
  Z.of_nat (length buffer) < P ->
  Forall (fun chunk => Z.of_nat (length chunk) = P) (full_batches P buffer rs)
  /\ exists lost,
       buffer ++ rs = concat (full_batches P buffer rs) ++ lost
       /\ Z.of_nat (length lost) < P.
Proof.
  intros HP. induction rs as [| r rs IH]; intros buffer Hb;
    cbn [full_batches].
  - split; [constructor |]. exists buffer. by rewrite app_nil_r.
  - destruct (P <=? Z.of_nat (length (buffer ++ [r]))) eqn:E.
    + apply Z.leb_le in E. rewrite length_app in E. simpl in E.
      destruct (IH [] ltac:(simpl; lia)) as [I1 (lost & I2 & I3)].
      split.
      * constructor; [rewrite length_app; simpl; lia | done].
      * exists lost. split; [| done]. cbn [concat].
        rewrite <- !app_assoc. cbn [app]. f_equal. f_equal. exact I2.
    + apply Z.leb_gt in E.
      destruct (IH (buffer ++ [r]) E) as [I1 (lost & I2 & I3)].
      split; [done |]. exists lost. split; [| done].
      rewrite <- I2. by rewrite <- app_assoc.
Qed.

Lemma failed_stream (r : StreamResultLike value) (e : error) (n : nat) :
  the_result client = Some r ->
  sr_fail r = Some e ->
  (length (concat (map (conv (stream_columns r)) (sr_chunks r))) + 3
   <= n)%nat ->
  let rows := concat (map (conv (stream_columns r)) (sr_chunks r)) in
  let outs := (drive conv client options GInit (replicate n Next)).2 in
  chunks_of outs = full_batches (rows_per_chunk options) [] rows
  /\ Forall (fun chunk => Z.of_nat (length chunk) = rows_per_chunk options)
       (chunks_of outs)
  /\ (exists lost, rows = concat (chunks_of outs) ++ lost
                   /\ Z.of_nat (length lost) < rows_per_chunk options)
  /\ after_release client (Throw e) ∈ outs.
Proof.
  intros Hr Hf Hn. cbv zeta.
  destruct (exhaust_full n e GInit) as [H1 H2].
  - exists r. by split.
  - cbn [rank]. rewrite Hr. unfold pending_rows. rewrite app_nil_l. lia.
  - cbv zeta in H1. cbn [full_ahead] in H1. rewrite Hr in H1.
    unfold pending_rows in H1. rewrite app_nil_l in H1.
    pose proof (full_batches_spec (rows_per_chunk options)
                  (StreamFacts.rows_per_chunk_pos options)
                  (concat (map (conv (stream_columns r)) (sr_chunks r))) [])
      as Hs.
    destruct Hs as [S1 (lost & S2 & S3)];
      [pose proof (StreamFacts.rows_per_chunk_pos options); simpl; lia |].
    rewrite H1. split; [done |]. split; [done |]. split; [| done].
    exists lost. by split.
Qed.

End Failing.

(** X27.  When the cursor fails after delivering its rows, the consumer
    has received only complete chunks: exactly the chunks of [P] rows
    that can be cut from the rows delivered, in order.  The rows left in
    the buffer, fewer than [P], are never yielded; the call of [next()]
    that finds the failure is rejected with the cursor's error, or with
    the error of [release] when that throws too. *)
Theorem failing_stream_yields_only_full_chunks {value : Type}
    (client : DuckDBClientLike value) (options : ExecuteInBatchesOptions)
    (r : StreamResultLike value) (e : error) (n : nat) :
  the_result client = Some r ->
  sr_fail r = Some e ->
  (length (concat (sr_chunks r)) + 3 <= n)%nat ->
  let P := rows_per_chunk options in
  let raw := (executeInBatchesRaw client options GInit
                (replicate n Next)).2 in
  let objects := (executeInBatches client options GInit
                    (replicate n Next)).2 in
  chunks_of raw = full_batches P [] (concat (sr_chunks r))
  /\ chunks_of objects
     = full_batches P []
         (mapRowsToObjects (stream_columns r) (concat (sr_chunks r)))
  /\ Forall (fun chunk => Z.of_nat (length chunk) = P) (chunks_of raw)
  /\ (exists lost, concat (sr_chunks r) = concat (chunks_of raw) ++ lost
                   /\ Z.of_nat (length lost) < P)
  /\ after_release client (Throw e) ∈ raw
  /\ after_release client (Throw e) ∈ objects.
Proof.
  intros Hr Hf Hn. cbv zeta. unfold executeInBatches, executeInBatchesRaw.
  pose proof (failed_stream (fun _ c => c) client options r e n Hr Hf)
    as H1. cbv zeta in H1. rewrite map_id in H1.
  destruct (H1 Hn) as (A1 & A2 & A3 & A4).
  pose proof (failed_stream mapRowsToObjects client options r e n Hr Hf)
    as H2. cbv zeta in H2.
  rewrite StreamRows.concat_mapRowsToObjects in H2.
  destruct H2 as (B1 & _ & _ & B4);
    [unfold mapRowsToObjects; by rewrite length_map |].
  split; [done |]. split; [done |]. split; [done |]. split; [done |].
  by split.
Qed.

Lemma failing_stream_yields_only_full_chunks_witness :
  let client := Conn {| stream := inr failing_cursor |} in
  let options := {| rowsPerChunk := Some 2 |} in
  let P := rows_per_chunk options in
  let raw := (executeInBatchesRaw client options GInit
                (replicate 8 Next)).2 in
  let objects := (executeInBatches client options GInit
                    (replicate 8 Next)).2 in
  chunks_of raw = full_batches P [] (concat (sr_chunks failing_cursor))
  /\ chunks_of objects
     = full_batches P []
         (mapRowsToObjects (stream_columns failing_cursor)
            (concat (sr_chunks failing_cursor)))
  /\ Forall (fun chunk => Z.of_nat (length chunk) = P) (chunks_of raw)
  /\ (exists lost,
        concat (sr_chunks failing_cursor) = concat (chunks_of raw) ++ lost
        /\ Z.of_nat (length lost) < P)
  /\ after_release client (Throw 9%nat) ∈ raw
  /\ after_release client (Throw 9%nat) ∈ objects.
Proof.
  apply (failing_stream_yields_only_full_chunks
           (Conn {| stream := inr failing_cursor |})
           {| rowsPerChunk := Some 2 |} failing_cursor 9%nat 8);
    [reflexivity | reflexivity | simpl; lia].
Defined.

End StreamFailureFacts.

(** ** Facts about commit, savepoints and the text of [SET TRANSACTION] *)

Module TxTraceFacts.

#[local] Set Warnings "-clear-no-such-hyp".

Import Tx TxTrace.

Lemma tally_cons {X : Type} (p : X -> bool) x l :
  tally p (x :: l) = ((if p x then 1 else 0) + tally p l)%nat.
Proof.
  unfold tally. rewrite filter_cons.
  destruct (p x) eqn:E.
  - by rewrite decide_True.
  - by rewrite decide_False.
Qed.

Lemma tally_app {X : Type} (p : X -> bool) a b :
  tally p (a ++ b) = (tally p a + tally p b)%nat.
Proof. unfold tally. by rewrite filter_app, length_app. Qed.

Lemma deeper_weaken n s : deeper (S n) s = true -> deeper n s = true.
Proof.
  destruct s; cbn [deeper]; try done; intros H; apply Nat.ltb_lt in H;
    apply Nat.ltb_lt; lia.
Qed.

Lemma balanced_nil n : balanced n [].
Proof. by split. Qed.

Lemma balanced_app n a b : balanced n a -> balanced n b -> balanced n (a ++ b).
Proof.
  intros [A1 A2] [B1 B2]. split.
  - rewrite !tally_app. lia.
  - by apply Forall_app.
Qed.

Lemma balanced_weaken n new : balanced (S n) new -> balanced n new.
Proof.
  intros [H1 H2]. split; [done |].
  eapply Forall_impl; [exact H2 |].
  intros x [Hc Hd]. split; [done | by apply deeper_weaken].
Qed.

(** A savepoint that was opened, what the callback added, and what closed
    the savepoint. *)
Lemma balanced_bracket n new closing :
  balanced (S n) new ->
  tally opens closing = 0%nat ->
  tally closes closing = 1%nat ->
  Forall (fun x => by_callback x.1 = true /\ deeper n x.1 = true) closing ->
  balanced n ([(Savepoint (S n), None)] ++ new ++ closing).
Proof.
  intros Hn Ho Hc Hall. apply balanced_weaken in Hn as [H1 H2]. split.
  - cbn [app]. rewrite !tally_cons, !tally_app. cbn [opens closes]. lia.
  - cbn [app]. constructor.
    + cbn [fst by_callback deeper]. split; [done |]. apply Nat.ltb_lt. lia.
    + by apply Forall_app.
Qed.

Ltac lists_agree :=
  repeat (cbn [app]; rewrite <- ?app_assoc); done.

Section Facts.

Variable eng : engine.

Lemma execute_inv s st st' r :
  execute eng s st = (st', r) ->
  sent st' = sent st ++ [(s, r)]
  /\ rollbackOnly st' = rollbackOnly st /\ dialect st' = dialect st.
Proof. unfold execute. by intros [= <- <-]. Qed.

Lemma runNestedWithoutSavepoint_sent
    (f : state -> state * option thrown) st :
  sent (runNestedWithoutSavepoint f st).1 = sent (f st).1.
Proof.
  unfold runNestedWithoutSavepoint. by destruct (f st) as [st1 [e |]].
Qed.

Lemma by_callback_protocol n s :
  s = Savepoint (S n) \/ s = ReleaseSavepoint (S n) \/ s = RollbackTo (S n) ->
  by_callback s = true /\ deeper n s = true.
Proof.
  intros [-> | [-> | ->]]; (split; [done |]); apply Nat.ltb_lt; lia.
Qed.

Lemma nested_transaction_well_nested n
    (f : state -> state * option thrown) :
  well_nested (S n) f -> well_nested n (nested_transaction eng n f).
Proof.
  intros Hf st. rewrite TxFacts.nested_transaction_unfold.
  destruct (areSavepointsUnsupported (dialect st)).
  { destruct (Hf st) as (new & Hs & Hb). exists new.
    rewrite runNestedWithoutSavepoint_sent.
    split; [done | by apply balanced_weaken]. }
  destruct (execute eng (Savepoint (S n)) st) as [st1 [e |]] eqn:H1;
    apply execute_inv in H1 as (H1 & _ & _).
  - destruct (negb (isSavepointSyntaxError e)).
    + exists [(Savepoint (S n), Some e)]. split; [done |].
      split; [done |]. constructor; [| done].
      apply by_callback_protocol. by left.
    + rewrite runNestedWithoutSavepoint_sent.
      match goal with
      | |- context [f ?s] => destruct (Hf s) as (new & Hs & Hb)
      end.
      cbn [sent set_dialect] in Hs.
      exists ([(Savepoint (S n), Some e)] ++ new).
      split; [by rewrite Hs, H1, <- app_assoc |].
      apply balanced_app; [| by apply balanced_weaken].
      split; [done |]. constructor; [| done].
      apply by_callback_protocol. by left.
  - cbv zeta.
    match goal with
    | |- context [f ?s] =>
        destruct (Hf s) as (new & Hs & Hb); destruct (f s) as [st3 r3]
    end.
    cbn [fst sent set_dialect] in Hs.
    destruct r3 as [err |].
    + destruct (execute eng (RollbackTo (S n)) st3) as [st4 r4] eqn:H4.
      apply execute_inv in H4 as (H4 & _ & _).
      exists ([(Savepoint (S n), None)] ++ new ++ [(RollbackTo (S n), r4)]).
      split.
      * destruct r4; cbn [fst sent markRollbackOnly];
          by rewrite H4, Hs, H1, <- !app_assoc.
      * apply balanced_bracket; [done | done | done |].
        constructor; [| done]. apply by_callback_protocol. auto.
    + destruct (execute eng (ReleaseSavepoint (S n)) st3) as [st4 [e' |]]
        eqn:H4; apply execute_inv in H4 as (H4 & _ & _).
      * destruct (execute eng (RollbackTo (S n)) st4) as [st5 r5] eqn:H5.
        apply execute_inv in H5 as (H5 & _ & _).
        exists ([(Savepoint (S n), None)] ++ new
                ++ [(ReleaseSavepoint (S n), Some e');
                    (RollbackTo (S n), r5)]).
        split.
        -- destruct r5; cbn [fst sent markRollbackOnly];
             by rewrite H5, H4, Hs, H1, <- !app_assoc.
        -- apply balanced_bracket; [done | done | done |].
           constructor; [apply by_callback_protocol; auto |].
           constructor; [| done]. apply by_callback_protocol. auto.
      * exists ([(Savepoint (S n), None)] ++ new
                ++ [(ReleaseSavepoint (S n), None)]).
        split; [cbn [fst]; by rewrite H4, Hs, H1, <- !app_assoc |].
        apply balanced_bracket; [done | done | done |].
        constructor; [| done]. apply by_callback_protocol. auto.
Qed.

Lemma run_actions_well_nested_of body :
  Forall (fun a => forall n, well_nested n (run_action eng n a)) body ->
  forall n, well_nested n (run_actions eng n body).
Proof.
  induction 1 as [| a body Ha _ IH]; intros n st; cbn [run_actions].
  - exists []. rewrite app_nil_r. split; [done | apply balanced_nil].
  - destruct (Ha n st) as (new1 & Hs1 & Hb1).
    destruct (run_action eng n a st) as [st1 [e |]]; cbn [fst] in *.
    + by exists new1.
    + destruct (IH n st1) as (new2 & Hs2 & Hb2).
      exists (new1 ++ new2). split; [by rewrite Hs2, Hs1, app_assoc |].
      by apply balanced_app.
Qed.

Lemma run_action_well_nested a :
  forall n, well_nested n (run_action eng n a).
Proof.
  induction a as [text | e | | body IH | body IH]
    using TxFacts.action_induction; intros n st.
  - cbn [run_action]. exists [(Query text, eng (statements st) (Query text))].
    split; [done |]. split; [done |]. by constructor.
  - exists []. rewrite app_nil_r. split; [done | apply balanced_nil].
  - exists []. rewrite app_nil_r. split; [done | apply balanced_nil].
  - rewrite TxFacts.run_action_nested.
    apply nested_transaction_well_nested, run_actions_well_nested_of, IH.
  - rewrite TxFacts.run_action_try. cbn [fst].
    apply run_actions_well_nested_of, IH.
Qed.

Lemma run_actions_well_nested n body :
  well_nested n (run_actions eng n body).
Proof.
  apply run_actions_well_nested_of, Forall_forall. intros a _.
  apply run_action_well_nested.
Qed.

(** X28.  Every savepoint a callback opens is closed, whatever the
    engine answers and however the callback and its nested transactions
    end: in what a callback adds to the statements sent, the savepoints
    the engine accepted are as many as the accepted [RELEASE SAVEPOINT]
    and the [ROLLBACK TO SAVEPOINT] sent, taken together.  A callback
    adds only its own statements and statements of the savepoint
    protocol, never [BEGIN], [COMMIT], [ROLLBACK] or [SET TRANSACTION],
    and the savepoints it names are numbered above its own depth. *)
Theorem savepoints_are_closed (n : nat) (body : list action) (st : state) :
  exists new,
    sent (run_actions eng n body st).1 = sent st ++ new
    /\ tally opens new = tally closes new
    /\ Forall (fun x => by_callback x.1 = true /\ deeper n x.1 = true) new.
Proof.
  destruct (run_actions_well_nested n body st) as (new & Hs & Hb & Hall).
  by exists new.
Qed.

Lemma by_callback_keeps_open n new :
  Forall (fun x => by_callback x.1 = true /\ deeper n x.1 = true) new ->
  Forall keeps_open new.
Proof.
  intros H. eapply Forall_impl; [exact H |].
  intros [s r] [Hc _]. unfold keeps_open. cbn [fst] in *.
  split; intros ->; done.
Qed.

Lemma keeps_open_not_committed l :
  Forall keeps_open l -> (Commit, @None thrown) ∉ l.
Proof.
  intros H Hin. rewrite Forall_forall in H.
  destruct (H _ Hin) as [Hc _]. by apply Hc.
Qed.

Lemma not_committed_app (a b : list (sql_stmt * option thrown)) :
  (Commit, None) ∉ a -> (Commit, None) ∉ b -> (Commit, None) ∉ a ++ b.
Proof. intros Ha Hb Hin. apply elem_of_app in Hin as [Hin | Hin]; auto. Qed.

(** The [try] block, from the session it starts on. *)
Lemma transaction_try_trace {T : Type} (body : list action) (result : T)
    (config : option PgTransactionConfig) (st0 : state) :
  let r := transaction_try eng body result config st0 in
  exists new,
    sent r.1 = sent st0 ++ new
    /\ (forall x, r.2 = inr x ->
        x = result
        /\ exists pre, new = (Begin, None) :: pre ++ [(Commit, None)]
                       /\ Forall keeps_open pre)
    /\ (forall e, r.2 = inl e ->
        ((Commit, None) ∉ new) /\ failed_shape new).
Proof.
  cbv zeta. unfold transaction_try.
  destruct (execute eng Begin st0) as [st1 [e |]] eqn:H1;
    apply execute_inv in H1 as (H1 & _ & _).
  { exists [(Begin, Some e)]. split; [done |]. split; [done |].
    intros e' _. split; [| right; right; left; eauto].
    intros Hin. apply list_elem_of_singleton in Hin. done. }
  assert (Hcfg : exists st2 r2 pre0,
    match config with
    | Some cfg => setTransaction eng cfg st1
    | None => (st1, None)
    end = (st2, r2)
    /\ sent st2 = sent st0 ++ (Begin, None) :: pre0
    /\ Forall keeps_open pre0
    /\ (forall e, r2 = Some e ->
        pre0 = [] \/ exists text, pre0 = [(SetTransaction text, Some e)])).
  { destruct config as [cfg |].
    - unfold setTransaction.
      destruct (getTransactionConfigSQL cfg) as [e | text].
      + exists st1, (Some e), []. split; [done |]. split; [done |].
        split; [done |]. intros e' _. by left.
      + destruct (execute eng (SetTransaction text) st1) as [st2 r2] eqn:H2.
        apply execute_inv in H2 as (H2 & _ & _).
        exists st2, r2, [(SetTransaction text, r2)]. split; [done |].
        split; [by rewrite H2, H1, <- app_assoc |].
        split; [constructor; [by split | done] |].
        intros e ->. right. by exists text.
    - exists st1, None, []. split; [done |]. split; [done |].
      split; [done |]. done. }
  destruct Hcfg as (st2 & r2 & pre0 & -> & H2 & Hk0 & Hr2).
  destruct r2 as [e |].
  { exists ((Begin, None) :: pre0). split; [done |]. split; [done |].
    intros e' _. split.
    - apply not_elem_of_cons. split; [done |].
      by apply keeps_open_not_committed.
    - destruct (Hr2 e eq_refl) as [-> | [text ->]].
      + right. right. right. by left.
      + right. right. right. right. by exists text, e. }
  destruct (run_actions_well_nested 0 body st2) as (newb & Hb & _ & Hallb).
  apply by_callback_keeps_open in Hallb.
  assert (Hopen : Forall keeps_open (pre0 ++ newb)) by (by apply Forall_app).
  assert (Hnc : (Commit, @None thrown) ∉ (Begin, None) :: pre0 ++ newb).
  { apply not_elem_of_cons. split; [done |].
    by apply keeps_open_not_committed. }
  destruct (run_actions eng 0 body st2) as [st3 [error |]]; cbn [fst] in Hb.
  - destruct (execute eng Rollback st3) as [st4 r4] eqn:H4.
    apply execute_inv in H4 as (H4 & _ & _).
    exists (((Begin, None) :: pre0 ++ newb) ++ [(Rollback, r4)]).
    split; [| split].
    + destruct r4; cbn [fst]; rewrite H4, Hb, H2; lists_agree.
    + intros x Hx. by destruct r4.
    + intros e' _. split; [| left; eauto].
      apply not_committed_app; [done |]. intros Hin.
      apply list_elem_of_singleton in Hin. done.
  - destruct (rollbackOnly st3).
    + destruct (execute eng Rollback st3) as [st4 r4] eqn:H4.
      apply execute_inv in H4 as (H4 & _ & _).
      assert (Hboth : forall err,
        exists new,
          sent (match execute eng Rollback st4 with
                | (st', Some e') => (st', @inl thrown T e')
                | (st', None) => (st', inl err)
                end).1 = sent st0 ++ new
          /\ (forall x, (match execute eng Rollback st4 with
                         | (st', Some e') => (st', @inl thrown T e')
                         | (st', None) => (st', inl err)
                         end).2 = inr x ->
              x = result
              /\ exists pre, new = (Begin, None) :: pre ++ [(Commit, None)]
                             /\ Forall keeps_open pre)
          /\ (forall e, (match execute eng Rollback st4 with
                         | (st', Some e') => (st', @inl thrown T e')
                         | (st', None) => (st', inl err)
                         end).2 = inl e ->
              ((Commit, None) ∉ new) /\ failed_shape new)).
      { intros err.
        destruct (execute eng Rollback st4) as [st5 r5] eqn:H5.
        apply execute_inv in H5 as (H5 & _ & _).
        exists (((Begin, None) :: pre0 ++ newb)
                ++ [(Rollback, r4); (Rollback, r5)]).
        split; [| split].
        - destruct r5; cbn [fst]; rewrite H5, H4, Hb, H2; lists_agree.
        - intros x Hx. by destruct r5.
        - intros e' _. split.
          + apply not_committed_app; [done |]. intros Hin.
            apply elem_of_cons in Hin as [Hin | Hin]; [done |].
            apply list_elem_of_singleton in Hin. done.
          + left. exists (((Begin, None) :: pre0 ++ newb)
                          ++ [(Rollback, r4)]), r5.
            lists_agree. }
      destruct r4 as [e |]; apply Hboth.
    + destruct (execute eng Commit st3) as [st4 [e |]] eqn:H4;
        apply execute_inv in H4 as (H4 & _ & _).
      * destruct (execute eng Rollback st4) as [st5 r5] eqn:H5.
        apply execute_inv in H5 as (H5 & _ & _).
        exists (((Begin, None) :: pre0 ++ newb)
                ++ [(Commit, Some e); (Rollback, r5)]).
        split; [| split].
        -- destruct r5; cbn [fst]; rewrite H5, H4, Hb, H2; lists_agree.
        -- intros x Hx. by destruct r5.
        -- intros e' _. split.
           ++ apply not_committed_app; [done |]. intros Hin.
              apply elem_of_cons in Hin as [Hin | Hin]; [done |].
              apply list_elem_of_singleton in Hin. done.
           ++ left. exists (((Begin, None) :: pre0 ++ newb)
                            ++ [(Commit, Some e)]), r5.
              lists_agree.
      * exists ((Begin, None) :: (pre0 ++ newb) ++ [(Commit, None)]).
        split; [| split].
        -- cbn [fst]. rewrite H4, Hb, H2. lists_agree.
        -- intros x [= <-]. split; [done |]. by exists (pre0 ++ newb).
        -- intros e' He'. done.
Qed.

(** X29.  A transaction returns its callback's result only after a
    [COMMIT] the engine accepted, and, unless [release] throws, reports
    failure only without one.  For every engine, client, callback and
    configuration: when [transaction] returns, it returns the callback's
    result, and what it sent is an accepted [BEGIN], then statements
    among which there is no [COMMIT] and no [ROLLBACK], then one accepted
    [COMMIT], and nothing after it.  When it throws, either the client is
    a pool whose [release] of the pinned connection threw, and the error
    is that of [release], whatever the transaction did, an accepted
    [COMMIT] included; or no [COMMIT] was accepted, and either the last
    statement sent is a [ROLLBACK], or the callback was never entered and
    nothing was sent after the refused [BEGIN], the refused configuration
    or the refused [SET TRANSACTION]: in the last two cases the
    transaction [BEGIN] opened is not rolled back. *)
Theorem result_only_after_commit {T : Type} (c : client)
    (body : list action) (result : T) (config : option PgTransactionConfig)
    (st : state) :
  let r := transaction eng c body result config st in
  exists new,
    sent r.1.1 = sent st ++ new
    /\ (forall x, r.2 = inr x ->
        x = result
        /\ exists pre, new = (Begin, None) :: pre ++ [(Commit, None)]
                       /\ Forall keeps_open pre)
    /\ (forall e, r.2 = inl e ->
        (acquire_error_of c = None /\ release_error_of c = Some e)
        \/ (((Commit, None) ∉ new) /\ failed_shape new)).
Proof.
  cbv zeta. unfold transaction.
  pose proof (transaction_try_trace body result config
                (MkState (sent st) false (dialect st))) as Hrun.
  cbv zeta in Hrun. cbn [sent] in Hrun.
  destruct Hrun as (new & Hs & Hok & Hfail).
  destruct c as [| [e |] [e' |]]; unfold finally_release;
    cbn [release_error_of acquire_error_of fst snd sent].
  - exists new. split; [done |]. split; [done |]. intros e He. right. exact (Hfail e He).
  - exists []. rewrite app_nil_r. split; [done |]. split; [done |].
    intros e0 _. right. split; [apply not_elem_of_nil |]. right. by left.
  - exists []. rewrite app_nil_r. split; [done |]. split; [done |].
    intros e0 _. right. split; [apply not_elem_of_nil |]. right. by left.
  - exists new. split; [done |]. split; [done |].
    intros e [= <-]. by left.
  - exists new. split; [done |]. split; [done |]. intros e He. right. exact (Hfail e He).
Qed.

End Facts.

(** *** The text of [SET TRANSACTION] *)

Lemma isolation_accepted config :
  check_isolation config = None ->
  truthy (isolationLevel config) = None
  \/ exists level, truthy (isolationLevel config) = Some level
                   /\ level ∈ VALID_TRANSACTION_ISOLATION_LEVELS.
Proof.
  unfold check_isolation.
  destruct (truthy (isolationLevel config)) as [level |]; [| by left].
  unfold has. destruct (bool_decide _) eqn:E; [| done].
  apply bool_decide_eq_true in E. intros _. right. by exists level.
Qed.

Lemma access_accepted config :
  check_access config = None ->
  truthy (accessMode config) = None
  \/ exists mode, truthy (accessMode config) = Some mode
                  /\ mode ∈ VALID_TRANSACTION_ACCESS_MODES.
Proof.
  unfold check_access.
  destruct (truthy (accessMode config)) as [mode |]; [| by left].
  unfold has. destruct (bool_decide _) eqn:E; [| done].
  apply bool_decide_eq_true in E. intros _. right. by exists mode.
Qed.

(** X30.  The text [getTransactionConfigSQL] returns, which
    [setTransaction] splices after [set transaction] unquoted, consists
    of lower-case letters and spaces only, whatever strings the
    configuration holds: what passes the guards is drawn from the
    allow-lists, so no quote, semicolon or comment sign can reach the
    statement. *)
Theorem accepted_configuration_is_plain_words (config : PgTransactionConfig)
    (sql : string) :
  getTransactionConfigSQL config = inr sql ->
  plain_text sql = true.
Proof.
  unfold getTransactionConfigSQL.
  destruct (check_isolation config) eqn:Hi; [done |].
  destruct (check_access config) eqn:Ha; [done |].
  destruct (check_deferrable config) eqn:Hd; [done |].
  intros [= <-]. unfold config_chunks.
  assert (Hdef : deferrable config = None
                 \/ exists b, deferrable config = Some (VBool b)).
  { unfold check_deferrable in Hd.
    destruct (deferrable config) as [[b | r] |]; [right; eauto | done |].
    by left. }
  apply isolation_accepted in Hi. apply access_accepted in Ha.
  destruct Hi as [-> | (level & -> & Hl)];
    destruct Ha as [-> | (mode & -> & Hm)];
    destruct Hdef as [-> | [[|] ->]].
  all: unfold VALID_TRANSACTION_ISOLATION_LEVELS,
         VALID_TRANSACTION_ACCESS_MODES in *.
  all: repeat match goal with
         | H : _ ∈ _ :: _ |- _ => apply elem_of_cons in H as [-> | H]
         | H : _ ∈ [] |- _ => by apply not_elem_of_nil in H
         end.
  all: reflexivity.
Qed.

Lemma accepted_configuration_is_plain_words_witness :
  plain_text "isolation level repeatable read read only not deferrable"
  = true.
Proof.
  apply (accepted_configuration_is_plain_words sample_tx_config).
  reflexivity.
Defined.

End TxTraceFacts.
